(** * HistomicsTK feature extraction: windows, cytoplasm masks and the feature table

    A shallow embedding of [histomicstk/features/FeatureExtraction.py]:
    the function [GetBounds], the per-region construction of the nucleus and
    cytoplasm masks, the circularity guard and the assembly of the output
    table, together with the properties the specification states about them.

    Two-dimensional numpy arrays are lists of rows; integer indices, labels
    and the margin [Delta] are in [Z]; float64 values are [spec_float] at
    precision 53 and maximal exponent 1024. *)

From Stdlib Require Import ZArith Lia Bool.
From Stdlib Require Import Floats.SpecFloat.
From stdpp Require Import base tactics option list numbers strings pretty sorting.

Local Open Scope Z_scope.

(** ** Arrays *)

Module Array.

(** [a.shape[0]] and [a.shape[1]] of a two-dimensional array. *)
Definition shape0 {A} (a : list (list A)) : Z := Z.of_nat (length a).

Definition shape1 {A} (a : list (list A)) : Z :=
  match a with
  | [] => 0
  | row :: _ => Z.of_nat (length row)
  end.

(** Every row has the width of the first one. *)
Definition rectangular {A} (a : list (list A)) : Prop :=
  Forall (λ row, Z.of_nat (length row) = shape1 a) a.

(** [a[r, c]] for integer coordinates; [None] outside the array.  Negative
    coordinates are outside: the code only indexes with the non-negative
    coordinates it gets from slices. *)
Definition get {A} (a : list (list A)) (r c : Z) : option A :=
  if bool_decide (0 ≤ r ∧ 0 ≤ c)
  then a !! Z.to_nat r ≫= λ row, row !! Z.to_nat c
  else None.

(** Python's normalisation of a slice bound against a length: a negative
    bound counts from the end, and the result is clamped to [0, len]. *)
Definition slice_index (len i : Z) : Z :=
  if bool_decide (i < 0) then Z.max 0 (i + len) else Z.min i len.

(** [l[start:stop]]. *)
Definition slice {A} (start stop : Z) (l : list A) : list A :=
  let len := Z.of_nat (length l) in
  let a := slice_index len start in
  let b := slice_index len stop in
  take (Z.to_nat (b - a)) (drop (Z.to_nat a) l).

(** [a[r0:r1, c0:c1]]. *)
Definition slice2 {A} (r0 r1 c0 c1 : Z) (a : list (list A)) : list (list A) :=
  slice c0 c1 <$> slice r0 r1 a.

(** An elementwise operation on a two-dimensional array. *)
Definition map2d {A B} (f : A → B) (a : list (list A)) : list (list B) :=
  (λ row : list A, f <$> row) <$> a.

(** [np.arange(a, b)] on integers. *)
Definition arange (a b : Z) : list Z :=
  seqZ a (b - a).

(** [np.argwhere(a)] for a boolean array: the coordinates of the true
    entries, in row-major order. *)
Definition where_true (row : list bool) : list nat :=
  fst <$> filter (λ p, p.2 = true) (imap pair row).

Definition argwhere (a : list (list bool)) : list (Z * Z) :=
  mjoin (imap (λ i row, (λ j : nat, (Z.of_nat i, Z.of_nat j)) <$> where_true row) a).

End Array.

(** ** The neighbourhood window *)

(** [GetBounds(bbox, delta, M, N)]: the bounding box grown by [delta] on every
    side and clipped; the result is in the order
    [(min_row, max_row, min_col, max_col)]. *)
Definition GetBounds (bbox : Z * Z * Z * Z) (delta M N : Z) : Z * Z * Z * Z :=
  let '(min_row, min_col, max_row, max_col) := bbox in
  let min_row_out := Z.max 0 (min_row - delta) in
  let max_row_out := Z.min (M - 1) (max_row + delta) in
  let min_col_out := Z.max 0 (min_col - delta) in
  let max_col_out := Z.min (N - 1) (max_col + delta) in
  (min_row_out, max_row_out, min_col_out, max_col_out).

(** ** Morphology (skimage.morphology) *)

(** [disk(radius)]: the square array over [arange(-radius, radius + 1)] in
    both directions, true where [x**2 + y**2 <= radius**2]. *)
Definition disk (radius : Z) : list (list bool) :=
  let L := Array.arange (- radius) (radius + 1) in
  (λ y, (λ x, bool_decide (x * x + y * y ≤ radius * radius)) <$> L) <$> L.

Definition list_or (l : list bool) : bool := foldr orb false l.

(** The offset [(dr, dc)] lies in the disk of radius [radius]. *)
Definition in_disk (radius dr dc : Z) : Prop :=
  0 ≤ radius ∧ dr * dr + dc * dc ≤ radius * radius.

(** [dilation(image, footprint)] of a boolean image: an output pixel is true
    when the footprint, centred on it, covers a true pixel of the image.  The
    centre of the footprint is at half its size.  Positions outside the array
    contribute nothing; for the symmetric footprint [disk] this agrees with a
    mirrored border, since a mirrored pixel is never nearer than the pixel it
    mirrors. *)
Definition dilation (image footprint : list (list bool)) : list (list bool) :=
  let cr := Array.shape0 footprint `div` 2 in
  let cc := Array.shape1 footprint `div` 2 in
  imap (λ i row,
    imap (λ j (_ : bool),
      list_or (imap (λ a frow,
        list_or (imap (λ b (f : bool),
          f && default false
                 (Array.get image (Z.of_nat i + (Z.of_nat a - cr))
                                  (Z.of_nat j + (Z.of_nat b - cc)))) frow))
        footprint)) row) image.

(** The call [dilation(image, footprint)] raises for a footprint without a
    true entry, as [disk] of a negative radius is; for any other footprint
    it returns [dilation image footprint]. *)
Definition footprint_any (footprint : list (list bool)) : bool :=
  list_or (list_or <$> footprint).

Definition dilation_call (image footprint : list (list bool))
  : option (list (list bool)) :=
  if footprint_any footprint then Some (dilation image footprint) else None.

(** ** Floating point (float64) *)

Definition float := spec_float.
Definition prec : Z := 53.
Definition emax : Z := 1024.
Definition fmul : float → float → float := SFmul prec emax.
Definition fadd : float → float → float := SFadd prec emax.
Definition fdiv : float → float → float := SFdiv prec emax.
Definition fsqrt : float → float := SFsqrt prec emax.

(** [0.0], the Python integer [4] as a float64, and [np.pi]. *)
Definition fzero : float := S754_zero false.
Definition four : float := S754_finite false 4503599627370496 (-50).
Definition np_pi : float := S754_finite false 7074237752028440 (-51).

(** Truth value of a float in a conditional: false for [0.0] and [-0.0],
    true otherwise (NaN included). *)
Definition truthy (x : float) : bool :=
  match x with
  | S754_zero _ => false
  | _ => true
  end.

(** The circularity of a region from the stored [Area[i]] and
    [Perimeter[i]], where [power2 p] is what [np.power(p, 2)] returns.  The
    power is computed by the C library and is not always the correctly
    rounded square. *)
Definition Circularity_with (power2 : float → float) (Area Perimeter : float)
  : float :=
  let numerator := fmul (fmul four np_pi) Area in
  let denominator := power2 Perimeter in
  if truthy denominator then fdiv numerator denominator else fzero.

(** The circularity for a power that is the correctly rounded square. *)
Definition Circularity_of (Area Perimeter : float) : float :=
  Circularity_with (λ p, fmul p p) Area Perimeter.

(** ** Regions (skimage.measure.regionprops) *)

(** The floating-point measurements of a region. *)
Record Measurements := {
  m_centroid : float * float;
  m_area : float;
  m_perimeter : float;
  m_eccentricity : float;
  m_major_axis_length : float;
  m_minor_axis_length : float;
  m_extent : float;
  m_solidity : float
}.

Record RegionProperties := {
  label : Z;
  bbox : Z * Z * Z * Z;
  coords : list (Z * Z);
  measurements : Measurements
}.

Definition centroid (r : RegionProperties) := m_centroid (measurements r).
Definition area (r : RegionProperties) := m_area (measurements r).
Definition perimeter (r : RegionProperties) := m_perimeter (measurements r).
Definition eccentricity (r : RegionProperties) := m_eccentricity (measurements r).
Definition major_axis_length (r : RegionProperties) :=
  m_major_axis_length (measurements r).
Definition minor_axis_length (r : RegionProperties) :=
  m_minor_axis_length (measurements r).
Definition extent (r : RegionProperties) := m_extent (measurements r).
Definition solidity (r : RegionProperties) := m_solidity (measurements r).

(** The pixels of a label, in row-major order. *)
Definition coords_of (Label : list (list Z)) (l : Z) : list (Z * Z) :=
  Array.argwhere (Array.map2d (λ v, bool_decide (v = l)) Label).

(** The bounding box [(min_row, min_col, max_row, max_col)] of a pixel list;
    the maxima are exclusive, as in skimage. *)
Definition bbox_of (cs : list (Z * Z)) : Z * Z * Z * Z :=
  match cs with
  | [] => (0, 0, 0, 0)
  | (r0, c0) :: rest =>
      (foldr Z.min r0 (fst <$> rest), foldr Z.min c0 (snd <$> rest),
       foldr Z.max r0 (fst <$> rest) + 1, foldr Z.max c0 (snd <$> rest) + 1)
  end.

Definition max_label (Label : list (list Z)) : Z := foldr Z.max 0 (mjoin Label).

(** The labels that have a region: the positive values that occur in the
    image, in increasing order. *)
Definition region_labels (Label : list (list Z)) : list Z :=
  filter (λ l, l ∈ mjoin Label) (Array.arange 1 (max_label Label + 1)).

(** ** The masks of a region *)

Section Masks.
Variable Label : list (list Z).
Variable Delta : Z.
Variable reg : RegionProperties.

(** The bounds of the dilated nucleus, from the region's bounding box. *)
Definition bounds : Z * Z * Z * Z :=
  GetBounds (bbox reg) Delta (Array.shape0 Label) (Array.shape1 Label).

Definition min_row : Z := bounds.1.1.1.
Definition max_row : Z := bounds.1.1.2.
Definition min_col : Z := bounds.1.2.
Definition max_col : Z := bounds.2.

(** [Label[min_row:max_row, min_col:max_col]]. *)
Definition window : list (list Z) :=
  Array.slice2 min_row max_row min_col max_col Label.

(** The nucleus mask: the window compared with the region's label. *)
Definition Nucleus : list (list bool) :=
  Array.map2d (λ v, bool_decide (v = label reg)) window.

(** The mask of all nuclei in the neighbourhood, as [uint8]. *)
Definition Mask : list (list Z) :=
  Array.map2d (λ v, if bool_decide (v > 0) then 1 else 0) window.

(** [np.logical_xor] of an integer array and a boolean array of one
    shape; a non-zero integer is true. *)
Definition logical_xor (a : list (list Z)) (b : list (list bool))
  : list (list bool) :=
  zip_with (zip_with (λ x y, xorb (bool_decide (x ≠ 0)) y)) a b.

Definition Disk : list (list bool) := disk Delta.

Definition cytoplasm : list (list bool) :=
  logical_xor Mask (dilation Nucleus Disk).

(** The cytoplasm pixels, moved back to the coordinates of the image. *)
Definition regionCoords : list (Z * Z) :=
  (λ p, (p.1 + min_row, p.2 + min_col)) <$> Array.argwhere cytoplasm.

(** The pixels of the nucleus mask, in the coordinates of the image. *)
Definition NucleusCoords : list (Z * Z) :=
  (λ p, (p.1 + min_row, p.2 + min_col)) <$> Array.argwhere Nucleus.

(** *** The masks as sets of image pixels

    The masks as the specification words them, over the coordinates of the
    image, to be compared with the arrays above.  The neighbourhood window
    is the set of pixels that the slice [min_row:max_row, min_col:max_col]
    selects; its upper bounds are exclusive. *)
Definition row_stop : Z := Array.slice_index (Array.shape0 Label) max_row.
Definition col_stop : Z := Array.slice_index (Array.shape1 Label) max_col.

Definition in_window (r c : Z) : Prop :=
  (min_row ≤ r < row_stop) ∧ (min_col ≤ c < col_stop).

(** The pixel is in the window and carries the region's own label. *)
Definition NucleusMask (r c : Z) : Prop :=
  in_window r c ∧ Array.get Label r c = Some (label reg).

(** The pixel is in the window and carries some positive label. *)
Definition AnyLabelMask (r c : Z) : Prop :=
  in_window r c ∧ ∃ v, Array.get Label r c = Some v ∧ 0 < v.

(** The pixel is in the window, within distance [Delta] of a pixel of the
    nucleus mask. *)
Definition DilatedNucleusMask (r c : Z) : Prop :=
  in_window r c ∧
  ∃ r' c', NucleusMask r' c' ∧ in_disk Delta (r - r') (c - c').

(** The pixel is one of the cytoplasm pixels the code computes. *)
Definition CytoplasmMask (r c : Z) : Prop := (r, c) ∈ regionCoords.
End Masks.

(** ** Collaborators

    The routines the extraction calls and does not define: the measurements
    of [regionprops], [np.power] with exponent 2, [np.gradient], [canny] and
    the four feature computations.  They are functions of their arguments;
    [np.gradient], [canny] and the feature computations may raise, which is
    [None]: [np.gradient], for one, raises for an image of fewer than two
    rows or columns. *)

Class Collaborators := {
  region_measurements : list (list Z) → Z → Measurements;
  np_power2 : float → float;
  np_gradient :
    list (list float) → option (list (list float) * list (list float));
  canny : list (list float) → option (list (list bool));
  ComputeFSDs : list (list bool) → Z → nat → option (list float);
  ComputeTextureFeatures :
    list (list float) → list (Z * Z) → option (list float);
  ComputeGradientFeatures :
    list (list float) → list (Z * Z) → list (list float) → list (list bool) →
    option (list float);
  ComputeIntensityFeatures :
    list (list float) → list (Z * Z) → option (list float)
}.

(** [regionprops(Label)]: one region for every label of [region_labels], in
    that order. *)
Definition regionprops `{Collaborators} (Label : list (list Z))
  : list RegionProperties :=
  (λ l, let cs := coords_of Label l in
        {| label := l; bbox := bbox_of cs; coords := cs;
           measurements := region_measurements Label l |})
    <$> region_labels Label.

(** [np.sqrt(Gx**2 + Gy**2)] for the two gradients of an image. *)
Definition gradient_magnitude `{Collaborators} (I : list (list float))
  : option (list (list float)) :=
  '(Gx, Gy) ← np_gradient I;
  Some (zip_with
          (zip_with (λ gx gy, fsqrt (fadd (fmul gx gx) (fmul gy gy)))) Gx Gy).

(** ** Array updates *)

Definition zeros (n : nat) : list float := replicate n fzero.
Definition zeros2 (n w : nat) : list (list float) := replicate n (zeros w).

(** [a[i] = v]; an index out of range raises. *)
Definition setitem {A} (a : list A) (i : nat) (v : A) : option (list A) :=
  if decide (i < length a)%nat then Some (<[i := v]> a) else None.

(** A vector assigned to a row of width [w] has [w] entries, or one entry
    that is repeated; anything else raises. *)
Definition broadcast (w : nat) (v : list float) : option (list float) :=
  if decide (length v = w) then Some v
  else match v with
       | [x] => Some (replicate w x)
       | _ => None
       end.

(** [a[i, :] = v]. *)
Definition setrow (a : list (list float)) (i : nat) (v : list float)
  : option (list (list float)) :=
  old ← a !! i;
  row ← broadcast (length old) v;
  Some (<[i := row]> a).

(** [a[:, i]]. *)
Definition column (a : list (list float)) (i : nat) : option (list float) :=
  mapM (λ row : list float, row !! i) a.

(** [for i in range(...)] over a state, stopping at the first error. *)
Fixpoint for_range {St} (body : nat → St → option St) (range : list nat)
    (st : St) : option St :=
  match range with
  | [] => Some st
  | i :: rest => st' ← body i st; for_range body rest st'
  end.

(** ** The data frame *)

(** The columns of a data frame, in order. *)
Definition DataFrame := list (string * list float).

(** [df[name] = col]: the first column fixes the number of rows, a later one
    of another length raises; an existing name is overwritten in place, a new
    one is appended. *)
Definition df_setitem (df : DataFrame) (name : string) (col : list float)
  : option DataFrame :=
  match df with
  | [] => Some [(name, col)]
  | (_, c0) :: _ =>
      if decide (length col = length c0) then
        Some (if decide (name ∈ df.*1)
              then (λ p, if decide (p.1 = name) then (name, col) else p) <$> df
              else df ++ [(name, col)])
      else None
  end.

Definition TextureNames : list string :=
  ["Entropy"; "Energy"; "Skewness"; "Kurtosis"].

Definition GradientNames : list string :=
  ["MeanGradMag"; "StdGradMag"; "EntropyGradMag"; "EnergyGradMag";
   "SkewnessGradMag"; "KurtosisGradMag"; "SumCanny"; "MeanCanny"].

Definition IntensityNames : list string :=
  ["MeanIntensity"; "MeanMedianDifferenceIntensity"; "MaxIntensity";
   "MinIntensity"; "StdIntensity"].

(** One of the loops that add a Hematoxylin and a Cytoplasm column for every
    name of a feature group. *)
Definition add_group (Names : list string) (H E : list (list float))
    (df : DataFrame) : option DataFrame :=
  for_range (λ i df,
      name ← Names !! i;
      h ← column H i;
      df ← df_setitem df ("Hematoxylin" +:+ name) h;
      e ← column E i;
      df_setitem df ("Cytoplasm" +:+ name) e)
    (seq 0 (length Names)) df.

(** ** The extraction *)

(** The arrays the loop fills, and its region index. *)
Record Features := {
  CentroidX : list float;
  CentroidY : list float;
  Area : list float;
  Perimeter : list float;
  Eccentricity : list float;
  Circularity : list float;
  MajorAxisLength : list float;
  MinorAxisLength : list float;
  Extent : list float;
  Solidity : list float;
  FSDGroup : list (list float);
  HematoxylinTextureGroup : list (list float);
  EosinTextureGroup : list (list float);
  HematoxylinGradientGroup : list (list float);
  EosinGradientGroup : list (list float);
  HematoxylinIntensityGroup : list (list float);
  EosinIntensityGroup : list (list float);
  regionIdx : nat
}.

Section Extraction.
Context `{Collaborators}.
Variable Label : list (list Z).
Variables In Ic : list (list float).
Variable K : Z.
Variable Fs : nat.
Variable Delta : Z.

Definition initial (num : nat) : Features :=
  {| CentroidX := zeros num; CentroidY := zeros num;
     Area := zeros num; Perimeter := zeros num;
     Eccentricity := zeros num; Circularity := zeros num;
     MajorAxisLength := zeros num; MinorAxisLength := zeros num;
     Extent := zeros num; Solidity := zeros num;
     FSDGroup := zeros2 num Fs;
     HematoxylinTextureGroup := zeros2 num 4;
     EosinTextureGroup := zeros2 num 4;
     HematoxylinGradientGroup := zeros2 num 8;
     EosinGradientGroup := zeros2 num 8;
     HematoxylinIntensityGroup := zeros2 num 5;
     EosinIntensityGroup := zeros2 num 5;
     regionIdx := 0 |}.

(** The body of the loop over the regions, for index [i]. *)
Definition extract_region (regions : list RegionProperties)
    (diffGn : list (list float)) (BW_cannyn : list (list bool))
    (diffGc : list (list float)) (BW_cannyc : list (list bool))
    (i : nat) (st : Features) : option Features :=
  reg ← regions !! i;
  CentroidX' ← setitem (CentroidX st) i (centroid reg).1;
  CentroidY' ← setitem (CentroidY st) i (centroid reg).2;
  Area' ← setitem (Area st) i (area reg);
  Perimeter' ← setitem (Perimeter st) i (perimeter reg);
  Eccentricity' ← setitem (Eccentricity st) i (eccentricity reg);
  a ← Area' !! i;
  p ← Perimeter' !! i;
  Circularity' ← setitem (Circularity st) i (Circularity_with np_power2 a p);
  MajorAxisLength' ← setitem (MajorAxisLength st) i (major_axis_length reg);
  MinorAxisLength' ← setitem (MinorAxisLength st) i (minor_axis_length reg);
  Extent' ← setitem (Extent st) i (extent reg);
  Solidity' ← setitem (Solidity st) i (solidity reg);
  let Nucleus := Nucleus Label Delta reg in
  fsd ← ComputeFSDs Nucleus K Fs;
  FSDGroup' ← setrow (FSDGroup st) (regionIdx st) fsd;
  let Nuclei := coords reg in
  texture ← ComputeTextureFeatures In Nuclei;
  HematoxylinTextureGroup' ←
    setrow (HematoxylinTextureGroup st) (regionIdx st) texture;
  gradient ← ComputeGradientFeatures In Nuclei diffGn BW_cannyn;
  HematoxylinGradientGroup' ←
    setrow (HematoxylinGradientGroup st) (regionIdx st) gradient;
  intensity ← ComputeIntensityFeatures In Nuclei;
  HematoxylinIntensityGroup' ←
    setrow (HematoxylinIntensityGroup st) (regionIdx st) intensity;
  dilated ← dilation_call Nucleus (Disk Delta);
  let cytoplasm := logical_xor (Mask Label Delta reg) dilated in
  let regionCoords :=
    (λ p, (p.1 + min_row Label Delta reg, p.2 + min_col Label Delta reg))
      <$> Array.argwhere cytoplasm in
  texture ← ComputeTextureFeatures Ic regionCoords;
  EosinTextureGroup' ←
    setrow (EosinTextureGroup st) (regionIdx st) texture;
  gradient ← ComputeGradientFeatures Ic regionCoords diffGc BW_cannyc;
  EosinGradientGroup' ←
    setrow (EosinGradientGroup st) (regionIdx st) gradient;
  intensity ← ComputeIntensityFeatures Ic regionCoords;
  EosinIntensityGroup' ←
    setrow (EosinIntensityGroup st) (regionIdx st) intensity;
  Some {| CentroidX := CentroidX'; CentroidY := CentroidY';
          Area := Area'; Perimeter := Perimeter';
          Eccentricity := Eccentricity'; Circularity := Circularity';
          MajorAxisLength := MajorAxisLength';
          MinorAxisLength := MinorAxisLength';
          Extent := Extent'; Solidity := Solidity';
          FSDGroup := FSDGroup';
          HematoxylinTextureGroup := HematoxylinTextureGroup';
          EosinTextureGroup := EosinTextureGroup';
          HematoxylinGradientGroup := HematoxylinGradientGroup';
          EosinGradientGroup := EosinGradientGroup';
          HematoxylinIntensityGroup := HematoxylinIntensityGroup';
          EosinIntensityGroup := EosinIntensityGroup';
          regionIdx := regionIdx st + 1 |}.

(** The columns filled from the one-dimensional arrays. *)
Definition scalar_columns (st : Features) : list (string * list float) :=
  [("X", CentroidX st); ("Y", CentroidY st);
   ("Area", Area st); ("Perimeter", Perimeter st);
   ("Eccentricity", Eccentricity st); ("Circularity", Circularity st);
   ("MajorAxisLength", MajorAxisLength st);
   ("MinorAxisLength", MinorAxisLength st);
   ("Extent", Extent st); ("Solidity", Solidity st)].

(** The table built from the filled arrays. *)
Definition build_table (st : Features) : option DataFrame :=
  df ← for_range (λ i df, c ← scalar_columns st !! i; df_setitem df c.1 c.2)
         (seq 0 (length (scalar_columns st))) [];
  df ← for_range (λ i df,
           c ← column (FSDGroup st) i;
           df_setitem df ("FSD" +:+ pretty (i + 1)%nat) c)
         (seq 0 Fs) df;
  df ← add_group TextureNames
         (HematoxylinTextureGroup st) (EosinTextureGroup st) df;
  df ← add_group GradientNames
         (HematoxylinGradientGroup st) (EosinGradientGroup st) df;
  add_group IntensityNames
    (HematoxylinIntensityGroup st) (EosinIntensityGroup st) df.

Definition FeatureExtraction : option DataFrame :=
  let regions := regionprops Label in
  let num := length regions in
  diffGn ← gradient_magnitude In;
  BW_cannyn ← canny In;
  diffGc ← gradient_magnitude Ic;
  BW_cannyc ← canny Ic;
  st ← for_range
         (extract_region regions diffGn BW_cannyn diffGc BW_cannyc)
         (seq 0 num) (initial num);
  build_table st.
End Extraction.

(** ** Sample inputs *)

(** Collaborators that return zeros of the documented lengths. *)
Definition zero_measurements : Measurements :=
  {| m_centroid := (fzero, fzero); m_area := fzero; m_perimeter := fzero;
     m_eccentricity := fzero; m_major_axis_length := fzero;
     m_minor_axis_length := fzero; m_extent := fzero; m_solidity := fzero |}.

Definition constant_collaborators : Collaborators :=
  {| region_measurements := λ _ _, zero_measurements;
     np_power2 := λ p, fmul p p;
     np_gradient := λ I, Some (I, I);
     canny := λ I, Some (Array.map2d (λ _, false) I);
     ComputeFSDs := λ _ _ Fs, Some (zeros Fs);
     ComputeTextureFeatures := λ _ _, Some (zeros 4);
     ComputeGradientFeatures := λ _ _ _ _, Some (zeros 8);
     ComputeIntensityFeatures := λ _ _, Some (zeros 5) |}.

(** Two touching regions in a 9 x 9 image: a 2 x 2 block with label 1 and,
    next to it, a vertical bar with label 2. *)
Definition adjacent_regions : list (list Z) :=
  [[0; 0; 0; 0; 0; 0; 0; 0; 0];
   [0; 0; 0; 0; 0; 2; 0; 0; 0];
   [0; 0; 0; 0; 0; 2; 0; 0; 0];
   [0; 0; 0; 1; 1; 2; 0; 0; 0];
   [0; 0; 0; 1; 1; 2; 0; 0; 0];
   [0; 0; 0; 0; 0; 0; 0; 0; 0];
   [0; 0; 0; 0; 0; 0; 0; 0; 0];
   [0; 0; 0; 0; 0; 0; 0; 0; 0];
   [0; 0; 0; 0; 0; 0; 0; 0; 0]].

Definition block_region : RegionProperties :=
  {| label := 1; bbox := (3, 3, 5, 5);
     coords := [(3, 3); (3, 4); (4, 3); (4, 4)];
     measurements := zero_measurements |}.

Definition bar_region : RegionProperties :=
  {| label := 2; bbox := (1, 5, 5, 6);
     coords := [(1, 5); (2, 5); (3, 5); (4, 5)];
     measurements := zero_measurements |}.

(** A 2 x 2 region in the bottom right corner of a 4 x 4 image. *)
Definition corner_image : list (list Z) :=
  [[0; 0; 0; 0];
   [0; 0; 0; 0];
   [0; 0; 1; 1];
   [0; 0; 1; 1]].

Definition corner_region : RegionProperties :=
  {| label := 1; bbox := (2, 2, 4, 4);
     coords := [(2, 2); (2, 3); (3, 2); (3, 3)];
     measurements := zero_measurements |}.

(** The 50 x 50 image with label 1 on rows 10 to 20 and columns 10 to 20. *)
Definition Label50 : list (list Z) :=
  (λ r, (λ c, if bool_decide ((10 ≤ r ≤ 20) ∧ (10 ≤ c ≤ 20)) then 1 else 0)
          <$> seqZ 0 50) <$> seqZ 0 50.

(** A region that encloses a pixel of another region in its bounding
    box. *)
Definition enclosed_pixel : list (list Z) :=
  [[1; 1; 0];
   [1; 2; 0];
   [0; 0; 0]].

Definition hook_region : RegionProperties :=
  {| label := 1; bbox := (0, 0, 2, 2);
     coords := [(0, 0); (0, 1); (1, 0)];
     measurements := zero_measurements |}.

(** The float64 of a small natural number. *)
Definition float_of_nat (n : nat) : float :=
  binary_normalize prec emax (Z.of_nat n) 0 false.

(** The area 40 and the perimeter [31.177669529663685]. *)
Definition forty : float := S754_finite false 5629499534213120 (-47).
Definition sample_perimeter : float := S754_finite false 8775733804754615 (-48).

(** A power as the C library computes it: at [sample_perimeter] it is one
    unit in the last place below the correctly rounded square, elsewhere it
    is the correctly rounded square. *)
Definition sample_power2 (p : float) : float :=
  match p with
  | S754_finite false 8775733804754615 (-48) =>
      S754_finite false 8550216513904297 (-43)
  | _ => fmul p p
  end.

(** Collaborators whose results depend on their arguments.  The area of a
    region is its number of pixels; its perimeter is that number too for an
    odd label and zero for an even one.  [np.gradient] raises for fewer
    than two rows or columns, every feature vector counts the pixels it is
    computed from, and the intensity features come as a single value. *)
Definition counting_measurements (Label : list (list Z)) (l : Z)
  : Measurements :=
  let n := length (coords_of Label l) in
  {| m_centroid := (float_of_nat (Z.to_nat l), float_of_nat (n + 1));
     m_area := float_of_nat n;
     m_perimeter := if Z.even l then fzero else float_of_nat n;
     m_eccentricity := float_of_nat 1;
     m_major_axis_length := float_of_nat (n + 2);
     m_minor_axis_length := float_of_nat (n + 3);
     m_extent := float_of_nat 2;
     m_solidity := float_of_nat 3 |}.

Definition counting_collaborators : Collaborators :=
  {| region_measurements := counting_measurements;
     np_power2 := sample_power2;
     np_gradient := λ I,
       if decide (2 ≤ Array.shape0 I ∧ 2 ≤ Array.shape1 I)
       then Some (I, I) else None;
     canny := λ I, Some (Array.map2d (λ _, false) I);
     ComputeFSDs := λ mask _ Fs,
       Some ((λ k, float_of_nat (length (Array.argwhere mask) + k))
               <$> seq 0 Fs);
     ComputeTextureFeatures := λ _ cs,
       Some ((λ k, float_of_nat (10 + length cs + k)) <$> seq 0 4);
     ComputeGradientFeatures := λ _ cs _ _,
       Some ((λ k, float_of_nat (20 + length cs + k)) <$> seq 0 8);
     ComputeIntensityFeatures := λ _ cs, Some [float_of_nat (length cs)] |}.

(** Collaborators that agree with [counting_collaborators] on the labels
    1 and 2 and for 128 boundary points, and differ elsewhere. *)
Definition other_collaborators : Collaborators :=
  {| region_measurements := λ Label l,
       if decide (l ≤ 2) then counting_measurements Label l
       else zero_measurements;
     np_power2 := sample_power2;
     np_gradient := @np_gradient counting_collaborators;
     canny := @canny counting_collaborators;
     ComputeFSDs := λ mask K Fs,
       if decide (K = 128) then @ComputeFSDs counting_collaborators mask K Fs
       else None;
     ComputeTextureFeatures := @ComputeTextureFeatures counting_collaborators;
     ComputeGradientFeatures := @ComputeGradientFeatures counting_collaborators;
     ComputeIntensityFeatures :=
       @ComputeIntensityFeatures counting_collaborators |}.

(** ** The accuracy of [np.power]

    [np.power(p, 2)] is the [pow] of the C library: exact at zero, and
    elsewhere the correctly rounded square or a float64 next to it. *)

(** The exponent of the least positive float64. *)
Definition least_exponent : Z := 3 - emax - prec.

(** [y] is [x], or differs from [x] by at most one unit in the last place
    of [x]. *)
Definition within_ulp (x y : float) : Prop :=
  match x, y with
  | S754_nan, S754_nan => True
  | S754_zero _, S754_zero _ => True
  | S754_infinity sx, S754_infinity sy => sx = sy
  | S754_finite sx mx ex, S754_finite sy my ey =>
      sx = sy ∧
      let e := Z.min ex ey in
      Z.abs (Z.pos mx * 2 ^ (ex - e) - Z.pos my * 2 ^ (ey - e)) ≤ 2 ^ (ex - e)
  | S754_finite _ m e, S754_zero _ | S754_zero _, S754_finite _ m e =>
      m = 1%positive ∧ e = least_exponent
  | S754_finite sx m e, S754_infinity sy
  | S754_infinity sy, S754_finite sx m e =>
      sx = sy ∧ Z.pos m = 2 ^ prec - 1 ∧ e = emax - prec
  | _, _ => False
  end.

Definition power_is_accurate `{Collaborators} : Prop :=
  (∀ s, np_power2 (S754_zero s) = fzero) ∧
  (∀ p, within_ulp (fmul p p) (np_power2 p)).

(** ** Perimeters whose square does not underflow

    A float is [square_safe] when it is zero, infinite, NaN, or finite of
    magnitude at least [2^-536]: its square is then at least twice the
    least positive float64, so that neither the square nor a float64 next
    to it is zero.  The perimeter of a region is zero or at least one. *)
Definition square_safe (p : float) : Prop :=
  match p with
  | S754_finite _ m e => -535 ≤ Zdigits2 (Zpos m) + e
  | _ => True
  end.

(** ** The table, as the specification describes it *)

(** The number of distinct positive labels of a label image. *)
Definition num_labels (Label : list (list Z)) : nat :=
  length (remove_dups (filter (λ v, 0 < v) (mjoin Label))).

Definition scalar_names : list string :=
  ["X"; "Y"; "Area"; "Perimeter"; "Eccentricity"; "Circularity";
   "MajorAxisLength"; "MinorAxisLength"; "Extent"; "Solidity"].

Definition FSD_names (Fs : nat) : list string :=
  (λ i, "FSD" +:+ pretty (i + 1)%nat) <$> seq 0 Fs.

Definition group_names (Names : list string) : list string :=
  Names ≫= λ name, ["Hematoxylin" +:+ name; "Cytoplasm" +:+ name].

(** The names that do not depend on [Fs]. *)
Definition fixed_names : list string :=
  scalar_names ++ group_names TextureNames ++ group_names GradientNames ++
  group_names IntensityNames.

(** The names of the columns, in order. *)
Definition column_names (Fs : nat) : list string :=
  scalar_names ++ FSD_names Fs ++
  (group_names TextureNames ++ group_names GradientNames ++
   group_names IntensityNames).

(** ** Runs without an error *)

(** A vector can be assigned to a row of width [w] when it has [w] entries
    or a single one. *)
Definition fits (w : nat) (v : list float) : Prop :=
  length v = w ∨ length v = 1%nat.

(** A feature routine returns, and a vector that its row accepts. *)
Definition returns_fitting (w : nat) (r : option (list float)) : Prop :=
  ∃ v, r = Some v ∧ fits w v.

(** Entry [k] of a vector as a row stores it: its value at [k], or its only
    value. *)
Definition entry (k : nat) (v : list float) (x : float) : Prop :=
  v !! k = Some x ∨ v = [x].

(** The image-wide fields are computed: the gradient magnitudes and the
    edge maps of the two intensity images. *)
Definition fields_computed `{Collaborators} (In Ic : list (list float))
    (diffGn : list (list float)) (BW_cannyn : list (list bool))
    (diffGc : list (list float)) (BW_cannyc : list (list bool)) : Prop :=
  gradient_magnitude In = Some diffGn ∧ canny In = Some BW_cannyn ∧
  gradient_magnitude Ic = Some diffGc ∧ canny Ic = Some BW_cannyc.

(** The iteration for a region runs: the seven feature computations return
    vectors that fit their rows, and the dilation has a footprint. *)
Definition region_runs `{Collaborators} (Label : list (list Z))
    (In Ic : list (list float)) (K : Z) (Fs : nat) (Delta : Z)
    (diffGn : list (list float)) (BW_cannyn : list (list bool))
    (diffGc : list (list float)) (BW_cannyc : list (list bool))
    (reg : RegionProperties) : Prop :=
  returns_fitting Fs (ComputeFSDs (Nucleus Label Delta reg) K Fs) ∧
  returns_fitting 4 (ComputeTextureFeatures In (coords reg)) ∧
  returns_fitting 8 (ComputeGradientFeatures In (coords reg) diffGn BW_cannyn) ∧
  returns_fitting 5 (ComputeIntensityFeatures In (coords reg)) ∧
  0 ≤ Delta ∧
  returns_fitting 4 (ComputeTextureFeatures Ic (regionCoords Label Delta reg)) ∧
  returns_fitting 8
    (ComputeGradientFeatures Ic (regionCoords Label Delta reg)
       diffGc BW_cannyc) ∧
  returns_fitting 5 (ComputeIntensityFeatures Ic (regionCoords Label Delta reg)).

(** ** Two runs

    Two implementations of the collaborators return the same values for
    the calls of a run: the measurements of the labels of the image, the
    power of the perimeters, the fields of the two intensity images and,
    for every region, the seven feature computations on its masks and
    pixels. *)
Definition agree_on_run (C C' : Collaborators) (Label : list (list Z))
    (In Ic : list (list float)) (K : Z) (Fs : nat) (Delta : Z) : Prop :=
  (∀ l, l ∈ region_labels Label →
     @region_measurements C Label l = @region_measurements C' Label l) ∧
  (@np_gradient C In = @np_gradient C' In ∧
   @np_gradient C Ic = @np_gradient C' Ic ∧
   @canny C In = @canny C' In ∧ @canny C Ic = @canny C' Ic) ∧
  (∀ reg, reg ∈ @regionprops C Label →
     @np_power2 C (perimeter reg) = @np_power2 C' (perimeter reg) ∧
     @ComputeFSDs C (Nucleus Label Delta reg) K Fs =
       @ComputeFSDs C' (Nucleus Label Delta reg) K Fs ∧
     (@ComputeTextureFeatures C In (coords reg) =
        @ComputeTextureFeatures C' In (coords reg) ∧
      @ComputeIntensityFeatures C In (coords reg) =
        @ComputeIntensityFeatures C' In (coords reg) ∧
      ∀ diffGn BW_cannyn,
        @gradient_magnitude C In = Some diffGn → @canny C In = Some BW_cannyn →
        @ComputeGradientFeatures C In (coords reg) diffGn BW_cannyn =
          @ComputeGradientFeatures C' In (coords reg) diffGn BW_cannyn) ∧
     (@ComputeTextureFeatures C Ic (regionCoords Label Delta reg) =
        @ComputeTextureFeatures C' Ic (regionCoords Label Delta reg) ∧
      @ComputeIntensityFeatures C Ic (regionCoords Label Delta reg) =
        @ComputeIntensityFeatures C' Ic (regionCoords Label Delta reg) ∧
      ∀ diffGc BW_cannyc,
        @gradient_magnitude C Ic = Some diffGc → @canny C Ic = Some BW_cannyc →
        @ComputeGradientFeatures C Ic (regionCoords Label Delta reg)
          diffGc BW_cannyc =
          @ComputeGradientFeatures C' Ic (regionCoords Label Delta reg)
            diffGc BW_cannyc)).

(** ** Invariants of the loops *)

(** An array of [n] rows of width [w]. *)
Definition matrix (n w : nat) (M : list (list float)) : Prop :=
  length M = n ∧ Forall (λ row, length row = w) M.

(** The state before iteration [i] of the loop over the regions: every
    array keeps the shape it was allocated with, and the region index
    follows the loop index. *)
Definition filled (num Fs i : nat) (st : Features) : Prop :=
  (length (CentroidX st) = num ∧ length (CentroidY st) = num ∧
   length (Area st) = num ∧ length (Perimeter st) = num ∧
   length (Eccentricity st) = num ∧ length (Circularity st) = num ∧
   length (MajorAxisLength st) = num ∧ length (MinorAxisLength st) = num ∧
   length (Extent st) = num ∧ length (Solidity st) = num) ∧
  (matrix num Fs (FSDGroup st) ∧
   matrix num 4 (HematoxylinTextureGroup st) ∧
   matrix num 4 (EosinTextureGroup st) ∧
   matrix num 8 (HematoxylinGradientGroup st) ∧
   matrix num 8 (EosinGradientGroup st) ∧
   matrix num 5 (HematoxylinIntensityGroup st) ∧
   matrix num 5 (EosinIntensityGroup st)) ∧
  regionIdx st = i.

(** Assigning a list of columns to a data frame, in order. *)
Fixpoint assign_all (cols : list (string * list float)) (df : DataFrame)
  : option DataFrame :=
  match cols with
  | [] => Some df
  | c :: rest => df' ← df_setitem df c.1 c.2; assign_all rest df'
  end.

(** The columns that the table gets from the filled arrays, in order. *)
Definition FSD_columns (Fs : nat) (M : list (list float))
  : list (string * list float) :=
  (λ i, ("FSD" +:+ pretty (i + 1)%nat, default [] (column M i))) <$> seq 0 Fs.

Definition group_columns (Names : list string) (H E : list (list float))
  : list (string * list float) :=
  seq 0 (length Names) ≫= λ i,
    [("Hematoxylin" +:+ default "" (Names !! i), default [] (column H i));
     ("Cytoplasm" +:+ default "" (Names !! i), default [] (column E i))].

Definition table_columns (Fs : nat) (st : Features) : list (string * list float) :=
  scalar_columns st ++ FSD_columns Fs (FSDGroup st) ++
  (group_columns TextureNames
     (HematoxylinTextureGroup st) (EosinTextureGroup st) ++
   group_columns GradientNames
     (HematoxylinGradientGroup st) (EosinGradientGroup st) ++
   group_columns IntensityNames
     (HematoxylinIntensityGroup st) (EosinIntensityGroup st)).

(** An image without labels, intensity images of the size of
    [adjacent_regions] and of [blank_image], and an intensity image of a
    single row. *)
Definition blank_image : list (list Z) := [[0; 0; 0]; [0; 0; 0]].

Definition flat_intensity : list (list float) :=
  Array.map2d (λ _, fzero) adjacent_regions.

Definition single_row_intensity : list (list float) :=
  [[fzero; fzero; fzero]].

Definition blank_intensity : list (list float) :=
  Array.map2d (λ _, fzero) blank_image.

(** A 2 x 2 image of the value 4. *)
Definition level_intensity : list (list float) :=
  [[four; four]; [four; four]].

(** An edge map without edges, for [flat_intensity]. *)
Definition no_edges : list (list bool) :=
  Array.map2d (λ _, false) adjacent_regions.

(** ** The arrays during and after the loop over the regions *)

Section LoopState.
Context `{Collaborators}.
Variable Label : list (list Z).
Variables In Ic : list (list float).
Variable K : Z.
Variable Fs : nat.
Variable Delta : Z.
Variable diffGn : list (list float).
Variable BW_cannyn : list (list bool).
Variable diffGc : list (list float).
Variable BW_cannyc : list (list bool).
Variable regions : list RegionProperties.

(** The row that [a[i, :] = v] stores for the result of a feature
    computation. *)
Definition stored_row (w : nat) (r : option (list float)) : list float :=
  default (zeros w) (r ≫= broadcast w).

(** The rows of a region: of its nucleus pixels in the nucleus channel,
    and of its cytoplasm pixels in the cytoplasm channel. *)
Definition FSD_of (reg : RegionProperties) : list float :=
  stored_row Fs (ComputeFSDs (Nucleus Label Delta reg) K Fs).
Definition nucleus_texture (reg : RegionProperties) : list float :=
  stored_row 4 (ComputeTextureFeatures In (coords reg)).
Definition nucleus_gradient (reg : RegionProperties) : list float :=
  stored_row 8 (ComputeGradientFeatures In (coords reg) diffGn BW_cannyn).
Definition nucleus_intensity (reg : RegionProperties) : list float :=
  stored_row 5 (ComputeIntensityFeatures In (coords reg)).
Definition cytoplasm_texture (reg : RegionProperties) : list float :=
  stored_row 4 (ComputeTextureFeatures Ic (regionCoords Label Delta reg)).
Definition cytoplasm_gradient (reg : RegionProperties) : list float :=
  stored_row 8
    (ComputeGradientFeatures Ic (regionCoords Label Delta reg)
       diffGc BW_cannyc).
Definition cytoplasm_intensity (reg : RegionProperties) : list float :=
  stored_row 5 (ComputeIntensityFeatures Ic (regionCoords Label Delta reg)).

(** An array that holds the value of [f] for the first [i] regions and
    still its [old] content for the others. *)
Definition filled_from {A} (old : list A) (f : RegionProperties → A) (i : nat)
  : list A :=
  (f <$> take i regions) ++ drop i old.

(** The state of the loop after [i] iterations that started from the
    arrays of [st0]. *)
Definition state_from (st0 : Features) (i : nat) : Features :=
  {| CentroidX := filled_from (CentroidX st0) (λ reg, (centroid reg).1) i;
     CentroidY := filled_from (CentroidY st0) (λ reg, (centroid reg).2) i;
     Area := filled_from (Area st0) area i;
     Perimeter := filled_from (Perimeter st0) perimeter i;
     Eccentricity := filled_from (Eccentricity st0) eccentricity i;
     Circularity :=
       filled_from (Circularity st0)
         (λ reg, Circularity_with np_power2 (area reg) (perimeter reg)) i;
     MajorAxisLength := filled_from (MajorAxisLength st0) major_axis_length i;
     MinorAxisLength := filled_from (MinorAxisLength st0) minor_axis_length i;
     Extent := filled_from (Extent st0) extent i;
     Solidity := filled_from (Solidity st0) solidity i;
     FSDGroup := filled_from (FSDGroup st0) FSD_of i;
     HematoxylinTextureGroup :=
       filled_from (HematoxylinTextureGroup st0) nucleus_texture i;
     EosinTextureGroup :=
       filled_from (EosinTextureGroup st0) cytoplasm_texture i;
     HematoxylinGradientGroup :=
       filled_from (HematoxylinGradientGroup st0) nucleus_gradient i;
     EosinGradientGroup :=
       filled_from (EosinGradientGroup st0) cytoplasm_gradient i;
     HematoxylinIntensityGroup :=
       filled_from (HematoxylinIntensityGroup st0) nucleus_intensity i;
     EosinIntensityGroup :=
       filled_from (EosinIntensityGroup st0) cytoplasm_intensity i;
     regionIdx := i |}.
End LoopState.

(** The table that holds, for every region in order, its measurements, its
    circularity and the rows of its feature vectors. *)
Definition feature_table `{Collaborators} (Label : list (list Z))
    (In Ic : list (list float)) (K : Z) (Fs : nat) (Delta : Z)
    (diffGn : list (list float)) (BW_cannyn : list (list bool))
    (diffGc : list (list float)) (BW_cannyc : list (list bool)) : DataFrame :=
  let regions := regionprops Label in
  table_columns Fs
    (state_from Label In Ic K Fs Delta diffGn BW_cannyn diffGc BW_cannyc
       regions (initial Fs (length regions)) (length regions)).

(** The table for the sample image, as the extraction computes it with
    the counting collaborators. *)
Definition sample_table : DataFrame :=
  Eval vm_compute in
    default [] (@FeatureExtraction counting_collaborators
                  adjacent_regions flat_intensity flat_intensity 128 6 2).

(** ** Shapes and orders *)

(** A two-dimensional array of [h] rows of [w] entries. *)
Definition has_shape {A} (h w : nat) (a : list (list A)) : Prop :=
  length a = h ∧ Forall (λ row, length row = w) a.

(** The order of [np.argwhere]: by row, then by column. *)
Definition row_major (p q : Z * Z) : Prop :=
  p.1 < q.1 ∨ (p.1 = q.1 ∧ p.2 < q.2).

(** ** Signs of floats *)

(** A float that is not NaN and whose sign bit is clear: [+0.0], a
    positive number or [+inf]. *)
Definition sign_clear (x : float) : Prop :=
  match x with
  | S754_nan => False
  | S754_zero s | S754_infinity s | S754_finite s _ _ => s = false
  end.

(** One entry of [np.sqrt(Gx**2 + Gy**2)]. *)
Definition magnitude (gx gy : float) : float :=
  fsqrt (fadd (fmul gx gx) (fmul gy gy)).
Module ArrayFacts.
Import Array.

Lemma slice_lookup_Some {A} (start stop : Z) (l : list A) (k : nat) (v : A) :
  0 ≤ start →
  slice start stop l !! k = Some v ↔
    l !! (Z.to_nat start + k)%nat = Some v ∧
    start + Z.of_nat k < slice_index (Z.of_nat (length l)) stop.
Proof.
  intros Hs. unfold slice.
  set (b := slice_index _ stop).
  unfold slice_index at 1 2. rewrite !bool_decide_eq_false_2 by lia.
  rewrite lookup_take, lookup_drop. case_decide as Hd.
  - split.
    + intros Hv. pose proof (lookup_lt_Some _ _ _ Hv) as Hlt.
      replace (Z.to_nat (start `min` Z.of_nat (length l))) with (Z.to_nat start) in Hv by lia.
      split; [done | lia].
    + intros [Hv Hb]. pose proof (lookup_lt_Some _ _ _ Hv) as Hlt.
      by replace (Z.to_nat (start `min` Z.of_nat (length l))) with (Z.to_nat start) by lia.
  - split; [done |]. intros [Hv Hb].
    pose proof (lookup_lt_Some _ _ _ Hv) as Hlt. lia.
Qed.

Lemma slice_index_le (len i : Z) : 0 ≤ len → slice_index len i ≤ len.
Proof. unfold slice_index. case_bool_decide; lia. Qed.

Lemma slice_index_nonneg (len i : Z) : 0 ≤ i → 0 ≤ len →
  slice_index len i = Z.min i len.
Proof. intros. unfold slice_index. by rewrite bool_decide_eq_false_2 by lia. Qed.

Lemma slice_index_clipped (len i : Z) :
  i ≤ len - 1 → slice_index len i ≤ Z.max 0 (len - 1).
Proof. unfold slice_index. case_bool_decide; lia. Qed.

Lemma get_Some {A} (a : list (list A)) (r c : Z) (v : A) :
  get a r c = Some v ↔
  0 ≤ r ∧ 0 ≤ c ∧ ∃ row, a !! Z.to_nat r = Some row ∧ row !! Z.to_nat c = Some v.
Proof.
  unfold get. case_bool_decide.
  - destruct (a !! Z.to_nat r) as [row|] eqn:Hrow; simpl.
    + split; [intros ?; split_and!; [lia | lia | eauto]
             | intros (_ & _ & row' & [= <-] & ?); done].
    + split; [done | intros (_ & _ & row' & ? & ?); done].
  - split; [done | intros (? & ? & _); lia].
Qed.

Lemma get_nat {A} (a : list (list A)) (i j : nat) :
  get a (Z.of_nat i) (Z.of_nat j) = a !! i ≫= λ row, row !! j.
Proof.
  unfold get. rewrite bool_decide_eq_true_2 by lia. by rewrite !Nat2Z.id.
Qed.

Lemma get_map2d {A B} (f : A → B) (a : list (list A)) (r c : Z) :
  get (map2d f a) r c = f <$> get a r c.
Proof.
  unfold get, map2d. case_bool_decide; [|done].
  rewrite list_lookup_fmap. destruct (a !! Z.to_nat r) as [row|]; [|done].
  simpl. by rewrite list_lookup_fmap.
Qed.

Lemma get_rectangular {A} (a : list (list A)) (r c : Z) (v : A) :
  rectangular a → get a r c = Some v →
  0 ≤ r < shape0 a ∧ 0 ≤ c < shape1 a.
Proof.
  intros Hrect (Hr & Hc & row & Hrow & Hv)%get_Some.
  pose proof (lookup_lt_Some _ _ _ Hrow). pose proof (lookup_lt_Some _ _ _ Hv).
  unfold rectangular in Hrect. rewrite Forall_forall in Hrect.
  specialize (Hrect row (list_elem_of_lookup_2 _ _ _ Hrow)).
  unfold shape0. lia.
Qed.

(** A pixel of a slice is the pixel of the array at the shifted position,
    below the normalised stops. *)
Lemma get_slice2_Some {A} (r0 r1 c0 c1 : Z) (a : list (list A)) (i j : Z) (v : A) :
  rectangular a → 0 ≤ r0 → 0 ≤ c0 →
  get (slice2 r0 r1 c0 c1 a) i j = Some v ↔
    0 ≤ i ∧ 0 ≤ j ∧ get a (r0 + i) (c0 + j) = Some v ∧
    r0 + i < slice_index (shape0 a) r1 ∧ c0 + j < slice_index (shape1 a) c1.
Proof.
  intros Hrect Hr0 Hc0. rewrite !get_Some. unfold slice2. split.
  - intros (Hi & Hj & row & Hrow & Hv).
    apply list_lookup_fmap_Some in Hrow as (row' & -> & Hrow').
    apply slice_lookup_Some in Hrow' as [Hrow' Hi']; [|done].
    apply slice_lookup_Some in Hv as [Hv Hj']; [|done].
    unfold rectangular in Hrect. rewrite Forall_forall in Hrect.
    specialize (Hrect row' (list_elem_of_lookup_2 _ _ _ Hrow')).
    rewrite Hrect in Hj'. rewrite Z2Nat.id in Hi', Hj' by done.
    repeat split; try done; try lia.
    exists row'. replace (Z.to_nat (r0 + i)) with (Z.to_nat r0 + Z.to_nat i)%nat by lia.
    replace (Z.to_nat (c0 + j)) with (Z.to_nat c0 + Z.to_nat j)%nat by lia. done.
  - intros (Hi & Hj & (_ & _ & row & Hrow & Hv) & Hi' & Hj').
    repeat split; try done.
    unfold rectangular in Hrect. rewrite Forall_forall in Hrect.
    specialize (Hrect row (list_elem_of_lookup_2 _ _ _ Hrow)).
    exists (slice c0 c1 row). split.
    + apply list_lookup_fmap_Some. exists row. split; [done|].
      apply slice_lookup_Some; [done|]. rewrite Z2Nat.id by done. split; [|done].
      by replace (Z.to_nat r0 + Z.to_nat i)%nat with (Z.to_nat (r0 + i)) by lia.
    + apply slice_lookup_Some; [done|]. rewrite Z2Nat.id, Hrect by done. split; [|done].
      by replace (Z.to_nat c0 + Z.to_nat j)%nat with (Z.to_nat (c0 + j)) by lia.
Qed.

Lemma elem_of_where_true (row : list bool) (j : nat) :
  j ∈ where_true row ↔ row !! j = Some true.
Proof.
  unfold where_true. rewrite list_elem_of_fmap. split.
  - intros ([j' b] & -> & [Hb Hin]%list_elem_of_filter). simpl in *. subst b.
    apply list_elem_of_lookup in Hin as [k Hk].
    apply list_lookup_imap_Some in Hk as (y & Hy & [= -> ->]). done.
  - intros Hj. exists (j, true). split; [done|].
    apply list_elem_of_filter. split; [done|].
    apply list_elem_of_lookup. exists j. apply list_lookup_imap_Some. eauto.
Qed.

Lemma elem_of_argwhere (a : list (list bool)) (r c : Z) :
  (r, c) ∈ argwhere a ↔ get a r c = Some true.
Proof.
  unfold argwhere. rewrite list_elem_of_join, get_Some. split.
  - intros (l & Hin & Hl). apply list_elem_of_lookup in Hl as [i Hi].
    apply list_lookup_imap_Some in Hi as (row & Hrow & ->).
    apply list_elem_of_fmap in Hin as (j & [= -> ->] & Hj).
    apply elem_of_where_true in Hj. rewrite !Nat2Z.id.
    repeat split; try lia. eauto.
  - intros (Hr & Hc & row & Hrow & Hv).
    exists ((λ j : nat, (Z.of_nat (Z.to_nat r), Z.of_nat j)) <$> where_true row). split.
    + apply list_elem_of_fmap. exists (Z.to_nat c). split; [f_equal; lia|].
      by apply elem_of_where_true.
    + apply list_elem_of_lookup. exists (Z.to_nat r).
      apply list_lookup_imap_Some. eauto.
Qed.
End ArrayFacts.

Section MorphologyFacts.
Import Array ArrayFacts.

Lemma list_or_true (l : list bool) : list_or l = true ↔ true ∈ l.
Proof.
  induction l as [|b l IH]; simpl.
  - split; [done | by intros ?%elem_of_nil].
  - rewrite orb_true_iff, IH, elem_of_cons. by split; intros [?|?]; auto.
Qed.

Lemma list_or_imap_true {A} (f : nat → A → bool) (l : list A) :
  list_or (imap f l) = true ↔ ∃ k x, l !! k = Some x ∧ f k x = true.
Proof.
  rewrite list_or_true, list_elem_of_lookup. split.
  - intros (k & (x & Hx & Hf)%list_lookup_imap_Some). eauto.
  - intros (k & x & Hx & Hf). exists k. apply list_lookup_imap_Some. eauto.
Qed.

Lemma get_dilation_is_Some (image footprint : list (list bool)) (i j : Z) :
  is_Some (get (dilation image footprint) i j) ↔ is_Some (get image i j).
Proof.
  unfold get, dilation. case_bool_decide; [|done].
  rewrite list_lookup_imap. destruct (image !! Z.to_nat i) as [row|]; simpl; [|done].
  rewrite list_lookup_imap. by rewrite fmap_is_Some.
Qed.

Lemma get_dilation_true (image footprint : list (list bool)) (i j : Z) :
  get (dilation image footprint) i j = Some true ↔
    is_Some (get image i j) ∧
    ∃ a b : nat,
      get footprint (Z.of_nat a) (Z.of_nat b) = Some true ∧
      get image (i + (Z.of_nat a - shape0 footprint `div` 2))
                (j + (Z.of_nat b - shape1 footprint `div` 2)) = Some true.
Proof.
  unfold dilation. rewrite get_Some. split.
  - intros (Hi & Hj & row & Hrow & Hv).
    apply list_lookup_imap_Some in Hrow as (irow & Hirow & ->).
    apply list_lookup_imap_Some in Hv as (v & Hv & Hor).
    split. { exists v. apply get_Some. eauto. }
    symmetry in Hor. apply list_or_imap_true in Hor as (a & frow & Hfrow & Hor).
    apply list_or_imap_true in Hor as (b & f & Hf & Hor).
    apply andb_true_iff in Hor as [-> Him].
    exists a, b. rewrite !Z2Nat.id in Him by done. split.
    + apply get_Some. rewrite !Nat2Z.id. repeat split; try lia. eauto.
    + destruct (get image _ _) as [[]|]; done.
  - intros ([v Hv] & a & b & Hf & Him).
    apply get_Some in Hv as (Hi & Hj & irow & Hirow & Hv).
    apply get_Some in Hf as (_ & _ & frow & Hfrow & Hf). rewrite !Nat2Z.id in *.
    repeat split; try done. eexists. split.
    + apply list_lookup_imap_Some. eauto.
    + apply list_lookup_imap_Some. exists v. split; [done|].
      symmetry. apply list_or_imap_true. exists a, frow. split; [done|].
      apply list_or_imap_true. exists b, true. split; [done|].
      rewrite !Z2Nat.id by done. by rewrite Him.
Qed.

Lemma disk_centre (radius : Z) : (2 * radius + 1) `div` 2 = radius.
Proof. symmetry. apply (Z.div_unique_pos _ 2 radius 1); lia. Qed.

Lemma square_le_bound (d e r : Z) :
  0 ≤ r → d * d + e * e ≤ r * r → - r ≤ d ≤ r.
Proof.
  intros Hr Hle. assert (0 ≤ e * e) by nia.
  split; apply Z.nlt_ge; intros Hlt; nia.
Qed.

Lemma disk_nil (radius : Z) : radius < 0 → disk radius = [].
Proof.
  intros. unfold disk, arange, seqZ. by replace (Z.to_nat _) with 0%nat by lia.
Qed.

Lemma shape_disk (radius : Z) :
  0 ≤ radius →
  shape0 (disk radius) = 2 * radius + 1 ∧ shape1 (disk radius) = 2 * radius + 1.
Proof.
  intros Hr. unfold disk, shape0, arange.
  rewrite length_fmap, length_seqZ. split; [lia|].
  unfold shape1. destruct (seqZ _ _) as [|y L] eqn:HL.
  - apply (f_equal length) in HL. rewrite length_seqZ in HL. simpl in HL. lia.
  - rewrite fmap_cons, length_fmap, <- HL, length_seqZ. lia.
Qed.

Lemma get_disk (radius : Z) (a b : Z) :
  get (disk radius) a b = Some true ↔
    (0 ≤ a ≤ 2 * radius) ∧ (0 ≤ b ≤ 2 * radius) ∧
    in_disk radius (a - radius) (b - radius).
Proof.
  unfold disk, arange, in_disk. rewrite get_Some. split.
  - intros (Ha & Hb & row & Hrow & Hv).
    apply list_lookup_fmap_Some in Hrow as (y & -> & Hy).
    apply list_lookup_fmap_Some in Hv as (x & Hv & Hx).
    apply lookup_seqZ in Hy as [-> Hy]. apply lookup_seqZ in Hx as [-> Hx].
    symmetry in Hv. apply bool_decide_eq_true in Hv.
    rewrite !Z2Nat.id in * by done. repeat split; try lia.
  - intros ([Ha Ha'] & [Hb Hb'] & Hr & Hle). repeat split; try done.
    eexists. split.
    + apply list_lookup_fmap_Some. eexists. split; [done|].
      apply lookup_seqZ. split; [done | lia].
    + apply list_lookup_fmap_Some. eexists. split; [|apply lookup_seqZ; split; [done|lia]].
      symmetry. apply bool_decide_eq_true. rewrite !Z2Nat.id by done. lia.
Qed.

(** Dilation by a disk: a pixel of the array is set when a set pixel of
    the array lies within the radius. *)
Lemma get_dilation_disk (image : list (list bool)) (radius i j : Z) :
  get (dilation image (disk radius)) i j = Some true ↔
    is_Some (get image i j) ∧
    ∃ i' j', get image i' j' = Some true ∧ in_disk radius (i - i') (j - j').
Proof.
  rewrite get_dilation_true. split.
  - intros (Hsome & a & b & Hf & Him). split; [done|].
    apply get_disk in Hf as (Ha & Hb & Hr & Hle).
    destruct (shape_disk radius Hr) as [E0 E1]. rewrite E0, E1 in Him.
    rewrite disk_centre in Him.
    eexists _, _. split; [exact Him|]. split; [done|].
    replace (i - _) with (- (Z.of_nat a - radius)) by lia.
    replace (j - _) with (- (Z.of_nat b - radius)) by lia. lia.
  - intros (Hsome & i' & j' & Him & Hr & Hle). split; [done|].
    destruct (shape_disk radius Hr) as [E0 E1].
    assert (- radius ≤ i - i' ≤ radius) by (by eapply square_le_bound).
    assert (- radius ≤ j - j' ≤ radius)
      by (eapply square_le_bound; [done | by rewrite Z.add_comm]).
    exists (Z.to_nat (i' - i + radius)), (Z.to_nat (j' - j + radius)).
    rewrite E0, E1.
    rewrite disk_centre.
    rewrite !Z2Nat.id by lia. split.
    + apply get_disk. repeat split; try lia.
    + by replace (i + _) with i' by lia; replace (j + _) with j' by lia.
Qed.
End MorphologyFacts.

Section MaskFacts.
Import Array ArrayFacts.
Variable Label : list (list Z).
Variable Delta : Z.
Variable reg : RegionProperties.
Hypothesis Hrect : rectangular Label.

Lemma min_row_nonneg : 0 ≤ min_row Label Delta reg.
Proof.
  unfold min_row, bounds, GetBounds. destruct (bbox reg) as [[[??]?]?]. simpl. lia.
Qed.

Lemma min_col_nonneg : 0 ≤ min_col Label Delta reg.
Proof.
  unfold min_col, bounds, GetBounds. destruct (bbox reg) as [[[??]?]?]. simpl. lia.
Qed.

Lemma max_row_clipped : max_row Label Delta reg ≤ shape0 Label - 1.
Proof.
  unfold max_row, bounds, GetBounds. destruct (bbox reg) as [[[??]?]?]. simpl. lia.
Qed.

Lemma max_col_clipped : max_col Label Delta reg ≤ shape1 Label - 1.
Proof.
  unfold max_col, bounds, GetBounds. destruct (bbox reg) as [[[??]?]?]. simpl. lia.
Qed.

(** The window holds the pixels of the image that [in_window] selects. *)
Lemma get_window (i j v : Z) :
  get (window Label Delta reg) i j = Some v ↔
    0 ≤ i ∧ 0 ≤ j ∧
    in_window Label Delta reg (min_row Label Delta reg + i) (min_col Label Delta reg + j) ∧
    get Label (min_row Label Delta reg + i) (min_col Label Delta reg + j) = Some v.
Proof.
  unfold window, in_window, row_stop, col_stop.
  rewrite get_slice2_Some by auto using min_row_nonneg, min_col_nonneg.
  pose proof min_row_nonneg. pose proof min_col_nonneg. intuition lia.
Qed.

Lemma in_window_get (r c : Z) :
  in_window Label Delta reg r c → is_Some (get Label r c).
Proof.
  intros [[Hr Hr'] [Hc Hc']]. pose proof min_row_nonneg. pose proof min_col_nonneg.
  unfold row_stop in Hr'. unfold col_stop in Hc'.
  pose proof (slice_index_le (shape0 Label) (max_row Label Delta reg)) as Hle0.
  pose proof (slice_index_le (shape1 Label) (max_col Label Delta reg)) as Hle1.
  assert (0 ≤ shape0 Label) by (unfold shape0; lia).
  assert (0 ≤ shape1 Label) by (unfold shape1; destruct Label; lia).
  destruct (lookup_lt_is_Some_2 Label (Z.to_nat r)) as [row Hrow].
  { unfold shape0 in *. lia. }
  unfold rectangular in Hrect. rewrite Forall_forall in Hrect.
  pose proof (Hrect row (list_elem_of_lookup_2 _ _ _ Hrow)) as Hlen.
  destruct (lookup_lt_is_Some_2 row (Z.to_nat c)) as [v Hv]; [lia|].
  exists v. apply get_Some. split_and!; [lia | lia | eauto].
Qed.

Lemma get_window_in (r c : Z) :
  in_window Label Delta reg r c →
  get (window Label Delta reg) (r - min_row Label Delta reg) (c - min_col Label Delta reg)
    = get Label r c.
Proof.
  intros Hin. destruct (in_window_get r c Hin) as [v Hv]. rewrite Hv.
  apply get_window. destruct Hin as [[??] [??]].
  replace (min_row Label Delta reg + (r - min_row Label Delta reg)) with r by lia.
  replace (min_col Label Delta reg + (c - min_col Label Delta reg)) with c by lia.
  split_and!; try done; lia.
Qed.

Lemma get_Nucleus_true (i j : Z) :
  get (Nucleus Label Delta reg) i j = Some true ↔
    0 ≤ i ∧ 0 ≤ j ∧
    NucleusMask Label Delta reg (min_row Label Delta reg + i) (min_col Label Delta reg + j).
Proof.
  unfold Nucleus, NucleusMask. rewrite get_map2d, fmap_Some. split.
  - intros (v & (Hi & Hj & Hin & Hv)%get_window & Heq).
    symmetry in Heq. apply bool_decide_eq_true in Heq. by subst v.
  - intros (Hi & Hj & Hin & Hv). exists (label reg). split.
    + by apply get_window.
    + symmetry. by apply bool_decide_eq_true.
Qed.

Lemma uint8_truth (v : Z) :
  bool_decide ((if bool_decide (v > 0) then 1 else 0) ≠ 0) = bool_decide (0 < v).
Proof. repeat case_bool_decide; done || lia. Qed.

(** The membership of a pixel in the computed cytoplasm coordinates, read
    off the arrays. *)
Lemma CytoplasmMask_arrays (r c : Z) :
  CytoplasmMask Label Delta reg r c ↔
    in_window Label Delta reg r c ∧
    ∃ v d, get Label r c = Some v ∧
           get (dilation (Nucleus Label Delta reg) (Disk Delta))
             (r - min_row Label Delta reg) (c - min_col Label Delta reg) = Some d ∧
           xorb (bool_decide (0 < v)) d = true.
Proof.
  unfold CytoplasmMask, regionCoords. rewrite list_elem_of_fmap. split.
  - intros ([i j] & [= -> ->] & Hin%elem_of_argwhere). simpl.
    replace (i + _ - _) with i by lia. replace (j + _ - _) with j by lia.
    unfold cytoplasm, logical_xor in Hin.
    apply get_Some in Hin as (Hi & Hj & row & Hrow & Hv).
    rewrite lookup_zip_with in Hrow.
    destruct (Mask Label Delta reg !! Z.to_nat i) as [mrow|] eqn:Hmrow; [|done]. simpl in Hrow.
    destruct (dilation _ _ !! Z.to_nat i) as [drow|] eqn:Hdrow; [|done].
    simpl in Hrow. injection Hrow as <-.
    rewrite lookup_zip_with in Hv.
    destruct (mrow !! Z.to_nat j) as [m|] eqn:Hm; [|done]. simpl in Hv.
    destruct (drow !! Z.to_nat j) as [d|] eqn:Hd; [|done]. simpl in Hv.
    injection Hv as Hx.
    assert (get (Mask Label Delta reg) i j = Some m) as HM by (apply get_Some; eauto).
    unfold Mask in HM. rewrite get_map2d in HM.
    apply fmap_Some in HM as (v & (_ & _ & Hin & Hv)%get_window & ->).
    rewrite (Z.add_comm i), (Z.add_comm j). split; [done|].
    exists v, d. split_and!; [done | apply get_Some; eauto |].
    by rewrite <- Hx, uint8_truth.
  - intros (Hin & v & d & Hv & Hd & Hx).
    exists (r - min_row Label Delta reg, c - min_col Label Delta reg). simpl.
    split; [f_equal; lia|]. apply elem_of_argwhere.
    pose proof (get_window_in r c Hin) as Hw. rewrite Hv in Hw.
    assert (get (Mask Label Delta reg) (r - min_row Label Delta reg) (c - min_col Label Delta reg)
            = Some (if bool_decide (v > 0) then 1 else 0)) as HM.
    { unfold Mask. by rewrite get_map2d, Hw. }
    apply get_Some in HM as (Hi & Hj & mrow & Hmrow & Hm).
    apply get_Some in Hd as (_ & _ & drow & Hdrow & Hd).
    unfold cytoplasm, logical_xor. apply get_Some. split_and!; [done..|].
    eexists. rewrite !lookup_zip_with, Hmrow, Hdrow. simpl. split; [done|].
    rewrite lookup_zip_with, Hm, Hd. simpl. by rewrite uint8_truth, Hx.
Qed.

Lemma get_dilation_window (r c : Z) :
  in_window Label Delta reg r c →
  get (dilation (Nucleus Label Delta reg) (Disk Delta))
    (r - min_row Label Delta reg) (c - min_col Label Delta reg) = Some true ↔
  DilatedNucleusMask Label Delta reg r c.
Proof.
  intros Hin. unfold Disk, DilatedNucleusMask. rewrite get_dilation_disk. split.
  - intros (_ & i' & j' & (Hi' & Hj' & HN)%get_Nucleus_true & Hdisk).
    split; [done|]. eexists _, _. split; [exact HN|].
    by replace (r - _) with (r - min_row Label Delta reg - i') by lia;
       replace (c - _) with (c - min_col Label Delta reg - j') by lia.
  - intros (_ & r' & c' & HN & Hdisk). split.
    + unfold Nucleus. rewrite get_map2d, fmap_is_Some, get_window_in by done.
      by apply in_window_get.
    + exists (r' - min_row Label Delta reg), (c' - min_col Label Delta reg).
      destruct HN as [[[??] [??]] ?]. split.
      * apply get_Nucleus_true. split_and!; [lia | lia |].
        replace (_ + (r' - _)) with r' by lia. replace (_ + (c' - _)) with c' by lia.
        by split.
      * by replace (r - _ - _) with (r - r') by lia;
           replace (c - _ - _) with (c - c') by lia.
Qed.

Lemma get_dilation_window_is_Some (r c : Z) :
  in_window Label Delta reg r c →
  is_Some (get (dilation (Nucleus Label Delta reg) (Disk Delta))
    (r - min_row Label Delta reg) (c - min_col Label Delta reg)).
Proof.
  intros Hin. apply get_dilation_is_Some. unfold Nucleus.
  rewrite get_map2d, fmap_is_Some, get_window_in by done. by apply in_window_get.
Qed.

(** The computed cytoplasm, as a set of image pixels: the pixels of the
    window that are in exactly one of the two masks. *)
Lemma CytoplasmMask_iff (r c : Z) :
  CytoplasmMask Label Delta reg r c ↔
    (AnyLabelMask Label Delta reg r c ∧ ¬ DilatedNucleusMask Label Delta reg r c) ∨
    (DilatedNucleusMask Label Delta reg r c ∧ ¬ AnyLabelMask Label Delta reg r c).
Proof.
  rewrite CytoplasmMask_arrays. split.
  - intros (Hin & v & d & Hv & Hd & Hx).
    pose proof (get_dilation_window r c Hin) as Hdil.
    destruct d; simpl in Hx.
    + right. split; [by apply Hdil|]. intros (_ & v' & Hv' & Hpos).
      rewrite Hv in Hv'. injection Hv' as <-.
      apply negb_true_iff, bool_decide_eq_false in Hx. lia.
    + left. rewrite xorb_false_r in Hx. apply bool_decide_eq_true in Hx. split.
      * split; [done|]. eauto.
      * intros Hdil'%Hdil. congruence.
  - intros [[(Hin & v & Hv & Hpos) Hnd] | [Hd Hna]].
    + split; [done|]. pose proof (get_dilation_window r c Hin) as Hdil.
      destruct (get_dilation_window_is_Some r c Hin) as [d Hd].
      exists v, d. split_and!; [done..|].
      destruct d; [by destruct Hnd; apply Hdil|].
      rewrite xorb_false_r. by apply bool_decide_eq_true.
    + pose proof Hd as [Hin _]. split; [done|].
      destruct (in_window_get r c Hin) as [v Hv].
      exists v, true. split_and!; [done | by apply get_dilation_window |].
      simpl. apply negb_true_iff, bool_decide_eq_false. intros Hpos.
      apply Hna. split; [done|]. eauto.
Qed.

Lemma CytoplasmMask_in_window (r c : Z) :
  CytoplasmMask Label Delta reg r c → in_window Label Delta reg r c.
Proof. by intros [? _]%CytoplasmMask_arrays. Qed.

Lemma NucleusCoords_iff (r c : Z) :
  (r, c) ∈ NucleusCoords Label Delta reg ↔ NucleusMask Label Delta reg r c.
Proof.
  unfold NucleusCoords. rewrite list_elem_of_fmap. split.
  - intros ([i j] & [= -> ->] & (Hi & Hj & HN)%elem_of_argwhere%get_Nucleus_true).
    simpl. by rewrite (Z.add_comm i), (Z.add_comm j).
  - intros HN. exists (r - min_row Label Delta reg, c - min_col Label Delta reg).
    simpl. split; [f_equal; lia|]. apply elem_of_argwhere, get_Nucleus_true.
    pose proof HN as [[[??] [??]] _]. split_and!; [lia | lia |].
    replace (_ + (r - _)) with r by lia. by replace (_ + (c - _)) with c by lia.
Qed.

(** A pixel of the nucleus mask is in both masks when the label is
    positive and the radius is not negative. *)
Lemma NucleusMask_in_both (r c : Z) :
  0 < label reg → 0 ≤ Delta →
  NucleusMask Label Delta reg r c →
  AnyLabelMask Label Delta reg r c ∧ DilatedNucleusMask Label Delta reg r c.
Proof.
  intros Hpos HDelta HN. pose proof HN as [Hin Hv]. split.
  - split; [done|]. eauto.
  - split; [done|]. exists r, c. split; [done|].
    unfold in_disk. rewrite !Z.sub_diag. lia.
Qed.

(** The window stops before the last row and the last column. *)
Lemma in_window_clipped (r c : Z) :
  in_window Label Delta reg r c → r < shape0 Label - 1 ∧ c < shape1 Label - 1.
Proof.
  intros [[Hr Hr'] [Hc Hc']]. pose proof min_row_nonneg. pose proof min_col_nonneg.
  pose proof (slice_index_clipped _ _ max_row_clipped).
  pose proof (slice_index_clipped _ _ max_col_clipped).
  unfold row_stop, col_stop in *. lia.
Qed.
End MaskFacts.

Section RegionFacts.
Import Array ArrayFacts.

Lemma elem_of_coords_of (Label : list (list Z)) (l r c : Z) :
  (r, c) ∈ coords_of Label l ↔ get Label r c = Some l.
Proof.
  unfold coords_of. rewrite elem_of_argwhere, get_map2d, fmap_Some. split.
  - intros (v & Hv & Heq). symmetry in Heq. apply bool_decide_eq_true in Heq. by subst.
  - intros Hv. exists l. split; [done|]. symmetry. by apply bool_decide_eq_true.
Qed.

Lemma elem_of_mjoin_get (Label : list (list Z)) (v : Z) :
  v ∈ mjoin Label ↔ ∃ r c, get Label r c = Some v.
Proof.
  rewrite list_elem_of_join. split.
  - intros (row & [j Hj]%list_elem_of_lookup & [i Hi]%list_elem_of_lookup).
    exists (Z.of_nat i), (Z.of_nat j). rewrite get_nat, Hi. done.
  - intros (r & c & (_ & _ & row & Hrow & Hv)%get_Some).
    exists row. split; by eapply list_elem_of_lookup_2.
Qed.

Lemma foldr_max_ge (x0 : Z) (l : list Z) :
  x0 ≤ foldr Z.max x0 l ∧ Forall (λ x, x ≤ foldr Z.max x0 l) l.
Proof.
  induction l as [|x l [IH1 IH2]]; simpl; [by split|]. split; [lia|].
  constructor; [lia|]. eapply Forall_impl; [exact IH2|]. simpl. lia.
Qed.

Lemma foldr_min_le (x0 : Z) (l : list Z) :
  foldr Z.min x0 l ≤ x0 ∧ Forall (λ x, foldr Z.min x0 l ≤ x) l.
Proof.
  induction l as [|x l [IH1 IH2]]; simpl; [by split|]. split; [lia|].
  constructor; [lia|]. eapply Forall_impl; [exact IH2|]. simpl. lia.
Qed.

Lemma foldr_max_elem (x0 : Z) (l : list Z) : foldr Z.max x0 l ∈ x0 :: l.
Proof.
  induction l as [|x l IH]; simpl; [by left|].
  destruct (Z.max_spec x (foldr Z.max x0 l)) as [[_ ->]|[_ ->]].
  - apply elem_of_cons in IH as [->|?]; [by left | by do 2 right].
  - right. by left.
Qed.

Lemma foldr_min_elem (x0 : Z) (l : list Z) : foldr Z.min x0 l ∈ x0 :: l.
Proof.
  induction l as [|x l IH]; simpl; [by left|].
  destruct (Z.min_spec x (foldr Z.min x0 l)) as [[_ ->]|[_ ->]].
  - right. by left.
  - apply elem_of_cons in IH as [->|?]; [by left | by do 2 right].
Qed.

(** The bounding box of a non-empty pixel list: every pixel is inside,
    and each side is attained. *)
Lemma bbox_of_spec (cs : list (Z * Z)) :
  cs ≠ [] →
  let '(r0, c0, r1, c1) := bbox_of cs in
  Forall (λ p, (r0 ≤ p.1 < r1) ∧ (c0 ≤ p.2 < c1)) cs ∧
  r0 ∈ cs.*1 ∧ r1 - 1 ∈ cs.*1 ∧ c0 ∈ cs.*2 ∧ c1 - 1 ∈ cs.*2.
Proof.
  destruct cs as [|[r c] rest]; [done|]. intros _. simpl.
  destruct (foldr_max_ge r rest.*1) as [Hr1 Hr2].
  destruct (foldr_min_le r rest.*1) as [Hr3 Hr4].
  destruct (foldr_max_ge c rest.*2) as [Hc1 Hc2].
  destruct (foldr_min_le c rest.*2) as [Hc3 Hc4].
  split_and!.
  - constructor; [simpl; lia|].
    rewrite Forall_fmap in Hr2, Hr4, Hc2, Hc4.
    rewrite Forall_forall in *. intros p Hp.
    specialize (Hr2 p Hp). specialize (Hr4 p Hp).
    specialize (Hc2 p Hp). specialize (Hc4 p Hp). simpl in *. lia.
  - apply (foldr_min_elem r rest.*1).
  - replace (_ + 1 - 1) with (foldr Z.max r rest.*1) by lia.
    apply (foldr_max_elem r rest.*1).
  - apply (foldr_min_elem c rest.*2).
  - replace (_ + 1 - 1) with (foldr Z.max c rest.*2) by lia.
    apply (foldr_max_elem c rest.*2).
Qed.

Lemma foldr_max_nonneg (l : list Z) : 0 ≤ foldr Z.max 0 l ∧ Forall (λ x, x ≤ foldr Z.max 0 l) l.
Proof. apply foldr_max_ge. Qed.

Lemma elem_of_region_labels (Label : list (list Z)) (l : Z) :
  l ∈ region_labels Label ↔ 0 < l ∧ l ∈ mjoin Label.
Proof.
  unfold region_labels, arange. rewrite list_elem_of_filter, elem_of_seqZ. split.
  - intros [? ?]. split; [lia | done].
  - intros [Hpos Hin]. split; [done|].
    destruct (foldr_max_ge 0 (mjoin Label)) as [_ Hmax].
    rewrite Forall_forall in Hmax. specialize (Hmax l Hin). unfold max_label. lia.
Qed.

Lemma NoDup_region_labels (Label : list (list Z)) : NoDup (region_labels Label).
Proof. apply NoDup_filter, NoDup_seqZ. Qed.

Context `{Collaborators}.

Lemma elem_of_regionprops (Label : list (list Z)) (reg : RegionProperties) :
  reg ∈ regionprops Label →
  label reg ∈ region_labels Label ∧
  coords reg = coords_of Label (label reg) ∧
  bbox reg = bbox_of (coords reg).
Proof. intros (l & -> & Hl)%list_elem_of_fmap. by simpl. Qed.

Lemma length_regionprops (Label : list (list Z)) :
  length (regionprops Label) = length (region_labels Label).
Proof. unfold regionprops. by rewrite length_fmap. Qed.

(** What [regionprops] guarantees about a region of a rectangular image. *)
Lemma regionprops_valid (Label : list (list Z)) (reg : RegionProperties) :
  rectangular Label → reg ∈ regionprops Label →
  let '(r0, c0, r1, c1) := bbox reg in
  0 < label reg ∧
  (0 ≤ r0 < r1 ∧ r1 ≤ shape0 Label) ∧ (0 ≤ c0 < c1 ∧ c1 ≤ shape1 Label) ∧
  (∀ r c, (r, c) ∈ coords reg ↔ get Label r c = Some (label reg)) ∧
  (∃ c, (r1 - 1, c) ∈ coords reg) ∧ (∃ r, (r, c1 - 1) ∈ coords reg).
Proof.
  intros Hrect (Hl & Hcs & Hbb)%elem_of_regionprops.
  apply elem_of_region_labels in Hl as [Hpos Hin].
  apply elem_of_mjoin_get in Hin as (r & c & Hrc).
  assert (coords reg ≠ []) as Hne.
  { rewrite Hcs. intros Hnil. apply elem_of_coords_of in Hrc.
    rewrite Hnil in Hrc. by apply elem_of_nil in Hrc. }
  assert (∀ r c, (r, c) ∈ coords reg ↔ get Label r c = Some (label reg)) as Hiff.
  { intros. rewrite Hcs. apply elem_of_coords_of. }
  pose proof (bbox_of_spec (coords reg) Hne) as Hspec. rewrite <- Hbb in Hspec.
  destruct (bbox reg) as [[[r0 c0] r1] c1].
  destruct Hspec as (Hall & Hr0 & Hr1 & Hc0 & Hc1).
  rewrite Forall_forall in Hall.
  assert (∀ p, p ∈ coords reg → (0 ≤ p.1 < shape0 Label) ∧ (0 ≤ p.2 < shape1 Label)) as Hin.
  { intros [pr pc] Hp. apply Hiff in Hp. by eapply get_rectangular. }
  apply list_elem_of_fmap in Hr0 as (p0 & -> & Hp0).
  apply list_elem_of_fmap in Hr1 as (p1 & Hp1e & Hp1).
  apply list_elem_of_fmap in Hc0 as (q0 & -> & Hq0).
  apply list_elem_of_fmap in Hc1 as (q1 & Hq1e & Hq1).
  pose proof (Hall _ Hp0). pose proof (Hin _ Hp0). pose proof (Hin _ Hp1).
  pose proof (Hall _ Hq0). pose proof (Hin _ Hq0). pose proof (Hin _ Hq1).
  split_and!; try done; try lia.
  - exists p1.2. rewrite Hp1e. by destruct p1.
  - exists q1.1. rewrite Hq1e. by destruct q1.
Qed.
End RegionFacts.

Section Claims.
Import Array ArrayFacts.
Context `{Collaborators}.

(** C1.  For every region of a (rectangular) label image, the computed
    cytoplasm pixels are exactly the pixels of the neighbourhood window
    that lie in exactly one of AnyLabelMask and DilatedNucleusMask: the
    logical XOR of the two masks, restricted to the window. *)
Theorem cytoplasm_is_xor_of_masks
    (Label : list (list Z)) (Delta : Z) (reg : RegionProperties) (r c : Z) :
  rectangular Label →
  CytoplasmMask Label Delta reg r c ↔
    in_window Label Delta reg r c ∧
    ((AnyLabelMask Label Delta reg r c ∧ ¬ DilatedNucleusMask Label Delta reg r c) ∨
     (DilatedNucleusMask Label Delta reg r c ∧ ¬ AnyLabelMask Label Delta reg r c)).
Proof.
  intros Hrect. rewrite CytoplasmMask_iff by done. split.
  - intros Hx. split; [|done]. by destruct Hx as [[[? _] _]|[[? _] _]].
  - by intros [_ ?].
Qed.

(** C2, as amended.  Every cytoplasm pixel lies in the neighbourhood
    window, and a window pixel inside the dilated footprint of the region's
    own nucleus mask is a cytoplasm pixel exactly when it belongs to no
    region (DilatedNucleusMask AND NOT AnyLabelMask). *)
Theorem cytoplasm_inside_dilated_footprint
    (Label : list (list Z)) (Delta : Z) (reg : RegionProperties) (r c : Z) :
  rectangular Label →
  (CytoplasmMask Label Delta reg r c → in_window Label Delta reg r c) ∧
  (DilatedNucleusMask Label Delta reg r c →
     (CytoplasmMask Label Delta reg r c ↔ ¬ AnyLabelMask Label Delta reg r c)).
Proof.
  intros Hrect. split; [by apply CytoplasmMask_in_window|].
  intros Hd. rewrite CytoplasmMask_iff by done. split.
  - by intros [[_ ?]|[_ ?]].
  - intros ?. by right.
Qed.

(** C5.  For every region of a label image and every [Delta ≥ 0], the
    bounds of the neighbourhood window satisfy
    [0 ≤ min_row ≤ max_row ≤ height - 1] and
    [0 ≤ min_col ≤ max_col ≤ width - 1]. *)
Theorem window_bounds_within_image
    (Label : list (list Z)) (Delta : Z) (reg : RegionProperties) :
  rectangular Label → reg ∈ regionprops Label → 0 ≤ Delta →
  (0 ≤ min_row Label Delta reg ∧
   min_row Label Delta reg ≤ max_row Label Delta reg ∧
   max_row Label Delta reg ≤ shape0 Label - 1) ∧
  (0 ≤ min_col Label Delta reg ∧
   min_col Label Delta reg ≤ max_col Label Delta reg ∧
   max_col Label Delta reg ≤ shape1 Label - 1).
Proof.
  intros Hrect Hreg HDelta.
  pose proof (regionprops_valid Label reg Hrect Hreg) as Hvalid.
  unfold min_row, max_row, min_col, max_col, bounds, GetBounds.
  destruct (bbox reg) as [[[r0 c0] r1] c1]. simpl.
  destruct Hvalid as (_ & ? & ? & _). lia.
Qed.

(** C8.  For every region and every [Delta ≥ 0], no cytoplasm pixel of
    the region is a pixel of its nucleus mask, nor any pixel of the region
    at all. *)
Theorem cytoplasm_disjoint_from_nucleus
    (Label : list (list Z)) (Delta : Z) (reg : RegionProperties) (r c : Z) :
  rectangular Label → reg ∈ regionprops Label → 0 ≤ Delta →
  CytoplasmMask Label Delta reg r c →
  ¬ NucleusMask Label Delta reg r c ∧
  ((r, c) ∉ NucleusCoords Label Delta reg) ∧
  ((r, c) ∉ coords reg).
Proof.
  intros Hrect Hreg HDelta Hcyt.
  pose proof (regionprops_valid Label reg Hrect Hreg) as Hvalid.
  destruct (bbox reg) as [[[r0 c0] r1] c1].
  destruct Hvalid as (Hpos & _ & _ & Hcoords & _).
  assert (¬ NucleusMask Label Delta reg r c) as Hnot.
  { intros HN.
    destruct (NucleusMask_in_both Label Delta reg r c Hpos HDelta HN) as [Ha Hd].
    apply CytoplasmMask_iff in Hcyt as [[_ ?]|[_ ?]]; done. }
  split_and!; [done | by rewrite NucleusCoords_iff |].
  intros Hin%Hcoords. apply Hnot. split; [|done].
  by apply CytoplasmMask_in_window.
Qed.

(** C10.  The neighbourhood window never reaches the last row or the last
    column of the image: no pixel of the window-restricted nucleus mask
    and no cytoplasm pixel lies there.  So a region whose bounding box
    touches the bottom (right) edge has a pixel in the last row (column)
    that is in neither mask. *)
Theorem window_excludes_last_row_and_column
    (Label : list (list Z)) (Delta : Z) (reg : RegionProperties) :
  rectangular Label → reg ∈ regionprops Label →
  (∀ r c, in_window Label Delta reg r c ∨ (r, c) ∈ NucleusCoords Label Delta reg ∨
          CytoplasmMask Label Delta reg r c →
          r < shape0 Label - 1 ∧ c < shape1 Label - 1) ∧
  ((bbox reg).1.2 = shape0 Label →
     ∃ c, (shape0 Label - 1, c) ∈ coords reg ∧
          ((shape0 Label - 1, c) ∉ NucleusCoords Label Delta reg) ∧
          ¬ CytoplasmMask Label Delta reg (shape0 Label - 1) c) ∧
  ((bbox reg).2 = shape1 Label →
     ∃ r, (r, shape1 Label - 1) ∈ coords reg ∧
          ((r, shape1 Label - 1) ∉ NucleusCoords Label Delta reg) ∧
          ¬ CytoplasmMask Label Delta reg r (shape1 Label - 1)).
Proof.
  intros Hrect Hreg.
  assert (∀ r c, in_window Label Delta reg r c ∨ (r, c) ∈ NucleusCoords Label Delta reg ∨
            CytoplasmMask Label Delta reg r c →
            r < shape0 Label - 1 ∧ c < shape1 Label - 1) as Hclip.
  { intros r c [Hin|[Hin|Hin]]; apply (in_window_clipped Label Delta reg).
    - done.
    - by apply NucleusCoords_iff in Hin as [? _].
    - by apply CytoplasmMask_in_window. }
  pose proof (regionprops_valid Label reg Hrect Hreg) as Hvalid.
  destruct (bbox reg) as [[[r0 c0] r1] c1]. simpl.
  destruct Hvalid as (_ & _ & _ & _ & [c Hc] & [r Hr]).
  split_and!; [done | |].
  - intros Heq. rewrite Heq in Hc. exists c. split_and!; [done | |].
    + intros Hin. specialize (Hclip _ _ (or_intror (or_introl Hin))). lia.
    + intros Hin. specialize (Hclip _ _ (or_intror (or_intror Hin))). lia.
  - intros Heq. rewrite Heq in Hr. exists r. split_and!; [done | |].
    + intros Hin. specialize (Hclip _ _ (or_intror (or_introl Hin))). lia.
    + intros Hin. specialize (Hclip _ _ (or_intror (or_intror Hin))). lia.
Qed.
End Claims.

(** Decides a goal about the window of a sample image by evaluation. *)
Ltac compute_window :=
  vm_compute;
  repeat match goal with |- _ ∧ _ => split end;
  first [reflexivity | intros ?; discriminate].

Section SampleFacts.
Import Array ArrayFacts.

Lemma rectangular_adjacent_regions : rectangular adjacent_regions.
Proof. unfold rectangular. repeat constructor. Qed.

Lemma rectangular_corner_image : rectangular corner_image.
Proof. unfold rectangular. repeat constructor. Qed.

Lemma regionprops_adjacent_regions :
  @regionprops constant_collaborators adjacent_regions = [block_region; bar_region].
Proof. vm_compute. reflexivity. Qed.

Lemma regionprops_corner_image :
  @regionprops constant_collaborators corner_image = [corner_region].
Proof. vm_compute. reflexivity. Qed.
End SampleFacts.

Lemma cytoplasm_is_xor_of_masks_witness :
  CytoplasmMask adjacent_regions 2 block_region 1 3 ↔
    in_window adjacent_regions 2 block_region 1 3 ∧
    ((AnyLabelMask adjacent_regions 2 block_region 1 3 ∧
      ¬ DilatedNucleusMask adjacent_regions 2 block_region 1 3) ∨
     (DilatedNucleusMask adjacent_regions 2 block_region 1 3 ∧
      ¬ AnyLabelMask adjacent_regions 2 block_region 1 3)).
Proof.
  apply (cytoplasm_is_xor_of_masks adjacent_regions 2 block_region 1 3).
  unfold Array.rectangular. repeat constructor.
Defined.

(** C2 fails as stated: the pixel (1, 3) of [adjacent_regions] is a
    cytoplasm pixel of the block, although it belongs to no region. *)
Lemma cytoplasm_not_set_difference :
  ¬ (CytoplasmMask adjacent_regions 2 block_region 1 3 ↔
       AnyLabelMask adjacent_regions 2 block_region 1 3 ∧
       ¬ DilatedNucleusMask adjacent_regions 2 block_region 1 3).
Proof.
  intros [Hcyt _].
  destruct Hcyt as [(_ & v & Hv & Hpos) _].
  - unfold CytoplasmMask. apply (bool_decide_unpack _). vm_compute. exact I.
  - vm_compute in Hv. assert (v = 0) as -> by congruence. lia.
Qed.

Lemma cytoplasm_inside_dilated_footprint_witness :
  (CytoplasmMask adjacent_regions 2 block_region 1 3 →
     in_window adjacent_regions 2 block_region 1 3) ∧
  (DilatedNucleusMask adjacent_regions 2 block_region 1 3 →
     (CytoplasmMask adjacent_regions 2 block_region 1 3 ↔
      ¬ AnyLabelMask adjacent_regions 2 block_region 1 3)).
Proof.
  apply (cytoplasm_inside_dilated_footprint adjacent_regions 2 block_region 1 3).
  unfold Array.rectangular. repeat constructor.
Defined.

(** C3 on the code: in [adjacent_regions] with [Delta = 2] the two regions
    touch and the pixel (1, 5) lies in both neighbourhood windows; it
    belongs to the bar, and it is a cytoplasm pixel of the block. *)
Theorem cytoplasm_includes_neighbour_nucleus :
  @regionprops constant_collaborators adjacent_regions = [block_region; bar_region] ∧
  in_window adjacent_regions 2 block_region 1 5 ∧
  in_window adjacent_regions 2 bar_region 1 5 ∧
  (1, 5) ∈ coords bar_region ∧
  Array.get adjacent_regions 1 5 = Some (label bar_region) ∧
  ¬ DilatedNucleusMask adjacent_regions 2 block_region 1 5 ∧
  CytoplasmMask adjacent_regions 2 block_region 1 5.
Proof.
  assert (CytoplasmMask adjacent_regions 2 block_region 1 5) as Hcyt.
  { unfold CytoplasmMask. apply (bool_decide_unpack _). vm_compute. exact I. }
  assert (in_window adjacent_regions 2 block_region 1 5) as Hin by compute_window.
  split; [apply regionprops_adjacent_regions|].
  split; [done|].
  split; [compute_window|].
  split; [by left|].
  split; [reflexivity|].
  split; [|done].
  intros Hd.
  apply CytoplasmMask_iff in Hcyt
    as [[_ ?]|[_ Hna]]; [done | | apply rectangular_adjacent_regions].
  apply Hna. split; [done|].
  exists 2. split; [reflexivity | lia].
Qed.

Lemma window_bounds_within_image_witness :
  (0 ≤ min_row adjacent_regions 2 block_region ∧
   min_row adjacent_regions 2 block_region ≤ max_row adjacent_regions 2 block_region ∧
   max_row adjacent_regions 2 block_region ≤ Array.shape0 adjacent_regions - 1) ∧
  (0 ≤ min_col adjacent_regions 2 block_region ∧
   min_col adjacent_regions 2 block_region ≤ max_col adjacent_regions 2 block_region ∧
   max_col adjacent_regions 2 block_region ≤ Array.shape1 adjacent_regions - 1).
Proof.
  apply (window_bounds_within_image (H:=constant_collaborators)
           adjacent_regions 2 block_region).
  - unfold Array.rectangular. repeat constructor.
  - apply (list_elem_of_lookup_2 _ 0%nat). vm_compute. reflexivity.
  - lia.
Defined.

Lemma cytoplasm_disjoint_from_nucleus_witness :
  ¬ NucleusMask adjacent_regions 2 block_region 1 3 ∧
  ((1, 3) ∉ NucleusCoords adjacent_regions 2 block_region) ∧
  ((1, 3) ∉ coords block_region).
Proof.
  apply (cytoplasm_disjoint_from_nucleus (H:=constant_collaborators)
           adjacent_regions 2 block_region 1 3).
  - unfold Array.rectangular. repeat constructor.
  - apply (list_elem_of_lookup_2 _ 0%nat). vm_compute. reflexivity.
  - lia.
  - unfold CytoplasmMask. apply (bool_decide_unpack _). vm_compute. exact I.
Defined.

Lemma window_excludes_last_row_and_column_witness :
  (∃ c, (Array.shape0 corner_image - 1, c) ∈ coords corner_region ∧
        ((Array.shape0 corner_image - 1, c) ∉ NucleusCoords corner_image 1 corner_region) ∧
        ¬ CytoplasmMask corner_image 1 corner_region (Array.shape0 corner_image - 1) c) ∧
  (∃ r, (r, Array.shape1 corner_image - 1) ∈ coords corner_region ∧
        ((r, Array.shape1 corner_image - 1) ∉ NucleusCoords corner_image 1 corner_region) ∧
        ¬ CytoplasmMask corner_image 1 corner_region r (Array.shape1 corner_image - 1)).
Proof.
  destruct (window_excludes_last_row_and_column (H:=constant_collaborators)
              corner_image 1 corner_region) as (_ & Hbottom & Hright).
  - unfold Array.rectangular. repeat constructor.
  - apply (list_elem_of_lookup_2 _ 0%nat). vm_compute. reflexivity.
  - split; [apply Hbottom | apply Hright]; reflexivity.
Defined.

Example GetBounds_rectangle : GetBounds (10, 10, 21, 21) 8 50 50 = (2, 29, 2, 29).
Proof. reflexivity. Qed.

(** A margin larger than the image is clipped on both sides. *)
Example GetBounds_large_delta : GetBounds (10, 10, 21, 21) 80 50 50 = (0, 49, 0, 49).
Proof. reflexivity. Qed.

Section Scenario50.
Import Array ArrayFacts.
Context `{Collaborators}.

Lemma region_labels_Label50 : region_labels Label50 = [1].
Proof. vm_compute. reflexivity. Qed.

Lemma bbox_Label50 : bbox_of (coords_of Label50 1) = (10, 10, 21, 21).
Proof. vm_compute. reflexivity. Qed.

(** C6.  In the 50 x 50 image whose only region is label 1 on rows 10 to
    20 and columns 10 to 20, with [Delta = 8], the neighbourhood window
    consists of exactly the rows 2 to 28 and the columns 2 to 28; the
    bounds returned for the slice are [(2, 29, 2, 29)], the upper ones
    exclusive. *)
Theorem window_of_rectangle_scenario :
  shape0 Label50 = 50 ∧ shape1 Label50 = 50 ∧
  (∀ r c, get Label50 r c = Some 1 ↔ (10 ≤ r ≤ 20) ∧ (10 ≤ c ≤ 20)) ∧
  ∃ reg, regionprops Label50 = [reg] ∧ label reg = 1 ∧
         bbox reg = (10, 10, 21, 21) ∧
         bounds Label50 8 reg = (2, 29, 2, 29) ∧
         ∀ r c, in_window Label50 8 reg r c ↔ (2 ≤ r ≤ 28) ∧ (2 ≤ c ≤ 28).
Proof.
  split; [reflexivity|]. split; [reflexivity|]. split.
  - intros r c. unfold Label50. rewrite get_Some. split.
    + intros (Hr & Hc & row & Hrow & Hv).
      apply list_lookup_fmap_Some in Hrow as (r' & -> & Hr').
      apply list_lookup_fmap_Some in Hv as (c' & Hv & Hc').
      apply lookup_seqZ in Hr' as [-> ?]. apply lookup_seqZ in Hc' as [-> ?].
      case_bool_decide; [lia | done].
    + intros [Hr Hc]. split_and!; [lia | lia |]. eexists. split.
      * apply list_lookup_fmap_Some. eexists. split; [done|].
        apply lookup_seqZ. split; [done | lia].
      * apply list_lookup_fmap_Some. exists c. split.
        -- rewrite bool_decide_eq_true_2; [done | lia].
        -- apply lookup_seqZ. lia.
  - exists {| label := 1; bbox := (10, 10, 21, 21); coords := coords_of Label50 1;
              measurements := region_measurements Label50 1 |}.
    split.
    { unfold regionprops. rewrite region_labels_Label50, fmap_cons, fmap_nil.
      cbv beta zeta. by rewrite bbox_Label50. }
    split; [reflexivity|]. split; [reflexivity|]. split; [reflexivity|].
    intros r c. unfold in_window, row_stop, col_stop, min_row, max_row, min_col, max_col.
    change (bounds Label50 8 _) with (2, 29, 2, 29).
    change (shape0 Label50) with 50. change (shape1 Label50) with 50.
    change (slice_index 50 (2, 29, 2, 29).1.1.2) with 29.
    change (slice_index 50 (2, 29, 2, 29).2) with 29.
    cbn [fst snd]. lia.
Qed.
End Scenario50.

Section FloatFacts.

Lemma digits2_pos_size (p : positive) : digits2_pos p = Pos.size p.
Proof. induction p; simpl; by f_equal. Qed.

Lemma Zdigits2_log2 (m : Z) : 0 < m → Zdigits2 m = Z.log2 m + 1.
Proof.
  destruct m as [|p|p]; [lia | | lia]. intros _. simpl.
  rewrite digits2_pos_size. destruct p; simpl; lia.
Qed.

Lemma shr_m_shr_1 (mrs : shr_record) :
  0 ≤ shr_m mrs → shr_m (shr_1 mrs) = Z.div2 (shr_m mrs).
Proof. destruct mrs as [[|[p|p|]|p] r s]; simpl; intros; done || lia. Qed.

Lemma shr_m_iter (p : positive) (mrs : shr_record) :
  0 ≤ shr_m mrs →
  shr_m (SpecFloat.iter_pos shr_1 p mrs) = Z.shiftr (shr_m mrs) (Zpos p).
Proof.
  revert mrs. induction p as [p IH|p IH|]; intros mrs Hm; simpl SpecFloat.iter_pos.
  - assert (0 ≤ shr_m (shr_1 mrs)) as H1.
    { rewrite shr_m_shr_1, Z.div2_spec by done. by apply Z.shiftr_nonneg. }
    assert (0 ≤ shr_m (SpecFloat.iter_pos shr_1 p (shr_1 mrs))) as H2.
    { rewrite IH by done. by apply Z.shiftr_nonneg. }
    rewrite IH, IH, shr_m_shr_1, Z.div2_spec by done.
    rewrite !Z.shiftr_shiftr by lia. f_equal. lia.
  - assert (0 ≤ shr_m (SpecFloat.iter_pos shr_1 p mrs)) as H2.
    { rewrite IH by done. by apply Z.shiftr_nonneg. }
    rewrite IH, IH by done. rewrite Z.shiftr_shiftr by lia. f_equal. lia.
  - rewrite shr_m_shr_1 by done. apply Z.div2_spec.
Qed.

Lemma shr_m_record_of_loc (m : Z) (l : location) :
  shr_m (shr_record_of_loc m l) = m.
Proof. by destruct l as [|[]]. Qed.

(** Shifting to the target exponent keeps a mantissa positive and the
    magnitude of the value, as long as the value is not below the least
    positive float64. *)
Lemma shr_fexp_above (k m e : Z) (l : location) :
  0 < m → SpecFloat.emin prec emax + 1 ≤ k → k ≤ Zdigits2 m + e →
  0 < shr_m (shr_fexp prec emax m e l).1 ∧
  k ≤ Zdigits2 (shr_m (shr_fexp prec emax m e l).1) + (shr_fexp prec emax m e l).2.
Proof.
  intros Hm Hk He. unfold shr_fexp, shr.
  rewrite (Zdigits2_log2 m Hm) in *.
  pose proof (Z.log2_nonneg m) as Hlog.
  set (n := fexp prec emax (Z.log2 m + 1 + e) - e).
  assert (n ≤ Z.log2 m) as Hn.
  { unfold n, fexp, SpecFloat.emin, prec, emax in *. lia. }
  destruct n as [|p|p] eqn:Hp; simpl fst; simpl snd.
  - rewrite shr_m_record_of_loc, Zdigits2_log2 by done. lia.
  - rewrite shr_m_iter by (rewrite shr_m_record_of_loc; lia).
    rewrite shr_m_record_of_loc.
    assert (0 < Z.shiftr m (Z.pos p)) as Hpos.
    { apply Z.le_neq. split; [apply Z.shiftr_nonneg; lia|].
      intros Heq. symmetry in Heq.
      apply Z.shiftr_eq_0_iff in Heq as [?|[_ ?]]; lia. }
    split; [done|]. rewrite Zdigits2_log2, Z.log2_shiftr by done. lia.
  - rewrite shr_m_record_of_loc, Zdigits2_log2 by done. lia.
Qed.

Lemma round_nearest_even_ge (m : Z) (l : location) : m ≤ round_nearest_even m l.
Proof. destruct l as [|[]]; simpl; try lia. destruct (Z.even m); lia. Qed.

(** Rounding a positive mantissa gives infinity or a finite float of the
    requested sign that is no smaller in magnitude than [2^(k-1)], for
    every [k] above the exponent of the least positive float64. *)
Lemma binary_round_aux_above (k : Z) (sx : bool) (m e : Z) (l : location) :
  0 < m → SpecFloat.emin prec emax + 1 ≤ k → k ≤ Zdigits2 m + e →
  match binary_round_aux prec emax sx m e l with
  | S754_finite s' m' e' => s' = sx ∧ k ≤ Zdigits2 (Z.pos m') + e'
  | S754_infinity s' => s' = sx
  | _ => False
  end.
Proof.
  intros Hm Hk He. unfold binary_round_aux.
  destruct (shr_fexp_above k m e l Hm Hk He) as [H1 H2].
  destruct (shr_fexp prec emax m e l) as [mrs' e']. simpl in H1, H2.
  set (m1 := round_nearest_even (shr_m mrs') (loc_of_shr_record mrs')).
  assert (shr_m mrs' ≤ m1) as Hge by apply round_nearest_even_ge.
  assert (0 < m1) as Hm1 by lia.
  assert (k ≤ Zdigits2 m1 + e') as He1.
  { rewrite Zdigits2_log2 in * by done.
    pose proof (Z.log2_le_mono _ _ Hge). lia. }
  destruct (shr_fexp_above k m1 e' loc_Exact Hm1 Hk He1) as [H3 H4].
  destruct (shr_fexp prec emax m1 e' loc_Exact) as [mrs'' e'']. simpl in H3, H4.
  destruct (shr_m mrs'') as [|m''|m'']; [lia | | lia].
  by destruct (_ <=? _).
Qed.

(** Away from underflow the square of a float that is not zero is
    infinite, or finite and at least twice the least positive float64. *)
Lemma fmul_self_above (s : bool) (m : positive) (e : Z) :
  square_safe (S754_finite s m e) →
  match fmul (S754_finite s m e) (S754_finite s m e) with
  | S754_finite s' m' e' => s' = false ∧ least_exponent + 2 ≤ Zdigits2 (Z.pos m') + e'
  | S754_infinity s' => s' = false
  | _ => False
  end.
Proof.
  unfold square_safe. intros Hsafe.
  assert (0 < Z.pos m) as Hm by done.
  pose proof (binary_round_aux_above (least_exponent + 2) false
                (Z.pos m * Z.pos m) (e + e) loc_Exact) as Habove.
  assert (fmul (S754_finite s m e) (S754_finite s m e) =
          binary_round_aux prec emax false (Z.pos m * Z.pos m) (e + e) loc_Exact)
    as -> by (unfold fmul; simpl; by destruct s).
  apply Habove; [lia | unfold SpecFloat.emin, least_exponent, prec, emax; lia |].
  rewrite Zdigits2_log2 in Hsafe by done. rewrite Zdigits2_log2 by lia.
  pose proof (Z.log2_mul_below (Z.pos m) (Z.pos m) Hm Hm) as Hmul.
  unfold least_exponent, prec, emax. lia.
Qed.

(** A power within one unit in the last place of such a square is not
    zero. *)
Lemma within_ulp_square_truthy (p y : float) :
  truthy p = true → square_safe p → within_ulp (fmul p p) y → truthy y = true.
Proof.
  intros Hnz Hsafe Hy. destruct p as [s|s| |s m e]; try done.
  - by destruct y.
  - by destruct y.
  - pose proof (fmul_self_above s m e Hsafe) as Habove.
    destruct (fmul _ _) as [s'|s'| |s' m' e']; try done.
    + by destruct y.
    + destruct y as [sy|sy| |sy my ey]; try done.
      destruct Hy as [-> ->], Habove as [_ Habove]. simpl in Habove. lia.
Qed.

(** The guard of the circularity, for a power that is accurate: a zero
    perimeter gives 0; any other perimeter whose square does not underflow
    has a power that is not zero, and the quotient is returned. *)
Lemma circularity_with_guard `{Collaborators} (Area Perimeter : float) :
  power_is_accurate →
  (truthy Perimeter = false → Circularity_with np_power2 Area Perimeter = fzero) ∧
  (truthy Perimeter = true → square_safe Perimeter →
     truthy (np_power2 Perimeter) = true ∧
     Circularity_with np_power2 Area Perimeter =
       fdiv (fmul (fmul four np_pi) Area) (np_power2 Perimeter)).
Proof.
  intros [Hzero Hulp]. split.
  - intros Hz. destruct Perimeter as [s| | |]; try done.
    unfold Circularity_with. by rewrite Hzero.
  - intros Hnz Hsafe.
    pose proof (within_ulp_square_truthy Perimeter _ Hnz Hsafe (Hulp Perimeter)) as Ht.
    split; [done|]. unfold Circularity_with. by rewrite Ht.
Qed.

(** Below the range of [square_safe] the guard sees a square that has
    underflowed: a perimeter of [2^-648] gives 0. *)
Example circularity_of_tiny_perimeter :
  Circularity_of four (S754_finite false 4503599627370496 (-700)) = fzero.
Proof. reflexivity. Qed.

(** A region of area 4 and perimeter 4 has circularity pi. *)
Example circularity_of_four_four : Circularity_of four four = np_pi.
Proof. reflexivity. Qed.
End FloatFacts.

Section TableFacts.

Lemma bind_Some_l {A B} (f : A → option B) (x : A) : Some x ≫= f = f x.
Proof. done. Qed.

Lemma for_range_ext {St} (f g : nat → St → option St) (range : list nat) (st : St) :
  (∀ i st, i ∈ range → f i st = g i st) →
  for_range f range st = for_range g range st.
Proof.
  revert st. induction range as [|i rest IH]; intros st Hext; simpl; [done|].
  rewrite Hext by left. destruct (g i st) as [st'|]; simpl; [|done].
  apply IH. intros j st'' Hj. apply Hext. by right.
Qed.

(** A loop over [seq a n] that re-establishes an invariant of the index
    runs to the end. *)
Lemma for_range_invariant {St} (P : nat → St → Prop)
    (body : nat → St → option St) (a n : nat) (st : St) :
  (∀ i st, (a ≤ i < a + n)%nat → P i st →
     ∃ st', body i st = Some st' ∧ P (i + 1)%nat st') →
  P a st →
  ∃ st', for_range body (seq a n) st = Some st' ∧ P (a + n)%nat st'.
Proof.
  revert a st. induction n as [|n IH]; intros a st Hstep Hinit; simpl.
  - exists st. by rewrite Nat.add_0_r.
  - destruct (Hstep a st) as (st' & -> & Hst'); [lia | done |]. simpl.
    destruct (IH (a + 1)%nat st') as (st'' & Hrun & Hst'').
    + intros i s Hi. apply Hstep. lia.
    + done.
    + exists st''. rewrite Nat.add_1_r in Hrun. split; [done|].
      by replace (a + S n)%nat with (a + 1 + n)%nat by lia.
Qed.

Lemma assign_all_app (l1 l2 : list (string * list float)) (df : DataFrame) :
  assign_all (l1 ++ l2) df = assign_all l1 df ≫= assign_all l2.
Proof.
  revert df. induction l1 as [|c l1 IH]; intros df; simpl; [done|].
  destruct (df_setitem df c.1 c.2); simpl; auto.
Qed.

Lemma for_range_assign (new : nat → list (string * list float))
    (body : nat → DataFrame → option DataFrame) (range : list nat) (df : DataFrame) :
  (∀ i df, i ∈ range → body i df = assign_all (new i) df) →
  for_range body range df = assign_all (range ≫= new) df.
Proof.
  revert df. induction range as [|i rest IH]; intros df Hbody; simpl; [done|].
  rewrite assign_all_app, Hbody by left.
  destruct (assign_all (new i) df) as [df'|]; simpl; [|done].
  apply IH. intros j df'' Hj. apply Hbody. by right.
Qed.

Lemma df_setitem_fresh (num : nat) (df : DataFrame) (name : string) (col : list float) :
  name ∉ df.*1 → Forall (λ c, length c.2 = num) df → length col = num →
  df_setitem df name col = Some (df ++ [(name, col)]).
Proof.
  intros Hfresh Hlen Hcol. destruct df as [|[n0 c0] df]; [done|].
  unfold df_setitem. apply Forall_cons_1 in Hlen as [Hc0 _]. simpl in Hc0.
  rewrite decide_True by congruence. by rewrite decide_False.
Qed.

Lemma assign_all_fresh (num : nat) (cols : list (string * list float)) (df : DataFrame) :
  NoDup (df.*1 ++ cols.*1) →
  Forall (λ c, length c.2 = num) df → Forall (λ c, length c.2 = num) cols →
  assign_all cols df = Some (df ++ cols).
Proof.
  revert df. induction cols as [|[name col] cols IH]; intros df Hnd Hdf Hcols; simpl.
  - by rewrite app_nil_r.
  - apply Forall_cons_1 in Hcols as [Hcol Hcols]. simpl in Hcol.
    rewrite (df_setitem_fresh num) ; [|  | done | done].
    + simpl. rewrite IH.
      * by rewrite <- app_assoc.
      * by rewrite fmap_app, <- app_assoc.
      * apply Forall_app. split; [done|]. by constructor.
      * done.
    + apply NoDup_app in Hnd as (_ & Hdisj & _). intros Hin.
      apply (Hdisj name Hin). simpl. by left.
Qed.

Lemma column_Some (n w i : nat) (M : list (list float)) :
  matrix n w M → (i < w)%nat →
  ∃ c, column M i = Some c ∧ length c = n.
Proof.
  intros [Hn Hw] Hi. unfold column.
  destruct (mapM_is_Some_2 (λ row : list float, row !! i) M) as [c Hc].
  - eapply Forall_impl; [exact Hw|]. intros row Hrow. simpl in *.
    apply lookup_lt_is_Some_2. lia.
  - exists c. split; [done|]. apply length_mapM in Hc. lia.
Qed.

Lemma scalar_loop (cols pre : list (string * list float)) (df : DataFrame) :
  for_range (λ i df, c ← (pre ++ cols) !! i; df_setitem df c.1 c.2)
    (seq (length pre) (length cols)) df = assign_all cols df.
Proof.
  revert pre df. induction cols as [|c cols IH]; intros pre df; simpl; [done|].
  rewrite list_lookup_middle by done. simpl.
  destruct (df_setitem df c.1 c.2) as [df'|]; simpl; [|done].
  specialize (IH (pre ++ [c]) df'). rewrite <- app_assoc, length_app in IH.
  simpl in IH. by rewrite Nat.add_1_r in IH.
Qed.

Lemma scalar_loop_nil (cols : list (string * list float)) (df : DataFrame) :
  for_range (λ i df, c ← cols !! i; df_setitem df c.1 c.2)
    (seq 0 (length cols)) df = assign_all cols df.
Proof. exact (scalar_loop cols [] df). Qed.

Lemma FSD_loop (n Fs : nat) (M : list (list float)) (df : DataFrame) :
  matrix n Fs M →
  for_range (λ i df, c ← column M i; df_setitem df ("FSD" +:+ pretty (i + 1)%nat) c)
    (seq 0 Fs) df = assign_all (FSD_columns Fs M) df.
Proof.
  intros HM. unfold FSD_columns.
  rewrite (for_range_assign
             (λ i, [("FSD" +:+ pretty (i + 1)%nat, default [] (column M i))])).
  - by f_equal.
  - intros i df' Hi. apply elem_of_seq in Hi.
    destruct (column_Some n Fs i M HM) as (c & -> & _); [lia|]. simpl.
    by destruct (df_setitem _ _ _).
Qed.

Lemma group_loop (n : nat) (Names : list string) (H E : list (list float))
    (df : DataFrame) :
  matrix n (length Names) H → matrix n (length Names) E →
  add_group Names H E df = assign_all (group_columns Names H E) df.
Proof.
  intros HH HE. unfold add_group, group_columns.
  apply for_range_assign. intros i df' Hi. apply elem_of_seq in Hi.
  destruct (lookup_lt_is_Some_2 Names i) as [name ->]; [lia|].
  destruct (column_Some n _ i H HH) as (h & -> & _); [lia|].
  destruct (column_Some n _ i E HE) as (e & -> & _); [lia|]. simpl.
  destruct (df_setitem df' _ h) as [df''|]; simpl; [|done].
  by destruct (df_setitem df'' _ e).
Qed.

(** The table is the list of the columns of the arrays, when all are
    assigned. *)
Lemma build_table_assign (num Fs i : nat) (st : Features) :
  filled num Fs i st →
  build_table Fs st = assign_all (table_columns Fs st) [].
Proof.
  intros (_ & (HF & HT & HT' & HG & HG' & HI & HI') & _).
  unfold build_table, table_columns.
  rewrite scalar_loop_nil.
  rewrite !assign_all_app.
  destruct (assign_all (scalar_columns st) []) as [df|]; [|done].
  rewrite !bind_Some_l, (FSD_loop num Fs), assign_all_app by done.
  destruct (assign_all (FSD_columns Fs (FSDGroup st)) df) as [df1|]; [|done].
  rewrite !bind_Some_l, (group_loop num TextureNames), assign_all_app by done.
  destruct (assign_all (group_columns TextureNames _ _) df1) as [df2|]; [|done].
  rewrite !bind_Some_l, (group_loop num GradientNames), assign_all_app by done.
  destruct (assign_all (group_columns GradientNames _ _) df2) as [df3|]; [|done].
  by rewrite !bind_Some_l, (group_loop num IntensityNames) by done.
Qed.
End TableFacts.

Section ColumnFacts.

Lemma FSD_columns_names (Fs : nat) (M : list (list float)) :
  (FSD_columns Fs M).*1 = FSD_names Fs.
Proof.
  unfold FSD_columns, FSD_names. rewrite <- list_fmap_compose.
  by apply list_fmap_ext.
Qed.

Lemma table_columns_names (Fs : nat) (st : Features) :
  (table_columns Fs st).*1 = column_names Fs.
Proof.
  unfold table_columns, column_names.
  rewrite !fmap_app, FSD_columns_names. reflexivity.
Qed.

Lemma NoDup_FSD_names (Fs : nat) : NoDup (FSD_names Fs).
Proof.
  unfold FSD_names. apply NoDup_fmap_2_strong; [|apply NoDup_seq].
  intros i j _ _ Heq. simpl in Heq. injection Heq as Heq.
  apply pretty_nat_inj in Heq. lia.
Qed.

Lemma FSD_names_prefix (Fs : nat) (name : string) :
  name ∈ FSD_names Fs → ∃ s, name = "FSD" +:+ s.
Proof. intros (i & -> & _)%list_elem_of_fmap. eauto. Qed.

Lemma NoDup_fixed_names : NoDup fixed_names.
Proof. apply (bool_decide_unpack _). vm_compute. exact I. Qed.

Lemma fixed_names_not_FSD (name s : string) :
  name ∈ fixed_names → name ≠ "FSD" +:+ s.
Proof.
  intros Hin ->. vm_compute in Hin.
  repeat (apply elem_of_cons in Hin as [Heq|Hin]; [discriminate Heq|]).
  by apply elem_of_nil in Hin.
Qed.

Lemma NoDup_column_names (Fs : nat) : NoDup (column_names Fs).
Proof.
  pose proof NoDup_fixed_names as Hfixed. unfold fixed_names in Hfixed.
  apply NoDup_app in Hfixed as (Hs & Hdisj & Hg).
  unfold column_names. apply NoDup_app. split_and!; [done | |].
  - intros name Hin [HF|HG]%elem_of_app.
    + apply FSD_names_prefix in HF as [s ->].
      apply (fixed_names_not_FSD ("FSD" +:+ s) s); [|done].
      unfold fixed_names. apply elem_of_app. by left.
    + by apply (Hdisj name).
  - apply NoDup_app. split_and!; [apply NoDup_FSD_names | | done].
    intros name [s ->]%FSD_names_prefix Hin.
    apply (fixed_names_not_FSD ("FSD" +:+ s) s); [|done].
    unfold fixed_names. apply elem_of_app. by right.
Qed.
End ColumnFacts.

Section UpdateFacts.

Lemma setitem_lt {A} (a : list A) (i : nat) (v : A) :
  (i < length a)%nat → setitem a i v = Some (<[i := v]> a).
Proof. intros. unfold setitem. by rewrite decide_True. Qed.

Lemma setitem_Some {A} (a a' : list A) (i : nat) (x : A) :
  setitem a i x = Some a' → length a' = length a.
Proof.
  unfold setitem. case_decide; [|done]. intros [= <-]. apply length_insert.
Qed.

(** What follows an assignment [a[i] = v] sees [v] at index [i]. *)
Lemma setitem_bind {A B} (a : list A) (i : nat) (v : A) (f g : list A → option B) :
  (∀ a', a' !! i = Some v → f a' = g a') →
  setitem a i v ≫= f = setitem a i v ≫= g.
Proof.
  intros Hfg. unfold setitem. case_decide; [|done]. simpl.
  apply Hfg. by apply list_lookup_insert_eq.
Qed.

Lemma matrix_zeros2 (n w : nat) : matrix n w (zeros2 n w).
Proof.
  unfold zeros2, zeros. split; [apply length_replicate|].
  apply Forall_replicate, length_replicate.
Qed.

Lemma initial_filled (Fs num : nat) : filled num Fs 0 (initial Fs num).
Proof.
  unfold filled, initial, zeros. simpl. rewrite !length_replicate.
  split_and!; try done; apply matrix_zeros2.
Qed.

Lemma broadcast_Some (w : nat) (v row : list float) :
  broadcast w v = Some row → fits w v ∧ length row = w.
Proof.
  unfold broadcast, fits. case_decide as Hlen.
  - intros [= <-]. auto.
  - destruct v as [|x [|y v]]; [done | | done].
    intros [= <-]. split; [by right | apply length_replicate].
Qed.

Lemma broadcast_fits (w : nat) (v : list float) :
  fits w v → ∃ row, broadcast w v = Some row ∧ length row = w.
Proof.
  intros [Hw|H1]; unfold broadcast.
  - exists v. by rewrite decide_True.
  - case_decide; [by exists v|].
    destruct v as [|x [|y v]]; [done | | done].
    exists (replicate w x). split; [done | apply length_replicate].
Qed.

Lemma length_stored_row (w : nat) (r : option (list float)) :
  length (stored_row w r) = w.
Proof.
  unfold stored_row. destruct r as [v|]; simpl; [|apply length_replicate].
  destruct (broadcast w v) as [row|] eqn:Hrow; simpl; [|apply length_replicate].
  by apply broadcast_Some in Hrow as [_ ?].
Qed.

(** A stored row holds at [k] the entry [k] of the vector. *)
Lemma stored_row_entry (w k : nat) (v : list float) (x : float) :
  fits w v → stored_row w (Some v) !! k = Some x → entry k v x.
Proof.
  intros Hfit. unfold stored_row, entry. simpl. unfold broadcast.
  case_decide as Hlen; simpl; [auto|].
  destruct Hfit as [?|H1]; [done|].
  destruct v as [|y [|z v]]; [done | | done]. simpl.
  intros [-> _]%lookup_replicate. by right.
Qed.

Lemma setrow_Some (n w i : nat) (M M' : list (list float)) (v : list float) :
  matrix n w M → setrow M i v = Some M' → matrix n w M' ∧ fits w v.
Proof.
  intros [Hn Hw] Hrun. unfold setrow in Hrun.
  destruct (M !! i) as [old|] eqn:Hold; [|done]. simpl in Hrun.
  assert (length old = w) as Hlen.
  { rewrite Forall_forall in Hw. apply Hw. by eapply list_elem_of_lookup_2. }
  rewrite Hlen in Hrun.
  destruct (broadcast w v) as [row|] eqn:Hrow; [|done]. simpl in Hrun.
  injection Hrun as <-. apply broadcast_Some in Hrow as [Hfit Hrow].
  split; [|done]. split; [by rewrite length_insert | by apply Forall_insert].
Qed.

Lemma setrow_fits (n w i : nat) (M : list (list float)) (v : list float) :
  matrix n w M → (i < n)%nat → fits w v →
  setrow M i v = Some (<[i := stored_row w (Some v)]> M).
Proof.
  intros [Hn Hw] Hi Hfit. unfold setrow.
  destruct (lookup_lt_is_Some_2 M i) as [old Hold]; [lia|]. rewrite Hold. simpl.
  assert (length old = w) as ->.
  { rewrite Forall_forall in Hw. apply Hw. by eapply list_elem_of_lookup_2. }
  destruct (broadcast_fits w v Hfit) as (row & Hrow & _).
  unfold stored_row. simpl. by rewrite Hrow.
Qed.

Lemma for_range_Some_inv {St} (P : nat → St → Prop) (Q : nat → Prop)
    (body : nat → St → option St) (a n : nat) (st st' : St) :
  (∀ i s s', (a ≤ i < a + n)%nat → P i s → body i s = Some s' →
     P (i + 1)%nat s' ∧ Q i) →
  P a st → for_range body (seq a n) st = Some st' →
  P (a + n)%nat st' ∧ ∀ i, (a ≤ i < a + n)%nat → Q i.
Proof.
  revert a st. induction n as [|n IH]; intros a st Hstep Hinit Hrun; simpl in Hrun.
  - injection Hrun as <-. rewrite Nat.add_0_r. split; [done | lia].
  - destruct (body a st) as [s|] eqn:Hbody; [|done]. rewrite bind_Some_l in Hrun.
    destruct (Hstep a st s ltac:(lia) Hinit Hbody) as [Hs Hq].
    destruct (IH (S a) s) as [Hend Hall].
    + intros i s1 s2 Hi. apply Hstep. lia.
    + by rewrite <- Nat.add_1_r.
    + done.
    + split; [by replace (a + S n)%nat with (S a + n)%nat by lia|].
      intros i Hi. destruct (decide (i = a)) as [->|]; [done|]. apply Hall. lia.
Qed.

(** [disk] has a true entry exactly for a radius that is not negative. *)
Lemma footprint_any_disk (radius : Z) :
  footprint_any (disk radius) = true ↔ 0 ≤ radius.
Proof.
  unfold footprint_any. rewrite list_or_true, list_elem_of_fmap. split.
  - intros (row & _ & Hrow). destruct (decide (0 ≤ radius)) as [|Hneg]; [done|].
    rewrite disk_nil in Hrow by lia. by apply elem_of_nil in Hrow.
  - intros Hr.
    assert (Array.get (disk radius) radius radius = Some true) as Hcentre.
    { apply get_disk. unfold in_disk. split_and!; lia. }
    apply ArrayFacts.get_Some in Hcentre as (_ & _ & row & Hrow & Hv).
    exists row. split.
    + symmetry. apply list_or_true. by eapply list_elem_of_lookup_2.
    + by eapply list_elem_of_lookup_2.
Qed.

Lemma dilation_call_disk (image : list (list bool)) (radius : Z) :
  dilation_call image (disk radius) =
    if decide (0 ≤ radius) then Some (dilation image (disk radius)) else None.
Proof.
  unfold dilation_call. pose proof (footprint_any_disk radius) as Hany.
  destruct (footprint_any (disk radius)); case_decide as Hr; try done.
  - destruct Hr. by apply Hany.
  - by apply Hany in Hr.
Qed.
End UpdateFacts.

Section ShapeOfTable.
Variable Fs : nat.

Lemma table_columns_lengths (num i : nat) (st : Features) :
  filled num Fs i st → Forall (λ c, length c.2 = num) (table_columns Fs st).
Proof.
  intros (Hlen & Hmat & _).
  destruct Hlen as (? & ? & ? & ? & ? & ? & ? & ? & ? & ?).
  destruct Hmat as (HF & HT & HT' & HG & HG' & HI & HI').
  assert (∀ Names Hm Em, matrix num (length Names) Hm → matrix num (length Names) Em →
            Forall (λ c, length c.2 = num) (group_columns Names Hm Em)) as Hgroup.
  { intros Names Hm Em HHm HEm. apply Forall_forall. intros c Hc.
    apply list_elem_of_bind in Hc as (j & Hc & Hj%elem_of_seq).
    destruct (column_Some num _ j Hm HHm) as (h & Hh & Hhl); [lia|].
    destruct (column_Some num _ j Em HEm) as (e & He & Hel); [lia|].
    rewrite Hh, He in Hc.
    apply elem_of_cons in Hc as [->|Hc]; [done|].
    apply elem_of_cons in Hc as [->|Hc]; [done|]. by apply elem_of_nil in Hc. }
  unfold table_columns. rewrite !Forall_app. split_and!.
  - unfold scalar_columns. repeat constructor; done.
  - apply Forall_forall. intros c (j & -> & Hj%elem_of_seq)%list_elem_of_fmap.
    destruct (column_Some num Fs j _ HF) as (col & -> & Hcol); [lia|]. done.
  - by apply (Hgroup TextureNames).
  - by apply (Hgroup GradientNames).
  - by apply (Hgroup IntensityNames).
Qed.

Lemma build_table_filled (num i : nat) (st : Features) :
  filled num Fs i st → build_table Fs st = Some (table_columns Fs st).
Proof.
  intros Hst. rewrite (build_table_assign num Fs i) by done.
  apply (assign_all_fresh num).
  - change (NoDup (table_columns Fs st).*1).
    rewrite table_columns_names. apply NoDup_column_names.
  - constructor.
  - by eapply table_columns_lengths.
Qed.

Lemma length_regionprops_num_labels `{Collaborators} (Label : list (list Z)) :
  length (regionprops Label) = num_labels Label.
Proof.
  rewrite length_regionprops. unfold num_labels.
  apply Permutation_length, NoDup_Permutation.
  - apply NoDup_region_labels.
  - apply NoDup_remove_dups.
  - intros l. rewrite elem_of_region_labels, elem_of_remove_dups, list_elem_of_filter.
    done.
Qed.

Lemma empty_columns (cols : list (string * list float)) :
  Forall (λ c, length c.2 = 0%nat) cols →
  cols = (λ name, (name, [])) <$> cols.*1.
Proof.
  induction 1 as [|[name col] cols Hc _ IH]; [done|]. simpl in Hc.
  apply nil_length_inv in Hc as ->. rewrite !fmap_cons. by f_equal.
Qed.
End ShapeOfTable.

Section LoopFacts.
Context `{Collaborators}.
Variable Label : list (list Z).
Variables In Ic : list (list float).
Variable K : Z.
Variable Fs : nat.
Variable Delta : Z.
Variable diffGn : list (list float).
Variable BW_cannyn : list (list bool).
Variable diffGc : list (list float).
Variable BW_cannyc : list (list bool).
Variable regions : list RegionProperties.

Lemma length_filled_from {A} (old : list A) (f : RegionProperties → A) (i : nat) :
  length old = length regions → (i ≤ length regions)%nat →
  length (filled_from regions old f i) = length regions.
Proof.
  intros Hold Hi. unfold filled_from.
  rewrite length_app, length_fmap, length_take, length_drop. lia.
Qed.

(** Writing the value of region [i] at index [i] extends the filled part. *)
Lemma insert_filled_from {A} (old : list A) (f : RegionProperties → A)
    (i : nat) (reg : RegionProperties) :
  length old = length regions → regions !! i = Some reg →
  <[i := f reg]> (filled_from regions old f i) = filled_from regions old f (i + 1).
Proof.
  intros Hold Hreg. pose proof (lookup_lt_Some _ _ _ Hreg) as Hi. unfold filled_from.
  rewrite Nat.add_1_r, (take_S_r _ _ _ Hreg), fmap_app, <- app_assoc.
  destruct (lookup_lt_is_Some_2 old i) as [x Hx]; [lia|].
  rewrite (drop_S _ _ _ Hx).
  rewrite insert_app_r_alt by (rewrite length_fmap, length_take; lia).
  rewrite length_fmap, length_take.
  by replace (i - i `min` length regions)%nat with 0%nat by lia.
Qed.

Lemma filled_from_0 {A} (old : list A) (f : RegionProperties → A) :
  filled_from regions old f 0 = old.
Proof. unfold filled_from. by rewrite take_0, drop_0. Qed.

(** After the last iteration nothing is left of the old content. *)
Lemma filled_from_all {A} (old : list A) (f : RegionProperties → A) :
  length old = length regions →
  filled_from regions old f (length regions) = f <$> regions.
Proof.
  intros Hold. unfold filled_from.
  by rewrite firstn_all, drop_ge, app_nil_r by lia.
Qed.

Lemma matrix_filled_from (w i : nat) (old : list (list float))
    (f : RegionProperties → list float) :
  matrix (length regions) w old → (∀ reg, length (f reg) = w) →
  (i ≤ length regions)%nat →
  matrix (length regions) w (filled_from regions old f i).
Proof.
  intros [Hn Hw] Hf Hi. split; [by apply length_filled_from|].
  unfold filled_from. apply Forall_app. split.
  - apply Forall_fmap, Forall_forall. intros reg _. apply Hf.
  - by apply Forall_drop.
Qed.

Lemma state_from_0 (st0 : Features) :
  regionIdx st0 = 0%nat →
  state_from Label In Ic K Fs Delta diffGn BW_cannyn diffGc BW_cannyc
    regions st0 0 = st0.
Proof.
  intros Hidx. unfold state_from. rewrite !filled_from_0, <- Hidx. by destruct st0.
Qed.

(** The arrays keep their shapes. *)
Lemma state_from_filled (st0 : Features) (i : nat) :
  filled (length regions) Fs 0 st0 → (i ≤ length regions)%nat →
  filled (length regions) Fs i
    (state_from Label In Ic K Fs Delta diffGn BW_cannyn diffGc BW_cannyc
       regions st0 i).
Proof.
  intros (Hlen & Hmat & _) Hi.
  destruct Hlen as (? & ? & ? & ? & ? & ? & ? & ? & ? & ?).
  destruct Hmat as (HF & HT & HT' & HG & HG' & HI & HI').
  unfold filled, state_from. simpl.
  rewrite !length_filled_from by done.
  split_and!; try done; apply matrix_filled_from; try done;
    intros reg; apply length_stored_row.
Qed.

(** After the last iteration the arrays do not depend on what they held
    before the loop. *)
Lemma state_from_all (st0 : Features) :
  filled (length regions) Fs 0 st0 →
  state_from Label In Ic K Fs Delta diffGn BW_cannyn diffGc BW_cannyc
    regions st0 (length regions) =
  state_from Label In Ic K Fs Delta diffGn BW_cannyn diffGc BW_cannyc
    regions (initial Fs (length regions)) (length regions).
Proof.
  intros (Hlen & Hmat & _).
  destruct Hlen as (? & ? & ? & ? & ? & ? & ? & ? & ? & ?).
  destruct Hmat as ([? _] & [? _] & [? _] & [? _] & [? _] & [? _] & [? _]).
  unfold state_from.
  rewrite !filled_from_all; try done; simpl; unfold zeros2, zeros;
    by rewrite ?length_replicate.
Qed.

(** One iteration of the loop, on the state the iterations before it
    leave: the arrays receive the values of region [i]. *)
Lemma extract_region_state_from (st0 : Features) (i : nat) (reg : RegionProperties) :
  filled (length regions) Fs 0 st0 → regions !! i = Some reg →
  region_runs Label In Ic K Fs Delta diffGn BW_cannyn diffGc BW_cannyc reg →
  extract_region Label In Ic K Fs Delta regions
    diffGn BW_cannyn diffGc BW_cannyc i
    (state_from Label In Ic K Fs Delta diffGn BW_cannyn diffGc BW_cannyc
       regions st0 i) =
  Some (state_from Label In Ic K Fs Delta diffGn BW_cannyn diffGc BW_cannyc
          regions st0 (i + 1)).
Proof.
  intros Hst0 Hreg (F1 & F2 & F3 & F4 & HDelta & F5 & F6 & F7).
  pose proof (lookup_lt_Some _ _ _ Hreg) as Hi.
  assert (i ≤ length regions)%nat as Hle by lia.
  pose proof (state_from_filled st0 i Hst0 Hle) as (Hlen & Hmat & _).
  destruct Hlen as (? & ? & ? & ? & ? & ? & ? & ? & ? & ?).
  destruct Hmat as (HF & HT & HT' & HG & HG' & HI & HI').
  destruct Hst0 as (Hlen0 & Hmat0 & _).
  destruct Hlen0 as (? & ? & ? & ? & ? & ? & ? & ? & ? & ?).
  destruct Hmat0 as ([? _] & [? _] & [? _] & [? _] & [? _] & [? _] & [? _]).
  destruct F1 as (v1 & E1 & F1), F2 as (v2 & E2 & F2), F3 as (v3 & E3 & F3),
    F4 as (v4 & E4 & F4), F5 as (v5 & E5 & F5), F6 as (v6 & E6 & F6),
    F7 as (v7 & E7 & F7).
  unfold extract_region. rewrite Hreg. rewrite !bind_Some_l. cbv zeta.
  change (regionIdx (state_from Label In Ic K Fs Delta diffGn BW_cannyn diffGc
            BW_cannyc regions st0 i)) with i.
  unfold Disk. rewrite dilation_call_disk, decide_True by done.
  rewrite !setitem_lt by lia. rewrite !bind_Some_l.
  rewrite !list_lookup_insert_eq by lia. rewrite !bind_Some_l.
  rewrite setitem_lt by lia. rewrite !bind_Some_l.
  rewrite E1, bind_Some_l, (setrow_fits _ _ i _ _ HF Hi F1), bind_Some_l.
  rewrite E2, bind_Some_l, (setrow_fits _ _ i _ _ HT Hi F2), bind_Some_l.
  rewrite E3, bind_Some_l, (setrow_fits _ _ i _ _ HG Hi F3), bind_Some_l.
  rewrite E4, bind_Some_l, (setrow_fits _ _ i _ _ HI Hi F4), !bind_Some_l.
  change (fmap _ (Array.argwhere (logical_xor (Mask Label Delta reg)
            (dilation (Nucleus Label Delta reg) (disk Delta)))))
    with (regionCoords Label Delta reg).
  rewrite E5, bind_Some_l, (setrow_fits _ _ i _ _ HT' Hi F5), bind_Some_l.
  rewrite E6, bind_Some_l, (setrow_fits _ _ i _ _ HG' Hi F6), bind_Some_l.
  rewrite E7, bind_Some_l, (setrow_fits _ _ i _ _ HI' Hi F7).
  f_equal. unfold state_from. cbn [CentroidX CentroidY Area Perimeter Eccentricity
    Circularity MajorAxisLength MinorAxisLength Extent Solidity FSDGroup
    HematoxylinTextureGroup EosinTextureGroup HematoxylinGradientGroup
    EosinGradientGroup HematoxylinIntensityGroup EosinIntensityGroup regionIdx].
  rewrite <- !(insert_filled_from _ _ i reg) by done.
  unfold FSD_of, nucleus_texture, nucleus_gradient, nucleus_intensity,
    cytoplasm_texture, cytoplasm_gradient, cytoplasm_intensity.
  by rewrite E1, E2, E3, E4, E5, E6, E7.
Qed.

(** An iteration that returns keeps the shapes of the arrays, and the
    computations for its region have run. *)
Lemma extract_region_Some (i : nat) (reg : RegionProperties) (st st' : Features) :
  regions !! i = Some reg → filled (length regions) Fs i st →
  extract_region Label In Ic K Fs Delta regions
    diffGn BW_cannyn diffGc BW_cannyc i st = Some st' →
  filled (length regions) Fs (i + 1) st' ∧
  region_runs Label In Ic K Fs Delta diffGn BW_cannyn diffGc BW_cannyc reg.
Proof.
  intros Hreg (Hlen & Hmat & Hidx) Hrun.
  destruct Hlen as (? & ? & ? & ? & ? & ? & ? & ? & ? & ?).
  destruct Hmat as (HF & HT & HT' & HG & HG' & HI & HI').
  unfold extract_region in Hrun. rewrite Hreg, Hidx, bind_Some_l in Hrun.
  cbv zeta in Hrun. unfold Disk in Hrun. rewrite dilation_call_disk in Hrun.
  destruct (decide (0 ≤ Delta)) as [HDelta|HDelta].
  2:{ repeat match type of Hrun with
      | (None ≫= _) = Some _ => done
      | (?o ≫= _) = Some _ =>
          destruct o; [rewrite bind_Some_l in Hrun | done]
      end. }
  repeat match type of Hrun with
  | (setitem ?a ?j ?x ≫= _) = Some _ =>
      let a' := fresh "a" in let E := fresh "E" in
      destruct (setitem a j x) as [a'|] eqn:E; [|done];
      apply setitem_Some in E; rewrite bind_Some_l in Hrun
  | ((?l !! ?j) ≫= _) = Some _ =>
      let y := fresh "y" in
      destruct (l !! j) as [y|]; [|done]; rewrite bind_Some_l in Hrun
  | (setrow ?M ?j ?v ≫= _) = Some _ =>
      let M' := fresh "M" in let E := fresh "E" in
      destruct (setrow M j v) as [M'|] eqn:E; [|done];
      rewrite bind_Some_l in Hrun
  | (Some _ ≫= _) = Some _ => rewrite bind_Some_l in Hrun
  | (?o ≫= _) = Some _ =>
      let v := fresh "v" in let E := fresh "R" in
      destruct o as [v|] eqn:E; [|done]; rewrite bind_Some_l in Hrun
  end.
  injection Hrun as <-.
  repeat match goal with
  | HM : matrix _ ?w ?M, E : setrow ?M _ _ = Some _ |- _ =>
      apply (setrow_Some _ _ _ _ _ _ HM) in E as [? ?]; clear HM
  end.
  split.
  - unfold filled. simpl. split_and!; congruence || done.
  - unfold region_runs, returns_fitting. split_and!; eauto.
Qed.

(** A loop that returns has filled the arrays with the values of the
    regions, and the computations for every region have run. *)
Lemma extraction_loop_Some_inv (st0 st : Features) :
  filled (length regions) Fs 0 st0 →
  for_range
    (extract_region Label In Ic K Fs Delta regions
       diffGn BW_cannyn diffGc BW_cannyc)
    (seq 0 (length regions)) st0 = Some st →
  st = state_from Label In Ic K Fs Delta diffGn BW_cannyn diffGc BW_cannyc
         regions st0 (length regions) ∧
  ∀ reg, reg ∈ regions →
    region_runs Label In Ic K Fs Delta diffGn BW_cannyn diffGc BW_cannyc reg.
Proof.
  intros Hst0 Hloop.
  destruct (for_range_Some_inv
              (λ i s, (i ≤ length regions)%nat ∧
                      s = state_from Label In Ic K Fs Delta
                            diffGn BW_cannyn diffGc BW_cannyc regions st0 i)
              (λ i, ∀ reg, regions !! i = Some reg →
                 region_runs Label In Ic K Fs Delta
                   diffGn BW_cannyn diffGc BW_cannyc reg)
              (extract_region Label In Ic K Fs Delta regions
                 diffGn BW_cannyn diffGc BW_cannyc)
              0 (length regions) st0 st) as [[_ Hst] Hall].
  - intros i s s' Hi [_ ->] Hbody.
    destruct (lookup_lt_is_Some_2 regions i) as [reg Hreg]; [lia|].
    assert (filled (length regions) Fs i
              (state_from Label In Ic K Fs Delta diffGn BW_cannyn diffGc BW_cannyc
                 regions st0 i)) as Hfilled
      by (apply state_from_filled; [done | lia]).
    destruct (extract_region_Some i reg _ s' Hreg Hfilled Hbody) as [_ Hruns].
    rewrite (extract_region_state_from st0 i reg Hst0 Hreg Hruns) in Hbody.
    injection Hbody as <-. split; [split; [lia | done]|].
    intros reg' Hreg'. congruence.
  - split; [lia|]. symmetry. apply state_from_0. by destruct Hst0 as (_ & _ & ?).
  - done.
  - split; [done|]. intros reg [i Hi]%list_elem_of_lookup. apply (Hall i); [|done].
    apply lookup_lt_Some in Hi. lia.
Qed.

(** The loop returns when the computations for every region run. *)
Lemma extraction_loop_runs (st0 : Features) :
  filled (length regions) Fs 0 st0 →
  (∀ reg, reg ∈ regions →
     region_runs Label In Ic K Fs Delta diffGn BW_cannyn diffGc BW_cannyc reg) →
  for_range
    (extract_region Label In Ic K Fs Delta regions
       diffGn BW_cannyn diffGc BW_cannyc)
    (seq 0 (length regions)) st0 =
  Some (state_from Label In Ic K Fs Delta diffGn BW_cannyn diffGc BW_cannyc
          regions st0 (length regions)).
Proof.
  intros Hst0 Hruns.
  destruct (for_range_invariant
              (λ i s, s = state_from Label In Ic K Fs Delta
                            diffGn BW_cannyn diffGc BW_cannyc regions st0 i)
              (extract_region Label In Ic K Fs Delta regions
                 diffGn BW_cannyn diffGc BW_cannyc)
              0 (length regions) st0)
    as (st & Hrun & ->).
  - intros i s Hi ->.
    destruct (lookup_lt_is_Some_2 regions i) as [reg Hreg]; [lia|].
    eexists. split; [|done]. apply (extract_region_state_from st0 i reg); [done..|].
    apply Hruns. by eapply list_elem_of_lookup_2.
  - symmetry. apply state_from_0. by destruct Hst0 as (_ & _ & ?).
  - done.
Qed.

(** The loop does not depend on what the arrays held before it: it reads
    no entry that it has not written. *)
Lemma extraction_loop_fresh (st0 : Features) :
  filled (length regions) Fs 0 st0 →
  for_range
    (extract_region Label In Ic K Fs Delta regions
       diffGn BW_cannyn diffGc BW_cannyc)
    (seq 0 (length regions)) st0 =
  for_range
    (extract_region Label In Ic K Fs Delta regions
       diffGn BW_cannyn diffGc BW_cannyc)
    (seq 0 (length regions)) (initial Fs (length regions)).
Proof.
  intros Hst0. pose proof (initial_filled Fs (length regions)) as Hinit.
  destruct (for_range _ _ st0) as [st|] eqn:Hrun;
    destruct (for_range _ _ (initial Fs (length regions))) as [st'|] eqn:Hrun'.
  - apply extraction_loop_Some_inv in Hrun as [-> _]; [|done].
    apply extraction_loop_Some_inv in Hrun' as [-> _]; [|done].
    by rewrite state_from_all.
  - apply extraction_loop_Some_inv in Hrun as [_ Hruns]; [|done].
    by rewrite (extraction_loop_runs _ Hinit Hruns) in Hrun'.
  - apply extraction_loop_Some_inv in Hrun' as [_ Hruns]; [|done].
    by rewrite (extraction_loop_runs _ Hst0 Hruns) in Hrun.
  - done.
Qed.

(** A column of the rows of the regions holds, for every region, the
    entry of its vector. *)
Lemma column_of_rows (f : RegionProperties → option (list float)) (w j : nat) :
  (j < w)%nat → (∀ reg, reg ∈ regions → returns_fitting w (f reg)) →
  ∃ col, column ((λ reg, stored_row w (f reg)) <$> regions) j = Some col ∧
         Forall2 (λ reg x, ∃ v, f reg = Some v ∧ entry j v x) regions col.
Proof.
  intros Hj Hfit.
  destruct (column_Some (length regions) w j ((λ reg, stored_row w (f reg)) <$> regions))
    as (col & Hcol & _).
  - split; [apply length_fmap|]. apply Forall_fmap, Forall_forall.
    intros reg _. apply length_stored_row.
  - done.
  - exists col. split; [done|]. unfold column in Hcol.
    apply mapM_Some_1, Forall2_fmap_l in Hcol.
    apply Forall2_same_length_lookup. split; [by eapply Forall2_length|].
    intros i reg x Hreg Hx.
    destruct (Hfit reg) as (v & Hv & Hfits); [by eapply list_elem_of_lookup_2|].
    exists v. split; [done|].
    pose proof (Forall2_lookup_lr _ _ _ _ _ _ Hcol Hreg Hx) as Hrow.
    simpl in Hrow. rewrite Hv in Hrow. by eapply stored_row_entry.
Qed.
End LoopFacts.

Section RunFacts.
Context `{Collaborators}.
Variable Label : list (list Z).
Variables In Ic : list (list float).
Variable K : Z.
Variable Fs : nat.
Variable Delta : Z.

Lemma final_filled (diffGn : list (list float)) (BW_cannyn : list (list bool))
    (diffGc : list (list float)) (BW_cannyc : list (list bool)) :
  filled (length (regionprops Label)) Fs (length (regionprops Label))
    (state_from Label In Ic K Fs Delta diffGn BW_cannyn diffGc BW_cannyc
       (regionprops Label) (initial Fs (length (regionprops Label)))
       (length (regionprops Label))).
Proof. apply state_from_filled; [apply initial_filled | done]. Qed.

(** A run that returns a table has computed the image-wide fields, the
    computations of every region have run, and the table holds the values
    of the regions. *)
Lemma FeatureExtraction_Some_inv (df : DataFrame) :
  FeatureExtraction Label In Ic K Fs Delta = Some df →
  ∃ diffGn BW_cannyn diffGc BW_cannyc,
    fields_computed In Ic diffGn BW_cannyn diffGc BW_cannyc ∧
    (∀ reg, reg ∈ regionprops Label →
       region_runs Label In Ic K Fs Delta diffGn BW_cannyn diffGc BW_cannyc reg) ∧
    df = feature_table Label In Ic K Fs Delta diffGn BW_cannyn diffGc BW_cannyc.
Proof.
  unfold FeatureExtraction. intros Hrun.
  destruct (gradient_magnitude In) as [diffGn|] eqn:E1; [|done].
  destruct (canny In) as [BW_cannyn|] eqn:E2; [|done].
  destruct (gradient_magnitude Ic) as [diffGc|] eqn:E3; [|done].
  destruct (canny Ic) as [BW_cannyc|] eqn:E4; [|done].
  rewrite !bind_Some_l in Hrun. cbv zeta in Hrun.
  destruct (for_range _ _ _) as [st|] eqn:Hloop; [|done].
  rewrite bind_Some_l in Hrun.
  apply extraction_loop_Some_inv in Hloop as [-> Hruns]; [|apply initial_filled].
  rewrite (build_table_filled Fs _ _ _ (final_filled _ _ _ _)) in Hrun.
  injection Hrun as <-. by exists diffGn, BW_cannyn, diffGc, BW_cannyc.
Qed.

(** The run returns when the image-wide fields are computed and the
    computations of every region run. *)
Lemma FeatureExtraction_runs (diffGn : list (list float)) (BW_cannyn : list (list bool))
    (diffGc : list (list float)) (BW_cannyc : list (list bool)) :
  fields_computed In Ic diffGn BW_cannyn diffGc BW_cannyc →
  (∀ reg, reg ∈ regionprops Label →
     region_runs Label In Ic K Fs Delta diffGn BW_cannyn diffGc BW_cannyc reg) →
  FeatureExtraction Label In Ic K Fs Delta =
    Some (feature_table Label In Ic K Fs Delta diffGn BW_cannyn diffGc BW_cannyc).
Proof.
  intros (E1 & E2 & E3 & E4) Hruns. unfold FeatureExtraction.
  rewrite E1, E2, E3, E4, !bind_Some_l. cbv zeta.
  rewrite (extraction_loop_runs _ _ _ _ _ _ _ _ _ _ _ _ (initial_filled Fs _) Hruns).
  rewrite bind_Some_l. apply (build_table_filled Fs _ _ _ (final_filled _ _ _ _)).
Qed.

Lemma feature_table_names (diffGn : list (list float)) (BW_cannyn : list (list bool))
    (diffGc : list (list float)) (BW_cannyc : list (list bool)) :
  (feature_table Label In Ic K Fs Delta diffGn BW_cannyn diffGc BW_cannyc).*1 =
    column_names Fs.
Proof. apply table_columns_names. Qed.

Lemma feature_table_lengths (diffGn : list (list float)) (BW_cannyn : list (list bool))
    (diffGc : list (list float)) (BW_cannyc : list (list bool)) :
  Forall (λ c, length c.2 = length (regionprops Label))
    (feature_table Label In Ic K Fs Delta diffGn BW_cannyn diffGc BW_cannyc).
Proof. eapply table_columns_lengths, final_filled. Qed.

(** The one-dimensional arrays after the loop. *)
Lemma final_scalars (diffGn : list (list float)) (BW_cannyn : list (list bool))
    (diffGc : list (list float)) (BW_cannyc : list (list bool)) :
  scalar_columns (state_from Label In Ic K Fs Delta diffGn BW_cannyn diffGc BW_cannyc
       (regionprops Label) (initial Fs (length (regionprops Label)))
       (length (regionprops Label))) =
    [("X", (λ reg, (centroid reg).1) <$> regionprops Label);
     ("Y", (λ reg, (centroid reg).2) <$> regionprops Label);
     ("Area", area <$> regionprops Label);
     ("Perimeter", perimeter <$> regionprops Label);
     ("Eccentricity", eccentricity <$> regionprops Label);
     ("Circularity",
      (λ reg, Circularity_with np_power2 (area reg) (perimeter reg))
        <$> regionprops Label);
     ("MajorAxisLength", major_axis_length <$> regionprops Label);
     ("MinorAxisLength", minor_axis_length <$> regionprops Label);
     ("Extent", extent <$> regionprops Label);
     ("Solidity", solidity <$> regionprops Label)].
Proof.
  unfold scalar_columns, state_from, initial.
  cbn [CentroidX CentroidY Area Perimeter Eccentricity Circularity
       MajorAxisLength MinorAxisLength Extent Solidity].
  by rewrite !filled_from_all by apply length_replicate.
Qed.

(** The two-dimensional arrays after the loop. *)
Lemma final_groups (diffGn : list (list float)) (BW_cannyn : list (list bool))
    (diffGc : list (list float)) (BW_cannyc : list (list bool)) (st : Features) :
  st = state_from Label In Ic K Fs Delta diffGn BW_cannyn diffGc BW_cannyc
         (regionprops Label) (initial Fs (length (regionprops Label)))
         (length (regionprops Label)) →
  FSDGroup st = FSD_of Label K Fs Delta <$> regionprops Label ∧
  (HematoxylinTextureGroup st = nucleus_texture In <$> regionprops Label ∧
   EosinTextureGroup st = cytoplasm_texture Label Ic Delta <$> regionprops Label) ∧
  (HematoxylinGradientGroup st =
     nucleus_gradient In diffGn BW_cannyn <$> regionprops Label ∧
   EosinGradientGroup st =
     cytoplasm_gradient Label Ic Delta diffGc BW_cannyc <$> regionprops Label) ∧
  (HematoxylinIntensityGroup st = nucleus_intensity In <$> regionprops Label ∧
   EosinIntensityGroup st = cytoplasm_intensity Label Ic Delta <$> regionprops Label).
Proof.
  intros ->. unfold state_from, initial, zeros2.
  cbn [FSDGroup HematoxylinTextureGroup EosinTextureGroup HematoxylinGradientGroup
       EosinGradientGroup HematoxylinIntensityGroup EosinIntensityGroup].
  by rewrite !filled_from_all by apply length_replicate.
Qed.
End RunFacts.

Section TableContents.
Variable Fs : nat.

Lemma length_FSD_columns (M : list (list float)) : length (FSD_columns Fs M) = Fs.
Proof. unfold FSD_columns. by rewrite length_fmap, length_seq. Qed.

Lemma lookup_FSD_columns (M : list (list float)) (k : nat) :
  (k < Fs)%nat →
  FSD_columns Fs M !! k = Some ("FSD" +:+ pretty (k + 1)%nat, default [] (column M k)).
Proof.
  intros Hk. unfold FSD_columns. by rewrite list_lookup_fmap, lookup_seq_lt.
Qed.

Lemma lookup_pairs {A B} (a b : A → B) (l : list A) (j : nat) :
  (l ≫= λ i, [a i; b i]) !! (2 * j)%nat = a <$> l !! j ∧
  (l ≫= λ i, [a i; b i]) !! (2 * j + 1)%nat = b <$> l !! j.
Proof.
  revert j. induction l as [|x l IH]; intros j; [done|].
  destruct j as [|j]; [done|].
  replace (2 * S j)%nat with (S (S (2 * j))) by lia.
  replace (S (S (2 * j)) + 1)%nat with (S (S (2 * j + 1))) by lia.
  apply IH.
Qed.

Lemma length_pairs {A B} (a b : A → B) (l : list A) :
  length (l ≫= λ i, [a i; b i]) = (2 * length l)%nat.
Proof.
  induction l as [|x l IH]; [done|].
  change (S (S (length (l ≫= λ i, [a i; b i]))) = (2 * S (length l))%nat).
  rewrite IH. lia.
Qed.

Lemma length_group_columns (Names : list string) (Hm Em : list (list float)) :
  length (group_columns Names Hm Em) = (2 * length Names)%nat.
Proof. unfold group_columns. by rewrite length_pairs, length_seq. Qed.

Lemma lookup_group_columns (Names : list string) (Hm Em : list (list float))
    (j : nat) (name : string) :
  Names !! j = Some name →
  group_columns Names Hm Em !! (2 * j)%nat =
    Some ("Hematoxylin" +:+ name, default [] (column Hm j)) ∧
  group_columns Names Hm Em !! (2 * j + 1)%nat =
    Some ("Cytoplasm" +:+ name, default [] (column Em j)).
Proof.
  intros Hname. pose proof (lookup_lt_Some _ _ _ Hname) as Hj.
  unfold group_columns.
  destruct (lookup_pairs
              (λ i, ("Hematoxylin" +:+ default "" (Names !! i), default [] (column Hm i)))
              (λ i, ("Cytoplasm" +:+ default "" (Names !! i), default [] (column Em i)))
              (seq 0 (length Names)) j) as [-> ->].
  rewrite lookup_seq_lt by done. simpl. by rewrite Hname.
Qed.
End TableContents.

Section TableLookup.
Variable Fs : nat.
Variable st : Features.

Lemma table_lookup_FSD (k : nat) :
  (k < Fs)%nat →
  table_columns Fs st !! (10 + k)%nat = FSD_columns Fs (FSDGroup st) !! k.
Proof.
  intros Hk. unfold table_columns.
  rewrite lookup_app_r by (simpl; lia).
  rewrite lookup_app_l by (rewrite length_FSD_columns; simpl; lia).
  f_equal. simpl. lia.
Qed.

Lemma table_lookup_texture (i : nat) :
  (i < 8)%nat →
  table_columns Fs st !! (10 + Fs + i)%nat =
    group_columns TextureNames
      (HematoxylinTextureGroup st) (EosinTextureGroup st) !! i.
Proof.
  intros Hi. unfold table_columns.
  rewrite lookup_app_r by (simpl; lia).
  rewrite lookup_app_r by (rewrite length_FSD_columns; simpl; lia).
  rewrite lookup_app_l by (rewrite length_group_columns, length_FSD_columns; simpl; lia).
  f_equal. rewrite length_FSD_columns. simpl. lia.
Qed.

Lemma table_lookup_gradient (i : nat) :
  (i < 16)%nat →
  table_columns Fs st !! (10 + Fs + 8 + i)%nat =
    group_columns GradientNames
      (HematoxylinGradientGroup st) (EosinGradientGroup st) !! i.
Proof.
  intros Hi. unfold table_columns.
  rewrite lookup_app_r by (simpl; lia).
  rewrite lookup_app_r by (rewrite length_FSD_columns; simpl; lia).
  rewrite lookup_app_r by (rewrite length_group_columns, length_FSD_columns; simpl; lia).
  rewrite lookup_app_l
    by (rewrite !length_group_columns, length_FSD_columns; simpl; lia).
  f_equal. rewrite length_group_columns, length_FSD_columns. simpl. lia.
Qed.

Lemma table_lookup_intensity (i : nat) :
  (i < 10)%nat →
  table_columns Fs st !! (10 + Fs + 24 + i)%nat =
    group_columns IntensityNames
      (HematoxylinIntensityGroup st) (EosinIntensityGroup st) !! i.
Proof.
  intros Hi. unfold table_columns.
  rewrite lookup_app_r by (simpl; lia).
  rewrite lookup_app_r by (rewrite length_FSD_columns; simpl; lia).
  rewrite lookup_app_r by (rewrite length_group_columns, length_FSD_columns; simpl; lia).
  rewrite lookup_app_r
    by (rewrite !length_group_columns, length_FSD_columns; simpl; lia).
  f_equal. rewrite !length_group_columns, length_FSD_columns. simpl. lia.
Qed.
End TableLookup.

Section TableTheorems.
Context `{Collaborators}.
Variable Label : list (list Z).
Variables In Ic : list (list float).
Variable K : Z.
Variable Fs : nat.
Variable Delta : Z.

(** C7.  A table that the extraction returns has the documented columns,
    in order, and exactly one row for every distinct positive label.  The
    extraction returns a table whenever the image-wide fields are computed
    and the computations for every region run.  For a label image of zeros
    no region is visited: once the image-wide fields are computed, the
    table has all its columns, each of length zero. *)
Theorem table_has_one_row_per_label :
  (∀ df, FeatureExtraction Label In Ic K Fs Delta = Some df →
     df.*1 = column_names Fs ∧
     Forall (λ c, length c.2 = num_labels Label) df) ∧
  (∀ diffGn BW_cannyn diffGc BW_cannyc,
     fields_computed In Ic diffGn BW_cannyn diffGc BW_cannyc →
     (∀ reg, reg ∈ regionprops Label →
        region_runs Label In Ic K Fs Delta diffGn BW_cannyn diffGc BW_cannyc reg) →
     ∃ df, FeatureExtraction Label In Ic K Fs Delta = Some df) ∧
  ((∀ v, v ∈ mjoin Label → v = 0) →
     num_labels Label = 0%nat ∧
     ∀ diffGn BW_cannyn diffGc BW_cannyc,
       fields_computed In Ic diffGn BW_cannyn diffGc BW_cannyc →
       FeatureExtraction Label In Ic K Fs Delta =
         Some ((λ name, (name, [])) <$> column_names Fs)).
Proof.
  split_and!.
  - intros df Hdf.
    destruct (FeatureExtraction_Some_inv Label In Ic K Fs Delta df Hdf)
      as (dn & bn & dc & bc & _ & _ & ->).
    split; [apply feature_table_names|].
    rewrite <- length_regionprops_num_labels. apply feature_table_lengths.
  - intros dn bn dc bc Hfields Hruns. eexists.
    by apply (FeatureExtraction_runs Label In Ic K Fs Delta dn bn dc bc).
  - intros Hzero.
    assert (region_labels Label = []) as Hnone.
    { destruct (region_labels Label) as [|l ls] eqn:Hl; [done|].
      assert (l ∈ region_labels Label) as Hin by (rewrite Hl; left).
      apply elem_of_region_labels in Hin as [Hpos Hin]. apply Hzero in Hin. lia. }
    assert (regionprops Label = []) as Hregions.
    { unfold regionprops. by rewrite Hnone. }
    split.
    { by rewrite <- length_regionprops_num_labels, Hregions. }
    intros dn bn dc bc Hfields.
    rewrite (FeatureExtraction_runs Label In Ic K Fs Delta dn bn dc bc Hfields).
    + f_equal. rewrite <- (feature_table_names Label In Ic K Fs Delta dn bn dc bc).
      apply empty_columns.
      pose proof (feature_table_lengths Label In Ic K Fs Delta dn bn dc bc) as Hlen.
      by rewrite Hregions in Hlen.
    + intros reg Hreg. rewrite Hregions in Hreg. by apply elem_of_nil in Hreg.
Qed.

(** C4.  The circularity is 0 when the perimeter is zero; otherwise it is
    [4 * pi * Area] divided by the power [Perimeter ** 2], in float64.  The
    second part needs that the power is not zero, which an accurate power
    ensures for every perimeter of magnitude from [2^-536] on.  The
    Circularity column of a returned table holds this value for every
    region, from the area and the perimeter of that region. *)
Theorem circularity_guard :
  power_is_accurate →
  (∀ Area Perimeter,
     (truthy Perimeter = false →
        Circularity_with np_power2 Area Perimeter = fzero) ∧
     (truthy Perimeter = true → square_safe Perimeter →
        truthy (np_power2 Perimeter) = true ∧
        Circularity_with np_power2 Area Perimeter =
          fdiv (fmul (fmul four np_pi) Area) (np_power2 Perimeter))) ∧
  (∀ df, FeatureExtraction Label In Ic K Fs Delta = Some df →
     ∃ col, df !! 5%nat = Some ("Circularity", col) ∧
       Forall2 (λ reg v,
                  (truthy (perimeter reg) = false → v = fzero) ∧
                  (truthy (perimeter reg) = true → square_safe (perimeter reg) →
                     v = fdiv (fmul (fmul four np_pi) (area reg))
                              (np_power2 (perimeter reg))))
         (regionprops Label) col).
Proof.
  intros Hpower. split.
  - intros Area Perimeter. by apply circularity_with_guard.
  - intros df Hdf.
    destruct (FeatureExtraction_Some_inv Label In Ic K Fs Delta df Hdf)
      as (dn & bn & dc & bc & _ & _ & ->).
    eexists. split.
    + unfold feature_table, table_columns. rewrite final_scalars. reflexivity.
    + apply Forall2_fmap_r, Forall_Forall2_diag, Forall_forall. intros reg _.
      destruct (circularity_with_guard (area reg) (perimeter reg) Hpower)
        as [Hzero Hnonzero].
      split; [done|]. intros Hnz Hsafe. by apply Hnonzero.
Qed.

(** X1.  The first ten columns of a returned table hold, for the regions
    in the order of [regionprops], the centroid row and column, the area,
    the perimeter, the eccentricity, the circularity computed from area and
    perimeter, the axis lengths, the extent and the solidity, unchanged. *)
Theorem table_scalar_columns (df : DataFrame) :
  FeatureExtraction Label In Ic K Fs Delta = Some df →
  ∃ rest,
    df = [("X", (λ reg, (centroid reg).1) <$> regionprops Label);
          ("Y", (λ reg, (centroid reg).2) <$> regionprops Label);
          ("Area", area <$> regionprops Label);
          ("Perimeter", perimeter <$> regionprops Label);
          ("Eccentricity", eccentricity <$> regionprops Label);
          ("Circularity",
           (λ reg, Circularity_with np_power2 (area reg) (perimeter reg))
             <$> regionprops Label);
          ("MajorAxisLength", major_axis_length <$> regionprops Label);
          ("MinorAxisLength", minor_axis_length <$> regionprops Label);
          ("Extent", extent <$> regionprops Label);
          ("Solidity", solidity <$> regionprops Label)] ++ rest.
Proof.
  intros Hdf.
  destruct (FeatureExtraction_Some_inv Label In Ic K Fs Delta df Hdf)
    as (dn & bn & dc & bc & _ & _ & ->).
  unfold feature_table, table_columns. rewrite final_scalars.
  eexists. reflexivity.
Qed.

(** X2.  Column [10 + k] of a returned table is [FSD(k+1)]; its entry for
    a region is entry [k] of the shape descriptors computed from the
    nucleus mask of the region. *)
Theorem table_FSD_column (k : nat) (df : DataFrame) :
  FeatureExtraction Label In Ic K Fs Delta = Some df → (k < Fs)%nat →
  ∃ col,
    df !! (10 + k)%nat = Some ("FSD" +:+ pretty (k + 1)%nat, col) ∧
    Forall2 (λ reg x, ∃ v, ComputeFSDs (Nucleus Label Delta reg) K Fs = Some v ∧
                           entry k v x)
      (regionprops Label) col.
Proof.
  intros Hdf Hk.
  destruct (FeatureExtraction_Some_inv Label In Ic K Fs Delta df Hdf)
    as (dn & bn & dc & bc & _ & Hruns & ->).
  destruct (column_of_rows (regionprops Label)
              (λ reg, ComputeFSDs (Nucleus Label Delta reg) K Fs) Fs k Hk)
    as (col & Hcol & Hall).
  { intros reg Hreg. by destruct (Hruns reg Hreg) as (? & _). }
  exists col. split; [|done].
  unfold feature_table. rewrite table_lookup_FSD, lookup_FSD_columns by done.
  destruct (final_groups Label In Ic K Fs Delta dn bn dc bc _ eq_refl) as (-> & _).
  unfold FSD_of. by rewrite Hcol.
Qed.

(** X3.  The texture columns of a returned table come in pairs: for the
    texture feature [j], the Hematoxylin column is computed from the
    nucleus image on the pixels of the region, the Cytoplasm column from
    the cytoplasm image on the cytoplasm pixels of the region. *)
Theorem table_texture_columns (j : nat) (name : string) (df : DataFrame) :
  FeatureExtraction Label In Ic K Fs Delta = Some df →
  TextureNames !! j = Some name →
  ∃ colH colC,
    df !! (10 + Fs + 2 * j)%nat = Some ("Hematoxylin" +:+ name, colH) ∧
    df !! (10 + Fs + 2 * j + 1)%nat = Some ("Cytoplasm" +:+ name, colC) ∧
    Forall2 (λ reg x, ∃ v, ComputeTextureFeatures In (coords reg) = Some v ∧
                           entry j v x)
      (regionprops Label) colH ∧
    Forall2 (λ reg x, ∃ v, ComputeTextureFeatures Ic (regionCoords Label Delta reg)
                             = Some v ∧ entry j v x)
      (regionprops Label) colC.
Proof.
  intros Hdf Hname. pose proof (lookup_lt_Some _ _ _ Hname) as Hj. simpl in Hj.
  destruct (FeatureExtraction_Some_inv Label In Ic K Fs Delta df Hdf)
    as (dn & bn & dc & bc & _ & Hruns & ->).
  destruct (column_of_rows (regionprops Label)
              (λ reg, ComputeTextureFeatures In (coords reg)) 4 j Hj)
    as (colH & HcolH & HallH).
  { intros reg Hreg. by destruct (Hruns reg Hreg) as (_ & ? & _). }
  destruct (column_of_rows (regionprops Label)
              (λ reg, ComputeTextureFeatures Ic (regionCoords Label Delta reg)) 4 j Hj)
    as (colC & HcolC & HallC).
  { intros reg Hreg. by destruct (Hruns reg Hreg) as (_ & _ & _ & _ & _ & ? & _). }
  exists colH, colC. split_and!; [| |done|done]; unfold feature_table.
  - rewrite table_lookup_texture by lia.
    rewrite (proj1 (lookup_group_columns TextureNames _ _ j name Hname)).
    destruct (final_groups Label In Ic K Fs Delta dn bn dc bc _ eq_refl)
      as (_ & (-> & _) & _).
    unfold nucleus_texture. by rewrite HcolH.
  - replace (10 + Fs + 2 * j + 1)%nat with (10 + Fs + (2 * j + 1))%nat by lia.
    rewrite table_lookup_texture by lia.
    rewrite (proj2 (lookup_group_columns TextureNames _ _ j name Hname)).
    destruct (final_groups Label In Ic K Fs Delta dn bn dc bc _ eq_refl)
      as (_ & (_ & ->) & _).
    unfold cytoplasm_texture. by rewrite HcolC.
Qed.

(** X4.  The gradient columns of a returned table: the Hematoxylin column
    uses the gradient magnitude and the edge map of the nucleus image on
    the pixels of the region, the Cytoplasm column those of the cytoplasm
    image on the cytoplasm pixels. *)
Theorem table_gradient_columns (j : nat) (name : string) (df : DataFrame) :
  FeatureExtraction Label In Ic K Fs Delta = Some df →
  GradientNames !! j = Some name →
  ∃ diffGn BW_cannyn diffGc BW_cannyc colH colC,
    fields_computed In Ic diffGn BW_cannyn diffGc BW_cannyc ∧
    df !! (10 + Fs + 8 + 2 * j)%nat = Some ("Hematoxylin" +:+ name, colH) ∧
    df !! (10 + Fs + 8 + 2 * j + 1)%nat = Some ("Cytoplasm" +:+ name, colC) ∧
    Forall2 (λ reg x, ∃ v, ComputeGradientFeatures In (coords reg)
                             diffGn BW_cannyn = Some v ∧ entry j v x)
      (regionprops Label) colH ∧
    Forall2 (λ reg x, ∃ v, ComputeGradientFeatures Ic (regionCoords Label Delta reg)
                             diffGc BW_cannyc = Some v ∧ entry j v x)
      (regionprops Label) colC.
Proof.
  intros Hdf Hname. pose proof (lookup_lt_Some _ _ _ Hname) as Hj. simpl in Hj.
  destruct (FeatureExtraction_Some_inv Label In Ic K Fs Delta df Hdf)
    as (dn & bn & dc & bc & Hfields & Hruns & ->).
  destruct (column_of_rows (regionprops Label)
              (λ reg, ComputeGradientFeatures In (coords reg) dn bn) 8 j Hj)
    as (colH & HcolH & HallH).
  { intros reg Hreg. by destruct (Hruns reg Hreg) as (_ & _ & ? & _). }
  destruct (column_of_rows (regionprops Label)
              (λ reg, ComputeGradientFeatures Ic (regionCoords Label Delta reg) dc bc)
              8 j Hj)
    as (colC & HcolC & HallC).
  { intros reg Hreg. by destruct (Hruns reg Hreg) as (_ & _ & _ & _ & _ & _ & ? & _). }
  exists dn, bn, dc, bc, colH, colC.
  split_and!; [done| | |done|done]; unfold feature_table.
  - rewrite table_lookup_gradient by lia.
    rewrite (proj1 (lookup_group_columns GradientNames _ _ j name Hname)).
    destruct (final_groups Label In Ic K Fs Delta dn bn dc bc _ eq_refl)
      as (_ & _ & (-> & _) & _).
    unfold nucleus_gradient. by rewrite HcolH.
  - replace (10 + Fs + 8 + 2 * j + 1)%nat with (10 + Fs + 8 + (2 * j + 1))%nat by lia.
    rewrite table_lookup_gradient by lia.
    rewrite (proj2 (lookup_group_columns GradientNames _ _ j name Hname)).
    destruct (final_groups Label In Ic K Fs Delta dn bn dc bc _ eq_refl)
      as (_ & _ & (_ & ->) & _).
    unfold cytoplasm_gradient. by rewrite HcolC.
Qed.

(** X5.  The intensity columns of a returned table: the Hematoxylin column
    is computed from the nucleus image on the pixels of the region, the
    Cytoplasm column from the cytoplasm image on the cytoplasm pixels. *)
Theorem table_intensity_columns (j : nat) (name : string) (df : DataFrame) :
  FeatureExtraction Label In Ic K Fs Delta = Some df →
  IntensityNames !! j = Some name →
  ∃ colH colC,
    df !! (10 + Fs + 24 + 2 * j)%nat = Some ("Hematoxylin" +:+ name, colH) ∧
    df !! (10 + Fs + 24 + 2 * j + 1)%nat = Some ("Cytoplasm" +:+ name, colC) ∧
    Forall2 (λ reg x, ∃ v, ComputeIntensityFeatures In (coords reg) = Some v ∧
                           entry j v x)
      (regionprops Label) colH ∧
    Forall2 (λ reg x, ∃ v, ComputeIntensityFeatures Ic (regionCoords Label Delta reg)
                             = Some v ∧ entry j v x)
      (regionprops Label) colC.
Proof.
  intros Hdf Hname. pose proof (lookup_lt_Some _ _ _ Hname) as Hj. simpl in Hj.
  destruct (FeatureExtraction_Some_inv Label In Ic K Fs Delta df Hdf)
    as (dn & bn & dc & bc & _ & Hruns & ->).
  destruct (column_of_rows (regionprops Label)
              (λ reg, ComputeIntensityFeatures In (coords reg)) 5 j Hj)
    as (colH & HcolH & HallH).
  { intros reg Hreg. by destruct (Hruns reg Hreg) as (_ & _ & _ & ? & _). }
  destruct (column_of_rows (regionprops Label)
              (λ reg, ComputeIntensityFeatures Ic (regionCoords Label Delta reg)) 5 j Hj)
    as (colC & HcolC & HallC).
  { intros reg Hreg. by destruct (Hruns reg Hreg) as (_ & _ & _ & _ & _ & _ & _ & ?). }
  exists colH, colC. split_and!; [| |done|done]; unfold feature_table.
  - rewrite table_lookup_intensity by lia.
    rewrite (proj1 (lookup_group_columns IntensityNames _ _ j name Hname)).
    destruct (final_groups Label In Ic K Fs Delta dn bn dc bc _ eq_refl)
      as (_ & _ & _ & (-> & _)).
    unfold nucleus_intensity. by rewrite HcolH.
  - replace (10 + Fs + 24 + 2 * j + 1)%nat with (10 + Fs + 24 + (2 * j + 1))%nat by lia.
    rewrite table_lookup_intensity by lia.
    rewrite (proj2 (lookup_group_columns IntensityNames _ _ j name Hname)).
    destruct (final_groups Label In Ic K Fs Delta dn bn dc bc _ eq_refl)
      as (_ & _ & _ & (_ & ->)).
    unfold cytoplasm_intensity. by rewrite HcolC.
Qed.

(** X14.  The extraction returns a table exactly when the gradient
    magnitudes and the edge maps of the two intensity images are computed
    and, for every region, the margin is not negative and each of the seven
    feature computations returns a vector that has the width of its group
    or a single entry.  Anything else makes the whole call fail, with no
    partial table: a table that is returned has all columns and one row
    per region. *)
Theorem extraction_succeeds_iff_vectors_fit :
  (is_Some (FeatureExtraction Label In Ic K Fs Delta) ↔
   ∃ diffGn BW_cannyn diffGc BW_cannyc,
     fields_computed In Ic diffGn BW_cannyn diffGc BW_cannyc ∧
     ∀ reg, reg ∈ regionprops Label →
       region_runs Label In Ic K Fs Delta diffGn BW_cannyn diffGc BW_cannyc reg) ∧
  (∀ df, FeatureExtraction Label In Ic K Fs Delta = Some df →
     df.*1 = column_names Fs ∧
     Forall (λ c, length c.2 = length (regionprops Label)) df).
Proof.
  split; [split|].
  - intros [df Hdf].
    destruct (FeatureExtraction_Some_inv Label In Ic K Fs Delta df Hdf)
      as (dn & bn & dc & bc & Hfields & Hruns & _).
    by exists dn, bn, dc, bc.
  - intros (dn & bn & dc & bc & Hfields & Hruns).
    by rewrite (FeatureExtraction_runs Label In Ic K Fs Delta dn bn dc bc).
  - intros df Hdf.
    destruct (FeatureExtraction_Some_inv Label In Ic K Fs Delta df Hdf)
      as (dn & bn & dc & bc & _ & _ & ->).
    split; [apply feature_table_names | apply feature_table_lengths].
Qed.

(** X15.  The names of the columns are pairwise distinct for every number
    of frequency bins, so no assignment overwrites a column: a returned
    table has [44 + Fs] columns. *)
Theorem table_has_distinct_columns (df : DataFrame) :
  FeatureExtraction Label In Ic K Fs Delta = Some df →
  NoDup df.*1 ∧ length df = (44 + Fs)%nat.
Proof.
  intros Hdf.
  destruct (FeatureExtraction_Some_inv Label In Ic K Fs Delta df Hdf)
    as (dn & bn & dc & bc & _ & _ & ->).
  split.
  - rewrite feature_table_names. apply NoDup_column_names.
  - rewrite <- (length_fmap fst), feature_table_names.
    unfold column_names, FSD_names.
    rewrite !length_app, length_fmap, length_seq. simpl. lia.
Qed.
End TableTheorems.

(** C9.  Two runs on the same label image, intensity images and
    parameters give equal results, a table or an error, as soon as the
    collaborators return the same values in both runs for the calls that a
    run makes: the measurements of the labels of the image, the power of
    the perimeters, the fields of the two intensity images and the feature
    computations on the masks and pixels of every region.  Nothing else
    enters the result; in particular the loop reads no entry of its arrays
    that it has not written, so that the result does not depend on what
    the arrays hold before the loop. *)
Theorem extraction_deterministic (C C' : Collaborators)
    (Label : list (list Z)) (In Ic : list (list float)) (K : Z) (Fs : nat) (Delta : Z) :
  agree_on_run C C' Label In Ic K Fs Delta →
  @FeatureExtraction C Label In Ic K Fs Delta =
    @FeatureExtraction C' Label In Ic K Fs Delta ∧
  ∀ diffGn BW_cannyn diffGc BW_cannyc st0,
    filled (length (@regionprops C Label)) Fs 0 st0 →
    for_range (@extract_region C Label In Ic K Fs Delta (@regionprops C Label)
                 diffGn BW_cannyn diffGc BW_cannyc)
      (seq 0 (length (@regionprops C Label))) st0 =
    for_range (@extract_region C Label In Ic K Fs Delta (@regionprops C Label)
                 diffGn BW_cannyn diffGc BW_cannyc)
      (seq 0 (length (@regionprops C Label)))
      (initial Fs (length (@regionprops C Label))).
Proof.
  intros (Hmeas & (Hg1 & Hg2 & Hc1 & Hc2) & Hcalls). split.
  - assert (@regionprops C' Label = @regionprops C Label) as Hregions.
    { unfold regionprops. apply list_fmap_ext. intros i l Hl. cbv beta zeta.
      rewrite Hmeas; [done|]. by eapply list_elem_of_lookup_2. }
    assert (∀ I, @np_gradient C I = @np_gradient C' I →
                 @gradient_magnitude C' I = @gradient_magnitude C I) as Hmag.
    { intros I HI. unfold gradient_magnitude. by rewrite HI. }
    unfold FeatureExtraction.
    rewrite Hregions, (Hmag In Hg1), (Hmag Ic Hg2), <- Hc1, <- Hc2.
    destruct (@gradient_magnitude C In) as [diffGn|] eqn:E1; [|done].
    destruct (@canny C In) as [BW_cannyn|] eqn:E2; [|done].
    destruct (@gradient_magnitude C Ic) as [diffGc|] eqn:E3; [|done].
    destruct (@canny C Ic) as [BW_cannyc|] eqn:E4; [|done].
    rewrite !bind_Some_l. cbv zeta. f_equal.
    apply for_range_ext. intros i st _. unfold extract_region.
    destruct (@regionprops C Label !! i) as [reg|] eqn:Hreg; [|done].
    rewrite !bind_Some_l.
    destruct (Hcalls reg) as (Hp & HF & (HT & HI & HG) & (HT' & HI' & HG'));
      [by eapply list_elem_of_lookup_2|].
    apply setitem_bind; intros CentroidX' _.
    apply setitem_bind; intros CentroidY' _.
    apply setitem_bind; intros Area' HArea.
    apply setitem_bind; intros Perimeter' HPerimeter.
    apply setitem_bind; intros Eccentricity' _.
    rewrite HArea, HPerimeter, !bind_Some_l. unfold Circularity_with.
    rewrite <- Hp. cbv zeta.
    rewrite <- HF, <- HT, <- HI, <- (HG _ _ eq_refl eq_refl).
    unfold Disk. rewrite !dilation_call_disk.
    case_decide;
      repeat lazymatch goal with
      | |- (Some _ ≫= _) = _ => fail
      | |- (None ≫= _) = _ => fail
      | |- (_ ≫= _) = (_ ≫= _) => apply option_bind_ext_fun; intros ?
      end; [|done].
    rewrite !bind_Some_l.
    change (fmap _ (Array.argwhere (logical_xor (Mask Label Delta reg)
              (dilation (Nucleus Label Delta reg) (disk Delta)))))
      with (regionCoords Label Delta reg).
    by rewrite <- HT', <- HI', <- (HG' _ _ eq_refl eq_refl).
  - intros diffGn BW_cannyn diffGc BW_cannyc st0 Hst0.
    by apply extraction_loop_fresh.
Qed.

Section SampleRuns.

Lemma within_ulp_refl (x : float) : within_ulp x x.
Proof.
  destruct x as [s|s| |s m e]; simpl; try done. split; [done|].
  rewrite Z.min_id, Z.sub_diag. simpl. lia.
Qed.

(** The sample power is accurate, and at [sample_perimeter] it is not the
    correctly rounded square: the circularity of a region of area 40 and
    that perimeter is one unit in the last place above the one that the
    correctly rounded square gives. *)
Lemma sample_power2_is_accurate : @power_is_accurate counting_collaborators.
Proof.
  split; [by intros []|]. intros p.
  assert (p = sample_perimeter ∨ sample_power2 p = fmul p p) as [->|Hp].
  { destruct p as [s|s| |[] m e]; auto.
    destruct (decide (m = 8775733804754615%positive)) as [->|Hm];
      [destruct (decide (e = -48)) as [->|He]; [by left|]|]; right.
    - unfold sample_power2. by destruct e as [|e|e]; try done;
        repeat (destruct e as [e|e|]; try done).
    - unfold sample_power2. by repeat (destruct m as [m|m|]; try done). }
  - cbn [np_power2 counting_collaborators]. vm_compute.
    split; [reflexivity | discriminate].
  - cbn [np_power2 counting_collaborators]. rewrite Hp. apply within_ulp_refl.
Qed.

Example circularity_of_sample_perimeter :
  Circularity_with sample_power2 forty sample_perimeter =
    S754_finite false 4657708733480001 (-53) ∧
  Circularity_of forty sample_perimeter =
    S754_finite false 4657708733480000 (-53).
Proof. split; vm_compute; reflexivity. Qed.

Lemma sample_run :
  @FeatureExtraction counting_collaborators
    adjacent_regions flat_intensity flat_intensity 128 6 2 = Some sample_table.
Proof. vm_compute. reflexivity. Qed.

Lemma sample_fields :
  @fields_computed counting_collaborators flat_intensity flat_intensity
    flat_intensity no_edges flat_intensity no_edges.
Proof. unfold fields_computed. split_and!; vm_compute; reflexivity. Qed.

Lemma sample_regions :
  @regionprops counting_collaborators adjacent_regions =
    [{| label := 1; bbox := (3, 3, 5, 5);
        coords := [(3, 3); (3, 4); (4, 3); (4, 4)];
        measurements := counting_measurements adjacent_regions 1 |};
     {| label := 2; bbox := (1, 5, 5, 6);
        coords := [(1, 5); (2, 5); (3, 5); (4, 5)];
        measurements := counting_measurements adjacent_regions 2 |}].
Proof. vm_compute. reflexivity. Qed.

Lemma sample_regions_run (reg : RegionProperties) :
  reg ∈ @regionprops counting_collaborators adjacent_regions →
  @region_runs counting_collaborators adjacent_regions flat_intensity flat_intensity
    128 6 2 flat_intensity no_edges flat_intensity no_edges reg.
Proof.
  rewrite sample_regions. intros Hreg.
  apply elem_of_cons in Hreg as [->|Hreg];
    [|apply elem_of_cons in Hreg as [->|Hreg]; [|by apply elem_of_nil in Hreg]].
  all: unfold region_runs, returns_fitting, fits; split_and!; try done;
    eexists; (split; [reflexivity|]); vm_compute; auto.
Qed.

Lemma blank_fields :
  @fields_computed counting_collaborators blank_intensity blank_intensity
    blank_intensity (Array.map2d (λ _, false) blank_image)
    blank_intensity (Array.map2d (λ _, false) blank_image).
Proof. unfold fields_computed. split_and!; vm_compute; reflexivity. Qed.

Lemma other_collaborators_agree :
  agree_on_run counting_collaborators other_collaborators
    adjacent_regions flat_intensity flat_intensity 128 6 2.
Proof.
  unfold agree_on_run, other_collaborators.
  cbn [region_measurements np_power2 np_gradient canny ComputeFSDs
       ComputeTextureFeatures ComputeGradientFeatures ComputeIntensityFeatures].
  split; [|split].
  - intros l Hl. assert (region_labels adjacent_regions = [1; 2]) as Hlabels
      by (vm_compute; reflexivity).
    rewrite Hlabels in Hl.
    apply elem_of_cons in Hl as [->|Hl]; [by rewrite decide_True by lia|].
    apply elem_of_cons in Hl as [->|Hl]; [by rewrite decide_True by lia|].
    apply elem_of_nil in Hl as [].
  - by split_and!.
  - intros reg _. rewrite decide_True by done. by split_and!.
Qed.
End SampleRuns.

Lemma table_has_one_row_per_label_witness :
  (sample_table.*1 = column_names 6 ∧
   Forall (λ c, length c.2 = num_labels adjacent_regions) sample_table) ∧
  (∃ df, @FeatureExtraction counting_collaborators
           adjacent_regions flat_intensity flat_intensity 128 6 2 = Some df) ∧
  (num_labels blank_image = 0%nat ∧
   @FeatureExtraction counting_collaborators
     blank_image blank_intensity blank_intensity 128 6 2 =
     Some ((λ name, (name, [])) <$> column_names 6)).
Proof.
  split; [|split].
  - apply (table_has_one_row_per_label (H:=counting_collaborators)
             adjacent_regions flat_intensity flat_intensity 128 6 2).
    exact sample_run.
  - apply (proj1 (proj2 (table_has_one_row_per_label (H:=counting_collaborators)
             adjacent_regions flat_intensity flat_intensity 128 6 2))
             flat_intensity no_edges flat_intensity no_edges).
    + exact sample_fields.
    + exact sample_regions_run.
  - destruct (proj2 (proj2 (table_has_one_row_per_label (H:=counting_collaborators)
                blank_image blank_intensity blank_intensity 128 6 2)))
      as [Hnone Hrun].
    + intros v Hv. vm_compute in Hv.
      repeat (apply elem_of_cons in Hv as [->|Hv]; [done|]).
      by apply elem_of_nil in Hv.
    + split; [exact Hnone|]. eapply Hrun. exact blank_fields.
Defined.

Lemma circularity_guard_witness :
  Circularity_with (@np_power2 counting_collaborators) forty (S754_zero true) =
    fzero ∧
  (truthy (@np_power2 counting_collaborators sample_perimeter) = true ∧
   Circularity_with (@np_power2 counting_collaborators) forty sample_perimeter =
     fdiv (fmul (fmul four np_pi) forty)
          (@np_power2 counting_collaborators sample_perimeter)) ∧
  ∃ col, sample_table !! 5%nat = Some ("Circularity", col) ∧
    Forall2 (λ reg v,
               (truthy (perimeter reg) = false → v = fzero) ∧
               (truthy (perimeter reg) = true → square_safe (perimeter reg) →
                  v = fdiv (fmul (fmul four np_pi) (area reg))
                           (@np_power2 counting_collaborators (perimeter reg))))
      (@regionprops counting_collaborators adjacent_regions) col.
Proof.
  destruct (circularity_guard (H:=counting_collaborators)
              adjacent_regions flat_intensity flat_intensity 128 6 2
              sample_power2_is_accurate)
    as [Hguard Htable].
  split; [|split].
  - apply (Hguard forty (S754_zero true)). reflexivity.
  - apply (Hguard forty sample_perimeter); [reflexivity|].
    unfold square_safe, sample_perimeter. simpl. lia.
  - apply Htable. exact sample_run.
Defined.

Lemma extraction_deterministic_witness :
  @FeatureExtraction counting_collaborators
    adjacent_regions flat_intensity flat_intensity 128 6 2 =
  @FeatureExtraction other_collaborators
    adjacent_regions flat_intensity flat_intensity 128 6 2.
Proof.
  apply (extraction_deterministic counting_collaborators other_collaborators
           adjacent_regions flat_intensity flat_intensity 128 6 2).
  exact other_collaborators_agree.
Defined.

Lemma table_scalar_columns_witness :
  ∃ rest,
    sample_table =
      [("X", (λ reg, (centroid reg).1)
               <$> @regionprops counting_collaborators adjacent_regions);
       ("Y", (λ reg, (centroid reg).2)
               <$> @regionprops counting_collaborators adjacent_regions);
       ("Area", area <$> @regionprops counting_collaborators adjacent_regions);
       ("Perimeter",
        perimeter <$> @regionprops counting_collaborators adjacent_regions);
       ("Eccentricity",
        eccentricity <$> @regionprops counting_collaborators adjacent_regions);
       ("Circularity",
        (λ reg, Circularity_with (@np_power2 counting_collaborators)
                  (area reg) (perimeter reg))
          <$> @regionprops counting_collaborators adjacent_regions);
       ("MajorAxisLength",
        major_axis_length <$> @regionprops counting_collaborators adjacent_regions);
       ("MinorAxisLength",
        minor_axis_length <$> @regionprops counting_collaborators adjacent_regions);
       ("Extent", extent <$> @regionprops counting_collaborators adjacent_regions);
       ("Solidity",
        solidity <$> @regionprops counting_collaborators adjacent_regions)]
      ++ rest.
Proof.
  apply (table_scalar_columns (H:=counting_collaborators)
           adjacent_regions flat_intensity flat_intensity 128 6 2).
  exact sample_run.
Defined.

Lemma table_FSD_column_witness :
  ∃ col,
    sample_table !! (10 + 5)%nat = Some ("FSD" +:+ pretty (5 + 1)%nat, col) ∧
    Forall2 (λ reg x, ∃ v,
               @ComputeFSDs counting_collaborators
                 (Nucleus adjacent_regions 2 reg) 128 6 = Some v ∧ entry 5 v x)
      (@regionprops counting_collaborators adjacent_regions) col.
Proof.
  apply (table_FSD_column (H:=counting_collaborators)
           adjacent_regions flat_intensity flat_intensity 128 6 2 5).
  - exact sample_run.
  - lia.
Defined.

Lemma table_texture_columns_witness :
  ∃ colH colC,
    sample_table !! (10 + 6 + 2 * 1)%nat = Some ("Hematoxylin" +:+ "Energy", colH) ∧
    sample_table !! (10 + 6 + 2 * 1 + 1)%nat = Some ("Cytoplasm" +:+ "Energy", colC) ∧
    Forall2 (λ reg x, ∃ v,
               @ComputeTextureFeatures counting_collaborators
                 flat_intensity (coords reg) = Some v ∧ entry 1 v x)
      (@regionprops counting_collaborators adjacent_regions) colH ∧
    Forall2 (λ reg x, ∃ v,
               @ComputeTextureFeatures counting_collaborators
                 flat_intensity (regionCoords adjacent_regions 2 reg) = Some v ∧
               entry 1 v x)
      (@regionprops counting_collaborators adjacent_regions) colC.
Proof.
  apply (table_texture_columns (H:=counting_collaborators)
           adjacent_regions flat_intensity flat_intensity 128 6 2 1 "Energy").
  - exact sample_run.
  - reflexivity.
Defined.

Lemma table_gradient_columns_witness :
  ∃ diffGn BW_cannyn diffGc BW_cannyc colH colC,
    @fields_computed counting_collaborators flat_intensity flat_intensity
      diffGn BW_cannyn diffGc BW_cannyc ∧
    sample_table !! (10 + 6 + 8 + 2 * 6)%nat =
      Some ("Hematoxylin" +:+ "SumCanny", colH) ∧
    sample_table !! (10 + 6 + 8 + 2 * 6 + 1)%nat =
      Some ("Cytoplasm" +:+ "SumCanny", colC) ∧
    Forall2 (λ reg x, ∃ v,
               @ComputeGradientFeatures counting_collaborators
                 flat_intensity (coords reg) diffGn BW_cannyn = Some v ∧
               entry 6 v x)
      (@regionprops counting_collaborators adjacent_regions) colH ∧
    Forall2 (λ reg x, ∃ v,
               @ComputeGradientFeatures counting_collaborators
                 flat_intensity (regionCoords adjacent_regions 2 reg)
                 diffGc BW_cannyc = Some v ∧
               entry 6 v x)
      (@regionprops counting_collaborators adjacent_regions) colC.
Proof.
  apply (table_gradient_columns (H:=counting_collaborators)
           adjacent_regions flat_intensity flat_intensity 128 6 2 6 "SumCanny").
  - exact sample_run.
  - reflexivity.
Defined.

Lemma table_intensity_columns_witness :
  ∃ colH colC,
    sample_table !! (10 + 6 + 24 + 2 * 4)%nat =
      Some ("Hematoxylin" +:+ "StdIntensity", colH) ∧
    sample_table !! (10 + 6 + 24 + 2 * 4 + 1)%nat =
      Some ("Cytoplasm" +:+ "StdIntensity", colC) ∧
    Forall2 (λ reg x, ∃ v,
               @ComputeIntensityFeatures counting_collaborators
                 flat_intensity (coords reg) = Some v ∧ entry 4 v x)
      (@regionprops counting_collaborators adjacent_regions) colH ∧
    Forall2 (λ reg x, ∃ v,
               @ComputeIntensityFeatures counting_collaborators
                 flat_intensity (regionCoords adjacent_regions 2 reg) = Some v ∧
               entry 4 v x)
      (@regionprops counting_collaborators adjacent_regions) colC.
Proof.
  apply (table_intensity_columns (H:=counting_collaborators)
           adjacent_regions flat_intensity flat_intensity 128 6 2 4 "StdIntensity").
  - exact sample_run.
  - reflexivity.
Defined.

Lemma extraction_succeeds_iff_vectors_fit_witness :
  is_Some (@FeatureExtraction counting_collaborators
             adjacent_regions flat_intensity flat_intensity 128 6 2) ∧
  ¬ is_Some (@FeatureExtraction counting_collaborators
               adjacent_regions single_row_intensity flat_intensity 128 6 2) ∧
  ¬ is_Some (@FeatureExtraction counting_collaborators
               adjacent_regions flat_intensity flat_intensity 128 6 (-1)).
Proof.
  split_and!.
  - apply (extraction_succeeds_iff_vectors_fit (H:=counting_collaborators)
             adjacent_regions flat_intensity flat_intensity 128 6 2).
    exists flat_intensity, no_edges, flat_intensity, no_edges.
    split; [exact sample_fields | exact sample_regions_run].
  - intros Hsome.
    apply (extraction_succeeds_iff_vectors_fit (H:=counting_collaborators)
             adjacent_regions single_row_intensity flat_intensity 128 6 2) in Hsome
      as (dn & bn & dc & bc & (Hgrad & _) & _).
    vm_compute in Hgrad. discriminate.
  - intros Hsome.
    apply (extraction_succeeds_iff_vectors_fit (H:=counting_collaborators)
             adjacent_regions flat_intensity flat_intensity 128 6 (-1)) in Hsome
      as (dn & bn & dc & bc & _ & Hruns).
    destruct (Hruns (Build_RegionProperties 1 (3, 3, 5, 5)
                       [(3, 3); (3, 4); (4, 3); (4, 4)]
                       (counting_measurements adjacent_regions 1)))
      as (_ & _ & _ & _ & HDelta & _).
    + rewrite sample_regions. left.
    + lia.
Defined.

Lemma table_has_distinct_columns_witness :
  NoDup sample_table.*1 ∧ length sample_table = (44 + 6)%nat.
Proof.
  apply (table_has_distinct_columns (H:=counting_collaborators)
           adjacent_regions flat_intensity flat_intensity 128 6 2).
  exact sample_run.
Defined.

Section OrderFacts.
Import Array ArrayFacts.

Lemma where_true_sorted (k : nat) (row : list bool) :
  StronglySorted lt
    (fst <$> filter (λ p, p.2 = true) (imap (λ i b, ((k + i)%nat, b)) row)) ∧
  Forall (λ j, (k ≤ j)%nat)
    (fst <$> filter (λ p, p.2 = true) (imap (λ i b, ((k + i)%nat, b)) row)).
Proof.
  revert k. induction row as [|b row IH]; intros k.
  - split; constructor.
  - rewrite imap_cons.
    rewrite (imap_ext _ (λ i b, ((S k + i)%nat, b)))
      by (intros i x _; simpl; f_equal; lia).
    destruct (IH (S k)) as [Hs Hge].
    destruct b.
    + rewrite filter_cons_True by done. rewrite fmap_cons. simpl fst.
      rewrite Nat.add_0_r. split.
      * constructor; [done|]. eapply Forall_impl; [exact Hge|]. simpl. lia.
      * constructor; [lia|]. eapply Forall_impl; [exact Hge|]. simpl. lia.
    + rewrite filter_cons_False by done. split; [done|].
      eapply Forall_impl; [exact Hge|]. simpl. lia.
Qed.

Lemma argwhere_sorted_from (k : nat) (a : list (list bool)) :
  StronglySorted row_major
    (mjoin (imap (λ i row, (λ j : nat, (Z.of_nat (k + i), Z.of_nat j))
                             <$> where_true row) a)) ∧
  Forall (λ p, Z.of_nat k ≤ p.1)
    (mjoin (imap (λ i row, (λ j : nat, (Z.of_nat (k + i), Z.of_nat j))
                             <$> where_true row) a)).
Proof.
  revert k. induction a as [|row a IH]; intros k.
  - split; constructor.
  - rewrite imap_cons.
    rewrite (imap_ext _ (λ i row, (λ j : nat, (Z.of_nat (S k + i), Z.of_nat j))
                                    <$> where_true row))
      by (intros i x _; simpl; by replace (k + S i)%nat with (S (k + i)) by lia).
    destruct (IH (S k)) as [Hs Hge]. rewrite Nat.add_0_r.
    change (mjoin (?x :: ?l)) with (x ++ mjoin l). split.
    + apply StronglySorted_app_2; [| |done].
      * intros p q (j & -> & _)%list_elem_of_fmap Hq.
        rewrite Forall_forall in Hge. specialize (Hge q Hq).
        left. simpl in *. lia.
      * destruct (where_true_sorted 0 row) as [Hrow _].
        eapply (StronglySorted_fmap _ lt); [|exact Hrow].
        intros x y Hxy. right. simpl. lia.
    + apply Forall_app. split.
      * apply Forall_fmap, Forall_forall. intros j _. simpl. lia.
      * eapply Forall_impl; [exact Hge|]. simpl. lia.
Qed.

(** [np.argwhere] lists the coordinates by row, then by column. *)
Lemma argwhere_sorted (a : list (list bool)) : StronglySorted row_major (argwhere a).
Proof. apply (argwhere_sorted_from 0 a). Qed.

Lemma row_major_shift (dr dc : Z) (p q : Z * Z) :
  row_major p q → row_major (p.1 + dr, p.2 + dc) (q.1 + dr, q.2 + dc).
Proof. unfold row_major. simpl. lia. Qed.

Lemma row_major_NoDup (l : list (Z * Z)) : StronglySorted row_major l → NoDup l.
Proof.
  induction 1 as [|p l Hl IH Hall]; constructor; [|done].
  intros Hin. rewrite Forall_forall in Hall. specialize (Hall p Hin).
  unfold row_major in Hall. lia.
Qed.
End OrderFacts.

(** X6.  The cytoplasm pixels and the pixels of the nucleus mask are
    listed by row and then by column, without repetition. *)
Theorem pixel_lists_row_major
    (Label : list (list Z)) (Delta : Z) (reg : RegionProperties) :
  StronglySorted row_major (regionCoords Label Delta reg) ∧
  NoDup (regionCoords Label Delta reg) ∧
  StronglySorted row_major (NucleusCoords Label Delta reg) ∧
  NoDup (NucleusCoords Label Delta reg).
Proof.
  assert (∀ a, StronglySorted row_major
            ((λ p, (p.1 + min_row Label Delta reg, p.2 + min_col Label Delta reg))
               <$> Array.argwhere a)) as Hsorted.
  { intros a. eapply StronglySorted_fmap; [|apply argwhere_sorted].
    intros p q. apply row_major_shift. }
  unfold regionCoords, NucleusCoords. split_and!;
    [apply Hsorted | apply row_major_NoDup, Hsorted
     | apply Hsorted | apply row_major_NoDup, Hsorted].
Qed.

Section WindowFacts.
Import Array ArrayFacts.
Context `{Collaborators}.
Variable Label : list (list Z).
Variable Delta : Z.
Variable reg : RegionProperties.

(** What [regionprops] guarantees about the pixels of a region: they lie
    in its bounding box. *)
Lemma regionprops_bbox_contains (r c : Z) :
  reg ∈ regionprops Label → (r, c) ∈ coords reg →
  let '(r0, c0, r1, c1) := bbox reg in (r0 ≤ r < r1) ∧ (c0 ≤ c < c1).
Proof.
  intros (_ & _ & Hbb)%elem_of_regionprops Hin.
  assert (coords reg ≠ []) as Hne by (intros Hnil; rewrite Hnil in Hin; by apply elem_of_nil in Hin).
  pose proof (bbox_of_spec (coords reg) Hne) as Hspec. rewrite <- Hbb in Hspec.
  destruct (bbox reg) as [[[r0 c0] r1] c1]. destruct Hspec as [Hall _].
  rewrite Forall_forall in Hall. apply (Hall (r, c) Hin).
Qed.

(** For a region of the image and a margin that is not negative, the
    slice bounds are honest indices: Python's treatment of negative or
    oversized bounds never applies. *)
Lemma window_stops (Hrect : rectangular Label) :
  reg ∈ regionprops Label → 0 ≤ Delta →
  row_stop Label Delta reg = max_row Label Delta reg ∧
  col_stop Label Delta reg = max_col Label Delta reg ∧
  0 ≤ min_row Label Delta reg ≤ max_row Label Delta reg ∧
  0 ≤ min_col Label Delta reg ≤ max_col Label Delta reg ∧
  max_row Label Delta reg < shape0 Label ∧ max_col Label Delta reg < shape1 Label.
Proof.
  intros Hreg HDelta.
  pose proof (regionprops_valid Label reg Hrect Hreg) as Hvalid.
  unfold row_stop, col_stop, slice_index, min_row, max_row, min_col, max_col,
    bounds, GetBounds.
  destruct (bbox reg) as [[[r0 c0] r1] c1]. simpl.
  destruct Hvalid as (_ & ? & ? & _).
  rewrite !bool_decide_eq_false_2 by lia. lia.
Qed.
End WindowFacts.

Section MaskTheorems.
Import Array ArrayFacts.
Context `{Collaborators}.
Variable Label : list (list Z).
Variable Delta : Z.
Variable reg : RegionProperties.

(** X7.  With [Delta = 0] the dilation changes nothing, and the cytoplasm
    pixels of a region are exactly the pixels of other regions inside its
    window; no background pixel is among them. *)
Theorem cytoplasm_without_margin (r c : Z) :
  rectangular Label → 0 < label reg →
  CytoplasmMask Label 0 reg r c ↔
    in_window Label 0 reg r c ∧
    ∃ v, get Label r c = Some v ∧ 0 < v ∧ v ≠ label reg.
Proof.
  intros Hrect Hpos. rewrite CytoplasmMask_iff by done.
  assert (DilatedNucleusMask Label 0 reg r c ↔ NucleusMask Label 0 reg r c) as Hdil.
  { split.
    - intros (_ & r' & c' & HN & _ & Hle).
      pose proof (square_le_bound (r - r') (c - c') 0 ltac:(lia) Hle).
      rewrite Z.add_comm in Hle.
      pose proof (square_le_bound (c - c') (r - r') 0 ltac:(lia) Hle).
      by replace r with r' by lia; replace c with c' by lia.
    - intros HN. by apply NucleusMask_in_both. }
  rewrite Hdil. unfold AnyLabelMask, NucleusMask. split.
  - intros [[(Hin & v & Hv & Hv') Hnot]|[[Hin Hv] Hnot]].
    + split; [done|]. exists v. split_and!; [done..|].
      intros ->. by apply Hnot.
    + destruct Hnot. split; [done|]. eauto.
  - intros (Hin & v & Hv & Hv' & Hne). left. split.
    + split; [done|]. eauto.
    + intros [_ Hown]. congruence.
Qed.

(** X8.  When no other region reaches into the window of a region, its
    cytoplasm is the ring around the nucleus: the pixels of the window
    within distance [Delta] of the nucleus mask that are not nucleus
    pixels. *)
Theorem cytoplasm_of_isolated_region (r c : Z) :
  rectangular Label → 0 < label reg → 0 ≤ Delta →
  (∀ r' c' v, in_window Label Delta reg r' c' → get Label r' c' = Some v →
              0 < v → v = label reg) →
  CytoplasmMask Label Delta reg r c ↔
    DilatedNucleusMask Label Delta reg r c ∧ ¬ NucleusMask Label Delta reg r c.
Proof.
  intros Hrect Hpos HDelta Halone. rewrite CytoplasmMask_iff by done.
  assert (AnyLabelMask Label Delta reg r c ↔ NucleusMask Label Delta reg r c) as Hany.
  { split.
    - intros (Hin & v & Hv & Hv'). split; [done|].
      by rewrite Hv, (Halone r c v Hin Hv Hv').
    - intros HN. by apply NucleusMask_in_both. }
  rewrite Hany. split.
  - intros [[HN Hnot]|[Hd Hnot]]; [|done].
    destruct Hnot. by apply NucleusMask_in_both.
  - intros [Hd Hnot]. by right.
Qed.

(** X9.  The nucleus mask never holds a pixel outside the region, and it
    holds all pixels of the region exactly when the bounding box of the
    region stays clear of the last row and the last column of the image. *)
Theorem nucleus_mask_covers_region :
  rectangular Label → reg ∈ regionprops Label → 0 ≤ Delta →
  (∀ p, p ∈ NucleusCoords Label Delta reg → p ∈ coords reg) ∧
  ((∀ p, p ∈ coords reg → p ∈ NucleusCoords Label Delta reg) ↔
   (bbox reg).1.2 ≤ shape0 Label - 1 ∧ (bbox reg).2 ≤ shape1 Label - 1).
Proof.
  intros Hrect Hreg HDelta.
  pose proof (regionprops_valid Label reg Hrect Hreg) as Hvalid.
  pose proof (window_stops Label Delta reg Hrect Hreg HDelta)
    as (Hrs & Hcs & _).
  pose proof (λ r c, regionprops_bbox_contains Label reg r c Hreg) as Hbox.
  unfold in_window in *.
  assert (∀ r c, in_window Label Delta reg r c →
            r < shape0 Label - 1 ∧ c < shape1 Label - 1) as Hclip
    by apply in_window_clipped.
  unfold NucleusMask.
  destruct (bbox reg) as [[[r0 c0] r1] c1] eqn:Hbb. simpl.
  destruct Hvalid as (_ & Hr & Hc & Hcoords & [cb Hcb] & [rb Hrb]).
  split; [|split].
  - intros [r c] [_ Hv]%NucleusCoords_iff; [|done]. by apply Hcoords.
  - intros Hall.
    apply Hall, NucleusCoords_iff in Hcb as [Hin1 _]; [|done].
    apply Hall, NucleusCoords_iff in Hrb as [Hin2 _]; [|done].
    apply Hclip in Hin1. apply Hclip in Hin2. lia.
  - intros [Hr1 Hc1] [r c] Hin. apply NucleusCoords_iff; [done|].
    split; [|by apply Hcoords].
    specialize (Hbox r c Hin). simpl in Hbox.
    unfold in_window. rewrite Hrs, Hcs.
    unfold min_row, max_row, min_col, max_col, bounds, GetBounds.
    rewrite Hbb. simpl. lia.
Qed.

(** X10.  Growing the margin only grows the window of a region. *)
Theorem window_grows_with_margin (Delta' : Z) (r c : Z) :
  rectangular Label → reg ∈ regionprops Label → 0 ≤ Delta ≤ Delta' →
  in_window Label Delta reg r c → in_window Label Delta' reg r c.
Proof.
  intros Hrect Hreg [HDelta Hle].
  pose proof (window_stops Label Delta reg Hrect Hreg HDelta) as (Hrs & Hcs & _).
  pose proof (window_stops Label Delta' reg Hrect Hreg ltac:(lia)) as (Hrs' & Hcs' & _).
  unfold in_window. rewrite Hrs, Hcs, Hrs', Hcs'.
  unfold min_row, max_row, min_col, max_col, bounds, GetBounds.
  destruct (bbox reg) as [[[r0 c0] r1] c1]. simpl. lia.
Qed.

(** X11.  A margin of at least the size of the image gives every region
    the same window: the whole image without its last row and column. *)
Theorem window_of_large_margin (r c : Z) :
  rectangular Label → reg ∈ regionprops Label →
  shape0 Label ≤ Delta → shape1 Label ≤ Delta →
  in_window Label Delta reg r c ↔
    (0 ≤ r < shape0 Label - 1) ∧ (0 ≤ c < shape1 Label - 1).
Proof.
  intros Hrect Hreg HM HN.
  pose proof (regionprops_valid Label reg Hrect Hreg) as Hvalid.
  assert (0 ≤ Delta) as HDelta by (unfold shape0 in HM; lia).
  pose proof (window_stops Label Delta reg Hrect Hreg HDelta) as (Hrs & Hcs & _).
  unfold in_window. rewrite Hrs, Hcs.
  unfold min_row, max_row, min_col, max_col, bounds, GetBounds.
  destruct (bbox reg) as [[[r0 c0] r1] c1]. simpl.
  destruct Hvalid as (_ & ? & ? & _). lia.
Qed.

(** X12.  When the bounding box grown by the margin fits into the image
    without its last row and column, the window is that grown box. *)
Theorem window_of_interior_region (r c : Z) :
  rectangular Label → reg ∈ regionprops Label → 0 ≤ Delta →
  Delta ≤ (bbox reg).1.1.1 → Delta ≤ (bbox reg).1.1.2 →
  (bbox reg).1.2 + Delta ≤ shape0 Label - 1 →
  (bbox reg).2 + Delta ≤ shape1 Label - 1 →
  in_window Label Delta reg r c ↔
    ((bbox reg).1.1.1 - Delta ≤ r < (bbox reg).1.2 + Delta) ∧
    ((bbox reg).1.1.2 - Delta ≤ c < (bbox reg).2 + Delta).
Proof.
  intros Hrect Hreg HDelta.
  pose proof (window_stops Label Delta reg Hrect Hreg HDelta) as (Hrs & Hcs & _).
  unfold in_window. rewrite Hrs, Hcs.
  unfold min_row, max_row, min_col, max_col, bounds, GetBounds.
  destruct (bbox reg) as [[[r0 c0] r1] c1]. simpl. lia.
Qed.
End MaskTheorems.

Lemma block_region_in_regionprops :
  block_region ∈ @regionprops constant_collaborators adjacent_regions.
Proof. apply (list_elem_of_lookup_2 _ 0%nat). vm_compute. reflexivity. Defined.

Lemma cytoplasm_without_margin_witness :
  CytoplasmMask enclosed_pixel 0 hook_region 1 1 ∧
  in_window enclosed_pixel 0 hook_region 1 1 ∧
  ∃ v, Array.get enclosed_pixel 1 1 = Some v ∧ 0 < v ∧ v ≠ label hook_region.
Proof.
  assert (in_window enclosed_pixel 0 hook_region 1 1 ∧
          ∃ v, Array.get enclosed_pixel 1 1 = Some v ∧ 0 < v ∧
               v ≠ label hook_region) as Hother.
  { split; [compute_window|]. exists 2. split_and!; [reflexivity | lia | simpl; lia]. }
  split; [|exact Hother].
  apply (cytoplasm_without_margin enclosed_pixel hook_region 1 1).
  - unfold Array.rectangular. repeat constructor.
  - simpl. lia.
  - exact Hother.
Defined.

Lemma cytoplasm_of_isolated_region_witness :
  CytoplasmMask corner_image 1 corner_region 1 2 ↔
    DilatedNucleusMask corner_image 1 corner_region 1 2 ∧
    ¬ NucleusMask corner_image 1 corner_region 1 2.
Proof.
  apply (cytoplasm_of_isolated_region corner_image 1 corner_region 1 2).
  - unfold Array.rectangular. repeat constructor.
  - simpl. lia.
  - lia.
  - intros r' c' v _ Hv Hpos.
    assert (v ∈ mjoin corner_image) as Hin
      by (apply elem_of_mjoin_get; eauto).
    vm_compute in Hin.
    repeat (apply elem_of_cons in Hin as [->|Hin]; [done || lia|]).
    by apply elem_of_nil in Hin.
Defined.

Lemma nucleus_mask_covers_region_witness :
  (∀ p, p ∈ NucleusCoords adjacent_regions 2 block_region → p ∈ coords block_region) ∧
  ((∀ p, p ∈ coords block_region → p ∈ NucleusCoords adjacent_regions 2 block_region) ↔
   (bbox block_region).1.2 ≤ Array.shape0 adjacent_regions - 1 ∧
   (bbox block_region).2 ≤ Array.shape1 adjacent_regions - 1).
Proof.
  apply (nucleus_mask_covers_region (H:=constant_collaborators)
           adjacent_regions 2 block_region).
  - unfold Array.rectangular. repeat constructor.
  - apply block_region_in_regionprops.
  - lia.
Defined.

Lemma window_grows_with_margin_witness :
  in_window adjacent_regions 3 block_region 1 3.
Proof.
  apply (window_grows_with_margin (H:=constant_collaborators)
           adjacent_regions 2 block_region 3 1 3).
  - unfold Array.rectangular. repeat constructor.
  - apply block_region_in_regionprops.
  - lia.
  - compute_window.
Defined.

Lemma window_of_large_margin_witness :
  in_window adjacent_regions 9 block_region 0 7 ↔
    (0 ≤ 0 < Array.shape0 adjacent_regions - 1) ∧
    (0 ≤ 7 < Array.shape1 adjacent_regions - 1).
Proof.
  apply (window_of_large_margin (H:=constant_collaborators)
           adjacent_regions 9 block_region 0 7).
  - unfold Array.rectangular. repeat constructor.
  - apply block_region_in_regionprops.
  - compute_window.
  - compute_window.
Defined.

Lemma window_of_interior_region_witness :
  in_window adjacent_regions 2 block_region 1 6 ↔
    ((bbox block_region).1.1.1 - 2 ≤ 1 < (bbox block_region).1.2 + 2) ∧
    ((bbox block_region).1.1.2 - 2 ≤ 6 < (bbox block_region).2 + 2).
Proof.
  apply (window_of_interior_region (H:=constant_collaborators)
           adjacent_regions 2 block_region 1 6).
  - unfold Array.rectangular. repeat constructor.
  - apply block_region_in_regionprops.
  - lia.
  - compute_window.
  - compute_window.
  - compute_window.
  - compute_window.
Defined.

Section ShapeFacts.
Import Array ArrayFacts.

Lemma length_slice {A} (start stop : Z) (l : list A) :
  0 ≤ start ≤ stop → stop ≤ Z.of_nat (length l) →
  length (slice start stop l) = Z.to_nat (stop - start).
Proof.
  intros Hs Ht. unfold slice, slice_index.
  rewrite !bool_decide_eq_false_2 by lia.
  rewrite length_take, length_drop. lia.
Qed.

Lemma has_shape_map2d {A B} (f : A → B) (h w : nat) (a : list (list A)) :
  has_shape h w a → has_shape h w (map2d f a).
Proof.
  intros [Hh Hw]. unfold map2d. split; [by rewrite length_fmap|].
  apply Forall_fmap. eapply Forall_impl; [exact Hw|].
  intros row Hrow. simpl. by rewrite length_fmap.
Qed.

Lemma has_shape_dilation (h w : nat) (image footprint : list (list bool)) :
  has_shape h w image → has_shape h w (dilation image footprint).
Proof.
  intros [Hh Hw]. unfold dilation. split; [by rewrite length_imap|].
  apply Forall_forall. intros row [i Hi]%list_elem_of_lookup.
  apply list_lookup_imap_Some in Hi as (irow & Hirow & ->).
  rewrite length_imap. rewrite Forall_forall in Hw.
  apply Hw. by eapply list_elem_of_lookup_2.
Qed.

Lemma has_shape_zip_with {A B C} (f : A → B → C) (h w : nat)
    (a : list (list A)) (b : list (list B)) :
  has_shape h w a → has_shape h w b →
  has_shape h w (zip_with (zip_with f) a b).
Proof.
  intros [Hha Hwa] [Hhb Hwb]. split.
  - rewrite length_zip_with. lia.
  - apply Forall_forall. intros row [i Hi]%list_elem_of_lookup.
    rewrite lookup_zip_with in Hi.
    destruct (a !! i) as [ra|] eqn:Hra; [|done].
    destruct (b !! i) as [rb|] eqn:Hrb; [|done].
    simpl in Hi. injection Hi as <-.
    rewrite Forall_forall in Hwa. rewrite Forall_forall in Hwb.
    rewrite length_zip_with,
      (Hwa ra (list_elem_of_lookup_2 _ _ _ Hra)),
      (Hwb rb (list_elem_of_lookup_2 _ _ _ Hrb)). lia.
Qed.
End ShapeFacts.

(** X13.  For a region of the image and a margin that is not negative,
    the nucleus mask, the mask of all nuclei, the dilated nucleus mask and
    the cytoplasm mask all have the shape of the window,
    [max_row - min_row] rows of [max_col - min_col] entries: the operands of
    the exclusive or agree in shape. *)
Theorem masks_have_window_shape `{Collaborators}
    (Label : list (list Z)) (Delta : Z) (reg : RegionProperties) :
  Array.rectangular Label → reg ∈ regionprops Label → 0 ≤ Delta →
  let h := Z.to_nat (max_row Label Delta reg - min_row Label Delta reg) in
  let w := Z.to_nat (max_col Label Delta reg - min_col Label Delta reg) in
  has_shape h w (Nucleus Label Delta reg) ∧
  has_shape h w (Mask Label Delta reg) ∧
  has_shape h w (dilation (Nucleus Label Delta reg) (Disk Delta)) ∧
  has_shape h w (cytoplasm Label Delta reg).
Proof.
  intros Hrect Hreg HDelta h w.
  pose proof (window_stops Label Delta reg Hrect Hreg HDelta)
    as (_ & _ & Hrows & Hcols & Hr & Hc).
  assert (has_shape h w (window Label Delta reg)) as Hwin.
  { unfold window, Array.slice2. split.
    - rewrite length_fmap. apply length_slice; unfold Array.shape0 in Hr; lia.
    - apply Forall_fmap, Forall_forall. intros row Hrow. simpl.
      assert (row ∈ Label) as Hin.
      { unfold Array.slice in Hrow.
        by apply subseteq_take, subseteq_drop in Hrow. }
      unfold Array.rectangular in Hrect. rewrite Forall_forall in Hrect.
      apply length_slice; [lia|]. rewrite (Hrect row Hin). lia. }
  assert (has_shape h w (Nucleus Label Delta reg)) as HN
    by by apply has_shape_map2d.
  assert (has_shape h w (Mask Label Delta reg)) as HM
    by by apply has_shape_map2d.
  assert (has_shape h w (dilation (Nucleus Label Delta reg) (Disk Delta))) as HD
    by by apply has_shape_dilation.
  split_and!; try done.
  unfold cytoplasm, logical_xor. by apply has_shape_zip_with.
Qed.

Lemma masks_have_window_shape_witness :
  has_shape 6 6 (Nucleus adjacent_regions 2 block_region) ∧
  has_shape 6 6 (Mask adjacent_regions 2 block_region) ∧
  has_shape 6 6 (dilation (Nucleus adjacent_regions 2 block_region) (Disk 2)) ∧
  has_shape 6 6 (cytoplasm adjacent_regions 2 block_region).
Proof.
  apply (masks_have_window_shape (H:=constant_collaborators)
           adjacent_regions 2 block_region).
  - unfold Array.rectangular. repeat constructor.
  - apply block_region_in_regionprops.
  - lia.
Defined.

Section SignFacts.

Lemma shr_fexp_nonneg (m e : Z) (l : location) :
  0 ≤ m → 0 ≤ shr_m (shr_fexp prec emax m e l).1.
Proof.
  intros Hm. unfold shr_fexp, shr.
  destruct (fexp prec emax (Zdigits2 m + e) - e) as [|p|p]; simpl;
    rewrite ?shr_m_iter, ?shr_m_record_of_loc; try done.
  - by apply Z.shiftr_nonneg.
  - by rewrite shr_m_record_of_loc.
Qed.

(** Rounding a mantissa that is not negative gives a float of the
    requested sign, never NaN. *)
Lemma binary_round_aux_sign_clear (m e : Z) (l : location) :
  0 ≤ m → sign_clear (binary_round_aux prec emax false m e l).
Proof.
  intros Hm. unfold binary_round_aux.
  pose proof (shr_fexp_nonneg m e l Hm) as H1.
  destruct (shr_fexp prec emax m e l) as [mrs' e']. simpl in H1.
  pose proof (round_nearest_even_ge (shr_m mrs') (loc_of_shr_record mrs')) as Hge.
  pose proof (shr_fexp_nonneg
                (round_nearest_even (shr_m mrs') (loc_of_shr_record mrs'))
                e' loc_Exact ltac:(lia)) as H2.
  destruct (shr_fexp prec emax _ e' loc_Exact) as [mrs'' e'']. simpl in H2.
  destruct (shr_m mrs''); [done | | lia].
  by destruct (_ <=? _).
Qed.

Lemma fmul_self_sign (x : float) :
  (fmul x x = S754_nan ↔ x = S754_nan) ∧ (x ≠ S754_nan → sign_clear (fmul x x)).
Proof.
  destruct x as [s|s| |s m e].
  - split; [done|]. intros _. simpl. by destruct s.
  - split; [done|]. intros _. simpl. by destruct s.
  - done.
  - pose proof (binary_round_aux_sign_clear (Z.pos (m * m)) (e + e) loc_Exact
                  ltac:(lia)) as Hs.
    assert (fmul (S754_finite s m e) (S754_finite s m e) =
            binary_round_aux prec emax false (Z.pos (m * m)) (e + e) loc_Exact) as ->
      by (unfold fmul; simpl; by destruct s).
    split; [|done]. split; [|done]. intros Heq. by rewrite Heq in Hs.
Qed.

Lemma binary_round_sign_clear (m : positive) (e : Z) :
  sign_clear (binary_round prec emax false m e).
Proof.
  unfold binary_round. destruct (shl_align m e _) as [mz ez].
  by apply binary_round_aux_sign_clear.
Qed.

Lemma fadd_sign_clear (a b : float) :
  sign_clear a → sign_clear b → sign_clear (fadd a b).
Proof.
  destruct a as [sa|sa| |sa ma ea]; destruct b as [sb|sb| |sb mb eb];
    simpl; try done; intros -> ->; try done.
  unfold fadd, SFadd, binary_normalize, cond_Zopp.
  destruct (shl_align ma ea _) as [ma' ea'], (shl_align mb eb _) as [mb' eb'].
  simpl. apply binary_round_sign_clear.
Qed.

Lemma sqrtrem_nonneg (n : Z) : 0 ≤ n → 0 ≤ (Z.sqrtrem n).1.
Proof.
  intros Hn. pose proof (Z.sqrtrem_spec n Hn) as Hspec.
  destruct (Z.sqrtrem n) as [s r]. simpl. lia.
Qed.

Lemma fsqrt_sign_clear (a : float) : sign_clear a → sign_clear (fsqrt a).
Proof.
  destruct a as [s|s| |s m e]; simpl; try done; intros ->; try done.
  unfold fsqrt, SFsqrt, SFsqrt_core_binary.
  set (s := e - 2 * _).
  set (m' := match s with Z.pos _ => Z.shiftl (Z.pos m) s | 0 => Z.pos m | Z.neg _ => 0 end).
  assert (0 ≤ m') as Hm'.
  { unfold m'. destruct s; [lia | | lia]. apply Z.shiftl_nonneg. lia. }
  pose proof (sqrtrem_nonneg m' Hm') as Hq.
  destruct (Z.sqrtrem m') as [q r]. simpl in Hq.
  by apply binary_round_aux_sign_clear.
Qed.

(** The magnitude of two gradient components is NaN exactly when one of
    them is; otherwise it is [+0.0], positive or [+inf]. *)
Lemma magnitude_sign (gx gy : float) :
  (magnitude gx gy = S754_nan ↔ gx = S754_nan ∨ gy = S754_nan) ∧
  (magnitude gx gy ≠ S754_nan → sign_clear (magnitude gx gy)).
Proof.
  destruct (fmul_self_sign gx) as [Hxn Hxs], (fmul_self_sign gy) as [Hyn Hys].
  assert (gx ≠ S754_nan → gy ≠ S754_nan → sign_clear (magnitude gx gy)) as Hclear.
  { intros Hx Hy. apply fsqrt_sign_clear, fadd_sign_clear; auto. }
  assert (gx = S754_nan ∨ gy = S754_nan → magnitude gx gy = S754_nan) as Hnan.
  { intros [->| ->]; unfold magnitude; [done|].
    change (fmul S754_nan S754_nan) with S754_nan.
    by destruct (fmul gx gx). }
  split; [split; [|done]|].
  - intros Heq.
    assert (gx = S754_nan ∨ gx ≠ S754_nan) as [?|Hx] by (destruct gx; auto); [auto|].
    assert (gy = S754_nan ∨ gy ≠ S754_nan) as [?|Hy] by (destruct gy; auto); [auto|].
    specialize (Hclear Hx Hy). by rewrite Heq in Hclear.
  - intros Hne. apply Hclear; intros ->; apply Hne, Hnan; auto.
Qed.
End SignFacts.

(** X16.  Every entry of the gradient magnitude field is computed from
    the two gradient components at the same position; it is NaN exactly
    when one of them is NaN, and otherwise its sign bit is clear: the
    square root never sees a negative sum. *)
Theorem gradient_magnitude_never_negative `{Collaborators}
    (I G : list (list float)) (r c : Z) (v : float) :
  gradient_magnitude I = Some G → Array.get G r c = Some v →
  ∃ Gx Gy gx gy,
    np_gradient I = Some (Gx, Gy) ∧
    Array.get Gx r c = Some gx ∧
    Array.get Gy r c = Some gy ∧
    v = magnitude gx gy ∧
    (v = S754_nan ↔ gx = S754_nan ∨ gy = S754_nan) ∧
    (v ≠ S754_nan → sign_clear v).
Proof.
  unfold gradient_magnitude.
  destruct (np_gradient I) as [[Gx Gy]|]; [|done]. simpl. intros [= <-].
  intros (Hr & Hc & row & Hrow & Hv)%ArrayFacts.get_Some.
  rewrite lookup_zip_with in Hrow.
  destruct (Gx !! Z.to_nat r) as [xrow|] eqn:Hxrow; [|done].
  destruct (Gy !! Z.to_nat r) as [yrow|] eqn:Hyrow; [|done].
  simpl in Hrow. injection Hrow as <-.
  rewrite lookup_zip_with in Hv.
  destruct (xrow !! Z.to_nat c) as [gx|] eqn:Hgx; [|done].
  destruct (yrow !! Z.to_nat c) as [gy|] eqn:Hgy; [|done].
  simpl in Hv. injection Hv as <-.
  exists Gx, Gy, gx, gy. split_and!.
  - done.
  - apply ArrayFacts.get_Some. eauto.
  - apply ArrayFacts.get_Some. eauto.
  - done.
  - apply (magnitude_sign gx gy).
  - apply (magnitude_sign gx gy).
Qed.

Lemma gradient_magnitude_never_negative_witness :
  ∃ Gx Gy gx gy,
    @np_gradient counting_collaborators level_intensity = Some (Gx, Gy) ∧
    Array.get Gx 1 0 = Some gx ∧
    Array.get Gy 1 0 = Some gy ∧
    magnitude four four = magnitude gx gy ∧
    (magnitude four four = S754_nan ↔ gx = S754_nan ∨ gy = S754_nan) ∧
    (magnitude four four ≠ S754_nan → sign_clear (magnitude four four)).
Proof.
  apply (gradient_magnitude_never_negative (H:=counting_collaborators)
           level_intensity
           [[magnitude four four; magnitude four four];
            [magnitude four four; magnitude four four]]
           1 0 (magnitude four four)).
  - vm_compute. reflexivity.
  - vm_compute. reflexivity.
Defined.

Section CircularityFacts.

End CircularityFacts.


